(** * Unity Catalog Image Gallery: database layer and image service

    A shallow embedding of [src/config.py], [src/database.py] and
    [src/image_service.py], of [main] in [app.py] and of
    [clean_file_path_for_display] and [display_setup_instructions] in
    [ui_components.py].

    - Python [str] values are Rocq strings; a character is a code point
      below 256, and the character classes ([isspace], [isdigit],
      [lower]) are the ones Python gives those code points.
    - [time.time()] readings and SQL numerics are rationals ([Q]).  A
      Python [float] and a PostgreSQL [float8] are binary64 numbers: the
      rationals that [float8_round] leaves as they are.  The column
      [score] is [numeric]; the score bounds are Python floats, so
      PostgreSQL compares [score::float8] with them, and [float()] rounds
      what MIN and MAX return.  NaN and infinite values in the table are
      not modelled.
    - A Python call either returns or raises: [result].  Methods that read
      or write [self], the module global [config.DEFAULT_SCHEMA] or the
      outside world are state-passing computations [M].
    - The outside world (clock, identity provider, pool check-out, the
      PostgreSQL server, the Files API, PIL) is an environment [Env] of
      oracles; every interaction is recorded in the state's [log]. *)

From Stdlib Require Import String Ascii List Bool Arith ZArith NArith QArith.
From Stdlib Require Import Qpower Qround Qabs.
From Stdlib Require Import Lia Lqa DecimalString Sorted Permutation.
From Stdlib Require OrderedTypeEx.
Import ListNotations.

Local Open Scope string_scope.
Local Open Scope list_scope.

(* ===================================================================== *)
(** ** Python values, exceptions and string methods                      *)
(* ===================================================================== *)

(** The exception classes the code distinguishes.  [Exception] stands for
    any other subclass of [builtins.Exception] (driver, pool, HTTP and PIL
    errors); [StopException] is what [st.stop()] raises: Streamlit derives
    it from [BaseException], so [except Exception] does not catch it. *)
Inductive exn_class : Type :=
| Exception
| AttributeError
| TypeError
| IndexError
| StopException.

Record exn : Type := mk_exn { exn_type : exn_class; exn_msg : string }.

(** [isinstance(e, Exception)] *)
Definition isinstance_Exception (e : exn) : bool :=
  match exn_type e with
  | StopException => false
  | _ => true
  end.

Definition isinstance_AttributeError (e : exn) : bool :=
  match exn_type e with
  | AttributeError => true
  | _ => false
  end.

(** [isinstance(e, (AttributeError, TypeError))] *)
Definition isinstance_AttributeError_TypeError (e : exn) : bool :=
  match exn_type e with
  | AttributeError | TypeError => true
  | _ => false
  end.

Inductive result (A : Type) : Type :=
| Return (a : A)
| Raise (e : exn).
Arguments Return {A} a.
Arguments Raise {A} e.

Module PyStr.

Definition ord (c : ascii) : N := N_of_ascii c.

(** [c.isspace()] for a code point below 256. *)
Definition isspace_char (c : ascii) : bool :=
  let n := ord c in
  (((9 <=? n) && (n <=? 13)) || ((28 <=? n) && (n <=? 32))
   || (n =? 133) || (n =? 160))%N.

(** [c.isdigit()] for a code point below 256: the ASCII digits and the
    superscripts two, three and one. *)
Definition isdigit_char (c : ascii) : bool :=
  let n := ord c in
  (((48 <=? n) && (n <=? 57)) || (n =? 178) || (n =? 179) || (n =? 185))%N.

(** [c.lower()] for a code point below 256. *)
Definition lower_char (c : ascii) : ascii :=
  let n := ord c in
  if (((65 <=? n) && (n <=? 90))
      || ((192 <=? n) && (n <=? 222) && negb (n =? 215)))%N
  then ascii_of_N (n + 32)
  else c.

Fixpoint lower (s : string) : string :=
  match s with
  | EmptyString => EmptyString
  | String c s' => String (lower_char c) (lower s')
  end.

Fixpoint lstrip (s : string) : string :=
  match s with
  | EmptyString => EmptyString
  | String c s' => if isspace_char c then lstrip s' else s
  end.

Fixpoint rstrip (s : string) : string :=
  match s with
  | EmptyString => EmptyString
  | String c s' =>
      match rstrip s' with
      | EmptyString => if isspace_char c then EmptyString
                       else String c EmptyString
      | r => String c r
      end
  end.

(** [s.strip()] *)
Definition strip (s : string) : string := rstrip (lstrip s).

(** [s.startswith(p)] *)
Definition startswith (s p : string) : bool := String.prefix p s.

(** [s.endswith(p)] *)
Definition endswith (s p : string) : bool :=
  let n := String.length s in
  let m := String.length p in
  if Nat.leb m n then String.eqb (String.substring (n - m) m s) p else false.

(** [s.find(sub)]: the lowest index of [sub] in [s], or [-1]. *)
Definition find (s sub : string) : Z :=
  match String.index 0 sub s with
  | Some i => Z.of_nat i
  | None => (-1)%Z
  end.

(** [sub in s] *)
Definition contains (s sub : string) : bool :=
  match String.index 0 sub s with
  | Some _ => true
  | None => false
  end.

(** [s[i:]], with Python's treatment of a negative start. *)
Definition slice_from (s : string) (i : Z) : string :=
  let n := Z.of_nat (String.length s) in
  let start := if (i <? 0)%Z then Z.max 0 (n + i) else Z.min i n in
  String.substring (Z.to_nat start) (Z.to_nat (n - start)) s.

Fixpoint all_chars (p : ascii -> bool) (s : string) : bool :=
  match s with
  | EmptyString => true
  | String c s' => p c && all_chars p s'
  end.

(** [s.isdigit()]: at least one character, and all of them digits. *)
Definition isdigit (s : string) : bool :=
  match s with
  | EmptyString => false
  | _ => all_chars isdigit_char s
  end.

(** [s.replace(old, new)] for a non-empty [old]: every occurrence, left
    to right, without overlap.  [skip] counts the characters of the
    occurrence just replaced that are still to be passed over. *)
Fixpoint replace_from (skip : nat) (old new s : string) : string :=
  match s with
  | EmptyString => EmptyString
  | String c s' =>
      match skip with
      | S k => replace_from k old new s'
      | O =>
          if String.prefix old s
          then (new ++ replace_from (String.length old - 1) old new s')%string
          else String c (replace_from 0 old new s')
      end
  end.

Definition replace (s old new : string) : string := replace_from 0 old new s.

End PyStr.

(** The values [load_image_from_volume] is handed as [file_path]: [None],
    a string, or an integer id read from the table. *)
Inductive path_arg : Type :=
| PathNone
| PathStr (s : string)
| PathInt (z : Z).

(** Truth value of a [path_arg] ([not file_path] is its negation). *)
Definition path_truthy (p : path_arg) : bool :=
  match p with
  | PathNone => false
  | PathStr s => negb (String.eqb s "")
  | PathInt z => negb (z =? 0)%Z
  end.

(** [str(file_path)] *)
Definition path_str (p : path_arg) : string :=
  match p with
  | PathNone => "None"
  | PathStr s => s
  | PathInt z => NilZero.string_of_int (Z.to_int z)
  end.

(** Truth value of an [Optional[str]]: [None] and [""] are false. *)
Definition str_truthy (o : option string) : bool :=
  match o with
  | Some s => negb (String.eqb s "")
  | None => false
  end.

(* ===================================================================== *)
(** ** [config.py]                                                        *)
(* ===================================================================== *)

(** The value [config.DEFAULT_SCHEMA] has when the module is loaded. *)
Definition DEFAULT_SCHEMA_initial : string := "example".
Definition TABLE_NAME : string := "image_predictions".
Definition PATH_COLUMN : string := "path".
Definition VOLUME_BASE_PATH : string := "/Volumes/demos/image_app/images".
Definition TOKEN_REFRESH_INTERVAL : Q := 900.
Definition CONNECTION_POOL_MIN_SIZE : Z := 2.
Definition CONNECTION_POOL_MAX_SIZE : Z := 10.

(* ===================================================================== *)
(** ** The PostgreSQL server                                              *)
(* ===================================================================== *)

(** A value in a result tuple or a bound parameter. *)
Inductive sqlval : Type :=
| Null
| Text (s : string)
| Numeric (q : Q)
| Integer (z : Z)
| Boolean (b : bool).

(** A row of the synced table: [path] text, [label] and ["labelDetail"]
    nullable text, [score] nullable numeric. *)
Record ImageRecord : Type := {
  path : string;
  label : option string;
  labelDetail : option string;
  score : option Q
}.

Record Table : Type := {
  table_schema : string;
  table_name : string;
  table_rows : list ImageRecord
}.

Record Database : Type := {
  current_database : string;
  current_schema : string;
  schemata : list string;
  tables : list Table
}.

Inductive sqltype : Type := TText | TNumeric.

Definition column_type (c : string) : option sqltype :=
  if String.eqb c "path" then Some TText
  else if String.eqb c "label" then Some TText
  else if String.eqb c "labelDetail" then Some TText
  else if String.eqb c "score" then Some TNumeric
  else None.

Definition of_text (o : option string) : sqlval :=
  match o with Some s => Text s | None => Null end.

Definition of_numeric (o : option Q) : sqlval :=
  match o with Some q => Numeric q | None => Null end.

Definition column_value (c : string) (r : ImageRecord) : sqlval :=
  if String.eqb c "path" then Text (path r)
  else if String.eqb c "label" then of_text (label r)
  else if String.eqb c "labelDetail" then of_text (labelDetail r)
  else if String.eqb c "score" then of_numeric (score r)
  else Null.

(** The comparison operators the code puts in a condition, each followed
    by one [%s] placeholder. *)
Inductive cmp_op : Type := ILIKE | EQ | GE | LE.

(** One conjunct of a WHERE clause:
    [Cmp c op] is the text [c op %s], [IsNotNull c] is [c IS NOT NULL]. *)
Inductive condition : Type :=
| Cmp (column : string) (op : cmp_op)
| IsNotNull (column : string).

Inductive projection : Type :=
| Column (distinct : bool) (column : string)  (* SELECT [DISTINCT] c *)
| CountStar                                   (* SELECT COUNT( * ) *)
| MinMax (column : string).                   (* SELECT MIN(c), MAX(c) *)

(** [SELECT proj FROM schema.table [WHERE c1 AND ... AND cn]
     [ORDER BY <the selected column>] [LIMIT %s OFFSET %s]] *)
Record select : Type := {
  sel_proj : projection;
  sel_from : string * string;
  sel_where : list condition;
  sel_order_by : bool;
  sel_limit_offset : bool
}.

Inductive query : Type :=
| Select (q : select)
| CurrentDatabaseSchema  (* SELECT current_database(), current_schema() *)
| ListSchemata           (* SELECT schema_name FROM information_schema.schemata *)
| TableExists            (* SELECT EXISTS (SELECT FROM information_schema.tables
                            WHERE table_schema = %s AND table_name = %s) *)
| FindTableSchema.       (* SELECT table_schema FROM information_schema.tables
                            WHERE table_name = %s ORDER BY table_schema LIMIT 1 *)

(** LIKE: [%] matches any run of characters, [_] any one character, and a
    backslash takes the next pattern character literally.  A pattern that
    ends in a lone backslash is an error in PostgreSQL; it matches nothing
    here, and the patterns the code builds end in [%]. *)
Fixpoint like (pat : string) : string -> bool :=
  match pat with
  | EmptyString =>
      fun s => match s with EmptyString => true | String _ _ => false end
  | String p pat' =>
      if Ascii.eqb p "%" then
        fix any (s : string) : bool :=
          like pat' s
          || match s with EmptyString => false | String _ s' => any s' end
      else if Ascii.eqb p "_" then
        fun s => match s with EmptyString => false | String _ s' => like pat' s' end
      else if Ascii.eqb p "\" then
        match pat' with
        | EmptyString => fun _ => false
        | String q pat'' =>
            fun s => match s with
                     | EmptyString => false
                     | String c s' => Ascii.eqb c q && like pat'' s'
                     end
        end
      else
        fun s => match s with
                 | EmptyString => false
                 | String c s' => Ascii.eqb c p && like pat' s'
                 end
  end.

(** [s ILIKE pat]: LIKE without regard to case. *)
Definition ilike (s pat : string) : bool :=
  like (PyStr.lower pat) (PyStr.lower s).

Section Float8.

Local Open Scope Q_scope.

(** [2^k] for an integer [k], negative or not. *)
Definition pow2 (k : Z) : Q := 2 ^ k.

(** The integer [e] with [2^e <= q < 2^(e+1)], for a positive [q]. *)
Definition ilog2 (q : Q) : Z :=
  let e0 := (Z.log2 (Qnum q) - Z.log2 (Zpos (Qden q)))%Z in
  if Qle_bool (pow2 e0) q then e0 else (e0 - 1)%Z.

(** The nearest integer; of two that are as near, the even one. *)
Definition round_half_even (x : Q) : Z :=
  let f := Qfloor x in
  match Qcompare (x - inject_Z f) (1 # 2) with
  | Lt => f
  | Gt => (f + 1)%Z
  | Eq => if Z.even f then f else (f + 1)%Z
  end.

(** The exponent of the last binary place binary64 has at a positive [q]:
    53 significant bits, and nothing finer than [2^-1074]. *)
Definition float8_ulp (q : Q) : Z := Z.max (ilog2 q - 52) (-1074).

(** The nearest multiple of [2^k]. *)
Definition round_to (k : Z) (q : Q) : Q :=
  inject_Z (round_half_even (q / pow2 k)) * pow2 k.

(** The nearest binary64 number of a positive [q], were there no
    largest. *)
Definition float8_nearest (q : Q) : Q := round_to (float8_ulp q) q.

(** The binary64 number nearest to [q], ties to even, as the conversions
    of PostgreSQL ([numeric] to [float8]) and of Python ([Decimal] to
    [float]) give it; what it is worth when it is beyond the largest
    binary64 is for [float8_overflow] to say. *)
Definition float8_round (q : Q) : Q :=
  match Qnum q with
  | Z0 => 0
  | Zpos _ => Qred (float8_nearest q)
  | Zneg _ => Qred (- float8_nearest (- q))
  end.

(** The nearest binary64 would be [2^1024] or more in size. *)
Definition float8_overflow (q : Q) : bool :=
  Qle_bool (pow2 1024) (Qabs (float8_round q)).

(** The cast [q::float8] of PostgreSQL succeeds: it is refused (["... is
    out of range for type double precision"]) on overflow and when a
    number other than zero would become zero. *)
Definition float8_in_range (q : Q) : bool :=
  negb (float8_overflow q)
  && (Qeq_bool q 0 || negb (Qeq_bool (float8_round q) 0)).

End Float8.

(** The score bounds are Python floats, which the driver sends as
    [float8]; a [numeric] compared with a [float8] is cast to [float8], so
    a comparison of two numbers is one of binary64 numbers.  The bound [b]
    stands for the float nearest to it; a float is its own nearest. *)
Definition eval_cmp (op : cmp_op) (v p : sqlval) : bool :=
  match op, v, p with
  | ILIKE, Text s, Text pat => ilike s pat
  | EQ, Text s, Text t => String.eqb s t
  | EQ, Numeric a, Numeric b => Qeq_bool (float8_round a) (float8_round b)
  | GE, Numeric a, Numeric b => Qle_bool (float8_round b) (float8_round a)
  | LE, Numeric a, Numeric b => Qle_bool (float8_round a) (float8_round b)
  | GE, Text s, Text t => String.leb t s
  | LE, Text s, Text t => String.leb s t
  | _, _, _ => false
  end.

(** A condition with the parameter bound to its placeholder.  A
    comparison with NULL is not true, so the row is dropped. *)
Definition eval_condition (r : ImageRecord) (cp : condition * sqlval) : bool :=
  match fst cp with
  | Cmp c op => eval_cmp op (column_value c r) (snd cp)
  | IsNotNull c => match column_value c r with Null => false | _ => true end
  end.

(** The cast to [float8] that the comparison of a number with a bound
    needs fails on this row. *)
Definition cast_fails (r : ImageRecord) (cp : condition * sqlval) : bool :=
  match fst cp with
  | Cmp c _ =>
      match column_value c r, snd cp with
      | Numeric a, Numeric _ => negb (float8_in_range a)
      | _, _ => false
      end
  | IsNotNull _ => false
  end.

(** Binds the parameters to the placeholders of the conditions, left to
    right; gives the bound conditions and the parameters left over. *)
Fixpoint bind_params (cs : list condition) (ps : list sqlval)
  : option (list (condition * sqlval) * list sqlval) :=
  match cs with
  | [] => Some ([], ps)
  | IsNotNull c :: cs' =>
      match bind_params cs' ps with
      | Some (b, rest) => Some ((IsNotNull c, Null) :: b, rest)
      | None => None
      end
  | Cmp c op :: cs' =>
      match ps with
      | [] => None
      | p :: ps' =>
          match bind_params cs' ps' with
          | Some (b, rest) => Some ((Cmp c op, p) :: b, rest)
          | None => None
          end
      end
  end.

(** Static typing of a bound condition: the column exists, and the
    parameter has the column's type (ILIKE wants text). *)
Definition well_typed (cp : condition * sqlval) : bool :=
  match fst cp with
  | IsNotNull c => match column_type c with Some _ => true | None => false end
  | Cmp c op =>
      match column_type c, op, snd cp with
      | Some _, _, Null => true
      | Some TText, _, Text _ => true
      | Some TNumeric, ILIKE, _ => false
      | Some TNumeric, _, Numeric _ => true
      | _, _, _ => false
      end
  end.

(** The order of ORDER BY ... ASC: NULL last, text by code point, numbers
    by value. *)
Definition sqlval_rank (v : sqlval) : nat :=
  match v with
  | Boolean _ => 0
  | Integer _ | Numeric _ => 1
  | Text _ => 2
  | Null => 3
  end.

Definition to_Q (v : sqlval) : Q :=
  match v with
  | Numeric q => q
  | Integer z => inject_Z z
  | _ => 0
  end.

Definition sqlval_leb (a b : sqlval) : bool :=
  match a, b with
  | Text s, Text t => String.leb s t
  | Boolean x, Boolean y => implb x y
  | (Numeric _ | Integer _), (Numeric _ | Integer _) => Qle_bool (to_Q a) (to_Q b)
  | _, _ => Nat.leb (sqlval_rank a) (sqlval_rank b)
  end.

Definition sqlval_eqb (a b : sqlval) : bool :=
  match a, b with
  | Null, Null => true
  | Text s, Text t => String.eqb s t
  | Boolean x, Boolean y => Bool.eqb x y
  | (Numeric _ | Integer _), (Numeric _ | Integer _) => Qeq_bool (to_Q a) (to_Q b)
  | _, _ => false
  end.

Fixpoint insert_sorted (x : sqlval) (l : list sqlval) : list sqlval :=
  match l with
  | [] => [x]
  | y :: l' => if sqlval_leb x y then x :: l else y :: insert_sorted x l'
  end.

(** ORDER BY on a single selected column. *)
Definition order_by (l : list sqlval) : list sqlval :=
  fold_right insert_sorted [] l.

(** DISTINCT: the first occurrence of each value is kept. *)
Fixpoint distinct (l : list sqlval) : list sqlval :=
  match l with
  | [] => []
  | x :: l' => x :: filter (fun y => negb (sqlval_eqb x y)) (distinct l')
  end.

(** MIN and MAX skip NULL and give NULL on no input. *)
Definition sql_min (l : list sqlval) : sqlval :=
  fold_left (fun acc v =>
               match v, acc with
               | Null, _ => acc
               | _, Null => v
               | _, _ => if sqlval_leb v acc then v else acc
               end) l Null.

Definition sql_max (l : list sqlval) : sqlval :=
  fold_left (fun acc v =>
               match v, acc with
               | Null, _ => acc
               | _, Null => v
               | _, _ => if sqlval_leb acc v then v else acc
               end) l Null.

Definition sql_error (msg : string) : exn := mk_exn Exception msg.

Definition lookup_table (db : Database) (ref : string * string) : option Table :=
  find (fun t => String.eqb (table_schema t) (fst ref)
                 && String.eqb (table_name t) (snd ref)) (tables db).

Definition result_map {A B : Type} (f : A -> B) (r : result A) : result B :=
  match r with
  | Return a => Return (f a)
  | Raise e => Raise e
  end.

(** The WHERE clause on one row: the conditions are tried from left to
    right and the first that is not true drops the row. *)
Fixpoint eval_where (r : ImageRecord) (bound : list (condition * sqlval))
  : result bool :=
  match bound with
  | [] => Return true
  | cp :: bound' =>
      if cast_fails r cp
      then Raise (sql_error "value out of range for type double precision")
      else if eval_condition r cp then eval_where r bound'
           else Return false
  end.

(** The scan of the table: the rows that pass, or the first error. *)
Fixpoint scan (bound : list (condition * sqlval)) (rows : list ImageRecord)
  : result (list ImageRecord) :=
  match rows with
  | [] => Return []
  | r :: rows' =>
      match eval_where r bound with
      | Raise e => Raise e
      | Return keep =>
          match scan bound rows' with
          | Raise e => Raise e
          | Return l => Return (if keep then r :: l else l)
          end
      end
  end.

(** A parameter of LIMIT and OFFSET is a [bigint]. *)
Definition is_bigint (z : Z) : bool :=
  ((- 2 ^ 63 <=? z) && (z <? 2 ^ 63))%Z.

(** LIMIT l OFFSET o.  The two parameters are checked before a row is
    read: first that they are [bigint]s, then the sign of the offset, then
    that of the limit; and a limit of 0 gives no row without reading any,
    so that an error in the rows does not show. *)
Definition limit_offset (l o : Z) (rows : result (list sqlval))
  : result (list sqlval) :=
  if negb (is_bigint l && is_bigint o)
  then Raise (sql_error "bigint out of range")
  else if (o <? 0)%Z then Raise (sql_error "OFFSET must not be negative")
  else if (l <? 0)%Z then Raise (sql_error "LIMIT must not be negative")
  else if (l =? 0)%Z then Return []
  else result_map (fun vs => firstn (Z.to_nat l) (skipn (Z.to_nat o) vs)) rows.

Definition tuple1 (v : sqlval) : list sqlval := [v].

Definition execute_select (db : Database) (q : select) (params : list sqlval)
  : result (list (list sqlval)) :=
  match lookup_table db (sel_from q) with
  | None => Raise (sql_error "relation does not exist")
  | Some t =>
      match bind_params (sel_where q) params with
      | None => Raise (sql_error "the query has more placeholders than parameters")
      | Some (bound, rest) =>
          if negb (forallb well_typed bound)
          then Raise (sql_error "undefined column or operator")
          else
            let rows := scan bound (table_rows t) in
            match sel_proj q, sel_limit_offset q, rest with
            | Column d c, lim, _ =>
                match column_type c with
                | None => Raise (sql_error "undefined column")
                | Some _ =>
                    let select_list := fun rows =>
                      let vs := map (column_value c) rows in
                      let vs := if d then distinct vs else vs in
                      if sel_order_by q then order_by vs else vs in
                    match lim, rest with
                    | false, [] =>
                        result_map (fun rows => map tuple1 (select_list rows))
                                   rows
                    | true, [Integer l; Integer o] =>
                        result_map (map tuple1)
                          (limit_offset l o (result_map select_list rows))
                    | _, _ => Raise (sql_error "wrong number or type of parameters")
                    end
                end
            | CountStar, false, [] =>
                result_map
                  (fun rows => [[Integer (Z.of_nat (List.length rows))]]) rows
            | MinMax c, false, [] =>
                match column_type c with
                | None => Raise (sql_error "undefined column")
                | Some _ =>
                    result_map
                      (fun rows =>
                         let vs := map (column_value c) rows in
                         [[sql_min vs; sql_max vs]]) rows
                end
            | _, _, _ => Raise (sql_error "wrong number or type of parameters")
            end
      end
  end.

(** The schemas that hold a table of the given name, as information_schema
    lists them. *)
Definition schemas_of_table (db : Database) (name : string) : list sqlval :=
  map (fun t => Text (table_schema t))
      (filter (fun t => String.eqb (table_name t) name) (tables db)).

(** [cur.execute(query, params)] followed by reading the whole result. *)
Definition execute (db : Database) (q : query) (params : list sqlval)
  : result (list (list sqlval)) :=
  match q, params with
  | Select sq, _ => execute_select db sq params
  | CurrentDatabaseSchema, [] =>
      Return [[Text (current_database db); Text (current_schema db)]]
  | ListSchemata, [] => Return (map (fun s => [Text s]) (schemata db))
  | TableExists, [Text s; Text n] =>
      Return [[Boolean (existsb (fun t => String.eqb (table_schema t) s
                                          && String.eqb (table_name t) n)
                                (tables db))]]
  | FindTableSchema, [Text n] =>
      Return (map tuple1 (firstn 1 (order_by (schemas_of_table db n))))
  | _, _ => Raise (sql_error "wrong number or type of parameters")
  end.

(* ===================================================================== *)
(** ** The outside world, the program state and the monad                 *)
(* ===================================================================== *)

(** What ends up in [file_data]: bytes, or something [BytesIO] refuses. *)
Inductive payload : Type :=
| Bytes (data : string)
| NotBytes.

(** The [contents] attribute of a download response: a stream with a
    [read()] method, or a plain value without one. *)
Inductive contents_attr : Type :=
| ContentsStream (read_result : result payload)
| ContentsValue (v : payload).

(** What [files.download] hands back: each of the attribute [contents],
    the attribute [content] and the method [read()] may be missing. *)
Record DownloadResponse : Type := {
  contents : option contents_attr;
  content : option payload;
  read : option (result payload)
}.

(** A decoded PIL image. *)
Record image : Type := { image_data : string }.

(** [psycopg_pool.ConnectionPool(conninfo, min_size=..., max_size=...)] *)
Record ConnectionPool : Type := {
  conninfo : string;
  min_size : Z;
  max_size : Z
}.

(** A connection checked out of a pool. *)
Record Connection : Type := { conn_pool : ConnectionPool }.

(** The oracles.  [env_time n] is the n-th reading of [time.time()],
    [env_oauth_token n] the answer to the n-th request to the identity
    provider, [env_pool_connection n] the outcome of the n-th check-out
    of a connection, [env_getenv] is [os.getenv]. *)
Record Env : Type := {
  env_time : nat -> Q;
  env_oauth_token : nat -> result string;
  env_pool_connection : nat -> result unit;
  env_getenv : string -> option string;
  env_server : Database;
  env_files_download : string -> result DownloadResponse;
  env_Image_open : string -> result image
}.

Inductive event : Type :=
| Print (msg : string)
| St_error (detail : string)
| St_warning (detail : string)
| St_info (detail : string)
| Oauth_token_request
| Pool_create (pool : ConnectionPool)
| Pool_close (pool : ConnectionPool)
| Pool_checkout (pool : ConnectionPool)
| Execute (q : query) (params : list sqlval)
| Files_download (p : string).

(** The fields of the [DatabaseManager] instance, the module global
    [config.DEFAULT_SCHEMA], the positions in the oracles and the log. *)
Record State : Type := {
  postgres_password : option string;
  last_password_refresh : Q;
  connection_pool : option ConnectionPool;
  DEFAULT_SCHEMA : string;
  clock_reads : nat;
  token_requests : nat;
  checkouts : nat;
  log : list event
}.

(** [DatabaseManager.__init__] and the freshly imported [config]. *)
Definition initial_state : State := {|
  postgres_password := None;
  last_password_refresh := 0;
  connection_pool := None;
  DEFAULT_SCHEMA := DEFAULT_SCHEMA_initial;
  clock_reads := 0;
  token_requests := 0;
  checkouts := 0;
  log := []
|}.

Definition M (A : Type) : Type := State -> result A * State.

Definition ret {A : Type} (a : A) : M A := fun s => (Return a, s).

Definition raise {A : Type} (e : exn) : M A := fun s => (Raise e, s).

Definition bind {A B : Type} (c : M A) (f : A -> M B) : M B :=
  fun s =>
    match c s with
    | (Return a, s') => f a s'
    | (Raise e, s') => (Raise e, s')
    end.

Notation "x <- c ;; k" := (bind c (fun x => k))
  (at level 61, c at next level, right associativity).
Notation "c ;; k" := (bind c (fun _ => k))
  (at level 61, right associativity).

(** [try: c  except <classes> as e: h e] *)
Definition try_except {A : Type} (c : M A) (classes : exn -> bool)
  (h : exn -> M A) : M A :=
  fun s =>
    match c s with
    | (Raise e, s') => if classes e then h e s' else (Raise e, s')
    | r => r
    end.

Definition lift {A : Type} (r : result A) : M A := fun s => (r, s).

Definition get : M State := fun s => (Return s, s).

Definition emit (e : event) : M unit :=
  fun s => (Return tt,
            {| postgres_password := postgres_password s;
               last_password_refresh := last_password_refresh s;
               connection_pool := connection_pool s;
               DEFAULT_SCHEMA := DEFAULT_SCHEMA s;
               clock_reads := clock_reads s;
               token_requests := token_requests s;
               checkouts := checkouts s;
               log := log s ++ [e] |}).

Definition set_postgres_password (v : option string) : M unit :=
  fun s => (Return tt,
            {| postgres_password := v;
               last_password_refresh := last_password_refresh s;
               connection_pool := connection_pool s;
               DEFAULT_SCHEMA := DEFAULT_SCHEMA s;
               clock_reads := clock_reads s;
               token_requests := token_requests s;
               checkouts := checkouts s;
               log := log s |}).

Definition set_last_password_refresh (v : Q) : M unit :=
  fun s => (Return tt,
            {| postgres_password := postgres_password s;
               last_password_refresh := v;
               connection_pool := connection_pool s;
               DEFAULT_SCHEMA := DEFAULT_SCHEMA s;
               clock_reads := clock_reads s;
               token_requests := token_requests s;
               checkouts := checkouts s;
               log := log s |}).

Definition set_connection_pool (v : option ConnectionPool) : M unit :=
  fun s => (Return tt,
            {| postgres_password := postgres_password s;
               last_password_refresh := last_password_refresh s;
               connection_pool := v;
               DEFAULT_SCHEMA := DEFAULT_SCHEMA s;
               clock_reads := clock_reads s;
               token_requests := token_requests s;
               checkouts := checkouts s;
               log := log s |}).

Definition set_DEFAULT_SCHEMA (v : string) : M unit :=
  fun s => (Return tt,
            {| postgres_password := postgres_password s;
               last_password_refresh := last_password_refresh s;
               connection_pool := connection_pool s;
               DEFAULT_SCHEMA := v;
               clock_reads := clock_reads s;
               token_requests := token_requests s;
               checkouts := checkouts s;
               log := log s |}).

(** [for x in l: f x], collecting the values. *)
Fixpoint for_each {A B : Type} (f : A -> M B) (l : list A) : M (list B) :=
  match l with
  | [] => ret []
  | x :: l' => y <- f x ;; ys <- for_each f l' ;; ret (y :: ys)
  end.

(** [t[i]] on a tuple. *)
Definition getitem (t : list sqlval) (i : nat) : M sqlval :=
  match nth_error t i with
  | Some v => ret v
  | None => raise (mk_exn IndexError "tuple index out of range")
  end.

(** [cur.fetchone()] after an execute whose rows are [rows]. *)
Definition fetchone (rows : list (list sqlval)) : option (list sqlval) :=
  match rows with
  | [] => None
  | r :: _ => Some r
  end.

(** [fetchone()[0]]: subscripting [None] is a [TypeError]. *)
Definition fetchone_item (rows : list (list sqlval)) (i : nat) : M sqlval :=
  match fetchone rows with
  | Some r => getitem r i
  | None => raise (mk_exn TypeError "'NoneType' object is not subscriptable")
  end.

(** Truth value of a tuple: it is not empty. *)
Definition tuple_truthy (t : list sqlval) : bool :=
  match t with [] => false | _ :: _ => true end.

(** [v is not None] *)
Definition is_not_None (v : sqlval) : bool :=
  match v with Null => false | _ => true end.

(** Truth value of a value read from the database. *)
Definition sqlval_truthy (v : sqlval) : bool :=
  match v with
  | Null => false
  | Text s => negb (String.eqb s "")
  | Numeric q => negb (Qeq_bool q 0)
  | Integer z => negb (z =? 0)%Z
  | Boolean b => b
  end.

(** The [str] a value read from a text column is. *)
Definition sqlval_str (v : sqlval) : string :=
  match v with
  | Text s => s
  | _ => ""
  end.

(** A Python [float] that is not NaN: a binary64 number or an infinity. *)
Inductive pyfloat : Type :=
| Finite (q : Q)
| Infinity (negative : bool).

(** [float(d)] for a [Decimal] [d]: the nearest binary64 number, and an
    infinity beyond the largest. *)
Definition float_of_Decimal (q : Q) : pyfloat :=
  if float8_overflow q then Infinity (Qnum q <? 0)%Z
  else Finite (float8_round q).

(** [float(v)] for a value read from the table: a numeric arrives as a
    [Decimal]. *)
Definition float (v : sqlval) : M pyfloat :=
  match v with
  | Numeric q => ret (float_of_Decimal q)
  | Integer z =>
      if float8_overflow (inject_Z z)
      then raise (mk_exn Exception "int too large to convert to float")
      else ret (Finite (float8_round (inject_Z z)))
  | Boolean b => ret (Finite (if b then 1 else 0))
  | Text _ => raise (mk_exn Exception "could not convert string to float")
  | Null => raise (mk_exn TypeError "float() argument must be a string or a real number")
  end.

(** [str(x)] inside an f-string, for an optional string. *)
Definition str_opt (o : option string) : string :=
  match o with
  | Some s => s
  | None => "None"
  end.

(** [if o:] on an [Optional[str]]: [f] runs on a non-empty string. *)
Definition when_str {A : Type} (o : option string) (otherwise : A)
  (f : string -> A) : A :=
  match o with
  | Some s => if String.eqb s "" then otherwise else f s
  | None => otherwise
  end.

(** [if o is not None:] *)
Definition when_not_None {A B : Type} (o : option B) (otherwise : A)
  (f : B -> A) : A :=
  match o with
  | Some x => f x
  | None => otherwise
  end.

(** [conditions.append(c); params.append(p)] *)
Definition append_condition (cp : list condition * list sqlval)
  (c : condition) (p : sqlval) : list condition * list sqlval :=
  (fst cp ++ [c], snd cp ++ [p]).

(* ===================================================================== *)
(** ** [database.py]                                                      *)
(* ===================================================================== *)

Section Program.

Variable env : Env.

(** [time.time()] *)
Definition time_time : M Q :=
  fun s => (Return (env_time env (clock_reads s)),
            {| postgres_password := postgres_password s;
               last_password_refresh := last_password_refresh s;
               connection_pool := connection_pool s;
               DEFAULT_SCHEMA := DEFAULT_SCHEMA s;
               clock_reads := S (clock_reads s);
               token_requests := token_requests s;
               checkouts := checkouts s;
               log := log s |}).

(** [self.workspace_client.config.oauth_token().access_token] *)
Definition oauth_token : M string :=
  fun s => (env_oauth_token env (token_requests s),
            {| postgres_password := postgres_password s;
               last_password_refresh := last_password_refresh s;
               connection_pool := connection_pool s;
               DEFAULT_SCHEMA := DEFAULT_SCHEMA s;
               clock_reads := clock_reads s;
               token_requests := S (token_requests s);
               checkouts := checkouts s;
               log := log s ++ [Oauth_token_request] |}).

(** [pool.connection()], entered by [with]. *)
Definition pool_connection (pool : ConnectionPool) : M Connection :=
  fun s => (match env_pool_connection env (checkouts s) with
            | Return _ => Return {| conn_pool := pool |}
            | Raise e => Raise e
            end,
            {| postgres_password := postgres_password s;
               last_password_refresh := last_password_refresh s;
               connection_pool := connection_pool s;
               DEFAULT_SCHEMA := DEFAULT_SCHEMA s;
               clock_reads := clock_reads s;
               token_requests := token_requests s;
               checkouts := S (checkouts s);
               log := log s ++ [Pool_checkout pool] |}).

(** [cur.execute(query, params)]; the value is the result set. *)
Definition cur_execute (q : query) (params : list sqlval)
  : M (list (list sqlval)) :=
  emit (Execute q params) ;; lift (execute (env_server env) q params).

Definition print (msg : string) : M unit := emit (Print msg).
Definition st_error (detail : string) : M unit := emit (St_error detail).
Definition st_warning (detail : string) : M unit := emit (St_warning detail).
Definition st_info (detail : string) : M unit := emit (St_info detail).

(** [st.stop()] *)
Definition st_stop {A : Type} : M A := raise (mk_exn StopException "").

(** [self.postgres_password is None or
     time.time() - self.last_password_refresh > TOKEN_REFRESH_INTERVAL] *)
Definition token_stale : M bool :=
  s <- get ;;
  match postgres_password s with
  | None => ret true
  | Some _ =>
      t <- time_time ;;
      ret (negb (Qle_bool (t - last_password_refresh s) TOKEN_REFRESH_INTERVAL))
  end.

Definition refresh_oauth_token : M unit :=
  stale <- token_stale ;;
  if stale then
    print "Refreshing PostgreSQL OAuth token" ;;
    try_except
      (token <- oauth_token ;;
       set_postgres_password (Some token) ;;
       t <- time_time ;;
       set_last_password_refresh t)
      isinstance_Exception
      (fun e => st_error (exn_msg e) ;; st_stop)
  else ret tt.

Definition get_pg_connection_params (key : string) : option string :=
  if String.eqb key "dbname" then env_getenv env "PGDATABASE"
  else if String.eqb key "user" then env_getenv env "PGUSER"
  else if String.eqb key "host" then env_getenv env "PGHOST"
  else if String.eqb key "port" then env_getenv env "PGPORT"
  else if String.eqb key "sslmode" then
    Some (match env_getenv env "PGSSLMODE" with Some v => v | None => "require" end)
  else if String.eqb key "application_name" then env_getenv env "PGAPPNAME"
  else None.

(** The f-string that builds [conn_string]. *)
Definition conn_string (password : option string) : string :=
  let params := get_pg_connection_params in
  ("dbname=" ++ str_opt (params "dbname") ++ " "
   ++ "user=" ++ str_opt (params "user") ++ " "
   ++ "password=" ++ str_opt password ++ " "
   ++ "host=" ++ str_opt (params "host") ++ " "
   ++ "port=" ++ str_opt (params "port") ++ " "
   ++ "sslmode=" ++ str_opt (params "sslmode") ++ " "
   ++ "application_name=" ++ str_opt (params "application_name"))%string.

(** [ConnectionPool(conninfo, min_size=..., max_size=...)] *)
Definition ConnectionPool_new (info : string) (lo hi : Z) : M ConnectionPool :=
  let pool := {| conninfo := info; min_size := lo; max_size := hi |} in
  emit (Pool_create pool) ;; ret pool.

Definition get_connection_pool : M ConnectionPool :=
  s <- get ;;
  match connection_pool s with
  | None =>
      refresh_oauth_token ;;
      s1 <- get ;;
      pool <- ConnectionPool_new (conn_string (postgres_password s1))
                CONNECTION_POOL_MIN_SIZE CONNECTION_POOL_MAX_SIZE ;;
      set_connection_pool (Some pool) ;;
      ret pool
  | Some pool => ret pool
  end.

Definition get_connection : M Connection :=
  stale <- token_stale ;;
  (if stale then
     s <- get ;;
     match connection_pool s with
     | Some pool => emit (Pool_close pool) ;; set_connection_pool None
     | None => ret tt
     end
   else ret tt) ;;
  pool <- get_connection_pool ;;
  pool_connection pool.

(** [with self.get_connection() as conn: with conn.cursor() as cur: body] *)
Definition with_connection {A : Type} (body : Connection -> M A) : M A :=
  conn <- get_connection ;; body conn.

(** [schema = config.DEFAULT_SCHEMA if schema is None else schema] *)
Definition schema_or_default (schema : option string) : M string :=
  match schema with
  | None => s <- get ;; ret (DEFAULT_SCHEMA s)
  | Some x => ret x
  end.

Definition find_table_schema (table : string) : M (option sqlval) :=
  try_except
    (with_connection (fun conn =>
       rows <- cur_execute FindTableSchema [Text table] ;;
       match fetchone rows with
       | Some result =>
           if tuple_truthy result
           then v <- getitem result 0 ;; ret (Some v)
           else ret None
       | None => ret None
       end))
    isinstance_Exception
    (fun _ => ret None).

Definition check_table_exists (schema : option string) (table : string)
  : M bool :=
  schema <- schema_or_default schema ;;
  try_except
    (with_connection (fun conn =>
       r1 <- cur_execute CurrentDatabaseSchema [] ;;
       r2 <- cur_execute ListSchemata [] ;;
       rows <- cur_execute TableExists [Text schema; Text table] ;;
       result <- fetchone_item rows 0 ;;
       if sqlval_truthy result then ret true
       else
         found_schema <- find_table_schema table ;;
         match found_schema with
         | Some v =>
             if sqlval_truthy v
             then set_DEFAULT_SCHEMA (sqlval_str v) ;; ret true
             else ret false
         | None => ret false
         end))
    isinstance_Exception
    (fun e => st_error (exn_msg e) ;; ret false).

(** The condition blocks on [label], [label_detail], [min_score] and
    [max_score], which three methods repeat word for word. *)
Definition label_score_conditions (cp : list condition * list sqlval)
  (label label_detail : option string) (min_score max_score : option Q)
  : list condition * list sqlval :=
  let cp := when_str label cp
              (fun l => append_condition cp (Cmp "label" EQ) (Text l)) in
  let cp := when_str label_detail cp
              (fun d => append_condition cp (Cmp "labelDetail" EQ) (Text d)) in
  let cp := when_not_None min_score cp
              (fun m => append_condition cp (Cmp "score" GE) (Numeric m)) in
  let cp := when_not_None max_score cp
              (fun m => append_condition cp (Cmp "score" LE) (Numeric m)) in
  cp.

(** The condition block on [search_term]. *)
Definition search_condition (cp : list condition * list sqlval)
  (search_term : option string) : list condition * list sqlval :=
  when_str search_term cp
    (fun t => append_condition cp (Cmp PATH_COLUMN ILIKE)
                               (Text ("%" ++ t ++ "%")%string)).

Definition get_image_paths (limit offset : Z)
  (search_term label label_detail : option string)
  (min_score max_score : option Q) (schema : option string)
  : M (list (list sqlval)) :=
  schema <- schema_or_default schema ;;
  with_connection (fun conn =>
    let table_ref := (schema, TABLE_NAME) in
    let cp := search_condition ([], []) search_term in
    let cp := label_score_conditions cp label label_detail min_score max_score in
    let query := Select {| sel_proj := Column false PATH_COLUMN;
                           sel_from := table_ref;
                           sel_where := fst cp;
                           sel_order_by := true;
                           sel_limit_offset := true |} in
    let params := snd cp ++ [Integer limit; Integer offset] in
    rows <- cur_execute query params ;;
    ret rows).

Definition get_all_image_paths (label label_detail : option string)
  (min_score max_score : option Q) (schema : option string)
  : M (list sqlval) :=
  schema <- schema_or_default schema ;;
  with_connection (fun conn =>
    let table_ref := (schema, TABLE_NAME) in
    let cp := label_score_conditions ([], []) label label_detail
                                     min_score max_score in
    let query := Select {| sel_proj := Column false PATH_COLUMN;
                           sel_from := table_ref;
                           sel_where := fst cp;
                           sel_order_by := true;
                           sel_limit_offset := false |} in
    rows <- cur_execute query (snd cp) ;;
    for_each (fun record => getitem record 0) rows).

Definition get_distinct_labels (schema : option string) : M (list sqlval) :=
  schema <- schema_or_default schema ;;
  with_connection (fun conn =>
    let table_ref := (schema, TABLE_NAME) in
    let query := Select {| sel_proj := Column true "label";
                           sel_from := table_ref;
                           sel_where := [IsNotNull "label"];
                           sel_order_by := true;
                           sel_limit_offset := false |} in
    rows <- cur_execute query [] ;;
    for_each (fun record => getitem record 0) rows).

Definition get_distinct_label_details (label : option string)
  (schema : option string) : M (list sqlval) :=
  schema <- schema_or_default schema ;;
  with_connection (fun conn =>
    let table_ref := (schema, TABLE_NAME) in
    rows <- when_str label
              (let query := Select {| sel_proj := Column true "labelDetail";
                                      sel_from := table_ref;
                                      sel_where := [IsNotNull "labelDetail"];
                                      sel_order_by := true;
                                      sel_limit_offset := false |} in
               cur_execute query [])
              (fun l =>
               let query := Select {| sel_proj := Column true "labelDetail";
                                      sel_from := table_ref;
                                      sel_where := [IsNotNull "labelDetail";
                                                    Cmp "label" EQ];
                                      sel_order_by := true;
                                      sel_limit_offset := false |} in
               cur_execute query [Text l]) ;;
    for_each (fun record => getitem record 0) rows).

Definition get_score_range (schema : option string) : M (pyfloat * pyfloat) :=
  schema <- schema_or_default schema ;;
  with_connection (fun conn =>
    let table_ref := (schema, TABLE_NAME) in
    let query := Select {| sel_proj := MinMax "score";
                           sel_from := table_ref;
                           sel_where := [IsNotNull "score"];
                           sel_order_by := false;
                           sel_limit_offset := false |} in
    rows <- cur_execute query [] ;;
    match fetchone rows with
    | Some result =>
        if tuple_truthy result then
          r0 <- getitem result 0 ;;
          if is_not_None r0 then
            r1 <- getitem result 1 ;;
            if is_not_None r1 then
              lo <- float r0 ;; hi <- float r1 ;; ret (lo, hi)
            else ret (Finite 0, Finite 1)
          else ret (Finite 0, Finite 1)
        else ret (Finite 0, Finite 1)
    | None => ret (Finite 0, Finite 1)
    end).

Definition get_total_image_count
  (search_term label label_detail : option string)
  (min_score max_score : option Q) (schema : option string) : M sqlval :=
  schema <- schema_or_default schema ;;
  with_connection (fun conn =>
    let table_ref := (schema, TABLE_NAME) in
    let cp := search_condition ([], []) search_term in
    let cp := label_score_conditions cp label label_detail min_score max_score in
    let query := Select {| sel_proj := CountStar;
                           sel_from := table_ref;
                           sel_where := fst cp;
                           sel_order_by := false;
                           sel_limit_offset := false |} in
    rows <- cur_execute query (snd cp) ;;
    fetchone_item rows 0).

(** [check_database_connection] *)
Definition check_database_connection : M bool :=
  check_table_exists None TABLE_NAME.

(* ===================================================================== *)
(** ** [image_service.py]                                                 *)
(* ===================================================================== *)

(** [self.workspace_client.files.download(path)] *)
Definition files_download (p : string) : M DownloadResponse :=
  emit (Files_download p) ;; lift (env_files_download env p).

(** [Image.open(BytesIO(file_data))] *)
Definition Image_open (file_data : payload) : M image :=
  match file_data with
  | Bytes data => lift (env_Image_open env data)
  | NotBytes => raise (mk_exn TypeError "a bytes-like object is required")
  end.

Definition no_attribute {A : Type} : M A :=
  raise (mk_exn AttributeError "object has no attribute").

(** [any(file_path_str.lower().endswith(ext) for ext in [...])] *)
Definition has_image_extension (file_path_str : string) : bool :=
  existsb (fun ext => PyStr.endswith (PyStr.lower file_path_str) ext)
          [".jpg"; ".jpeg"; ".png"; ".gif"; ".webp"; ".bmp"].

(** The branches that compute [normalized_path] from [file_path_str];
    [None] where the method leaves with [return None]. *)
Definition normalized_path (file_path_str : string) : M (option string) :=
  if PyStr.startswith file_path_str "dbfs:/Volumes/" then
    ret (Some (PyStr.replace file_path_str "dbfs:" ""))
  else if PyStr.startswith file_path_str "/Volumes/" then
    ret (Some file_path_str)
  else if PyStr.isdigit file_path_str then
    st_warning file_path_str ;; ret None
  else if negb (PyStr.contains file_path_str "/") then
    if PyStr.contains file_path_str "." && has_image_extension file_path_str
    then
      let potential_path := (VOLUME_BASE_PATH ++ "/" ++ file_path_str)%string in
      st_info potential_path ;; ret (Some potential_path)
    else
      st_warning file_path_str ;; ret None
  else if PyStr.startswith file_path_str "/" then
    if negb (PyStr.contains file_path_str "/Volumes/") then
      st_warning file_path_str ;; ret None
    else
      let volumes_index := PyStr.find file_path_str "/Volumes/" in
      let normalized := PyStr.slice_from file_path_str volumes_index in
      st_info normalized ;; ret (Some normalized)
  else
    st_warning file_path_str ;;
    st_info "Expected formats" ;;
    ret None.

(** The nested [try] blocks that dig the bytes out of the response. *)
Definition read_file_data (download_response : DownloadResponse) : M payload :=
  try_except
    (match contents download_response with
     | Some (ContentsStream r) => lift r
     | Some (ContentsValue _) => no_attribute
     | None => no_attribute
     end)
    isinstance_AttributeError
    (fun _ =>
       try_except
         (match content download_response with
          | Some v => ret v
          | None => no_attribute
          end)
         isinstance_AttributeError
         (fun _ =>
            try_except
              (match read download_response with
               | Some r => lift r
               | None => no_attribute
               end)
              isinstance_AttributeError_TypeError
              (fun _ =>
                 try_except
                   (match contents download_response with
                    | Some (ContentsValue v) => ret v
                    | Some (ContentsStream _) => ret NotBytes
                    | None => no_attribute
                    end)
                   isinstance_Exception
                   (fun _ => ret NotBytes)))).

Definition load_image_from_volume (file_path : path_arg) : M (option image) :=
  try_except
    (if negb (path_truthy file_path) then
       st_warning "Empty file path provided" ;; ret None
     else
       let file_path_str := PyStr.strip (path_str file_path) in
       n <- normalized_path file_path_str ;;
       match n with
       | None => ret None
       | Some p =>
           download_response <- files_download p ;;
           file_data <- read_file_data download_response ;;
           img <- Image_open file_data ;;
           ret (Some img)
       end)
    isinstance_Exception
    (fun e => st_error (exn_msg e) ;; st_info "Error type" ;; ret None).

End Program.

(* ===================================================================== *)
(** ** [config.py]: the environment checks                                *)
(* ===================================================================== *)

(** [os.getenv('DATABRICKS_HOST', '')] *)
Definition get_databricks_host (env : Env) : string :=
  match env_getenv env "DATABRICKS_HOST" with
  | Some v => v
  | None => ""
  end.

(** The loop appends to [missing_vars] each required variable for which
    [not os.getenv(var)] holds. *)
Definition validate_required_env_vars (env : Env) : list string :=
  let required_vars :=
    ["DATABRICKS_HOST"; "PGDATABASE"; "PGUSER"; "PGHOST"; "PGPORT"] in
  fold_left (fun missing_vars var =>
               if negb (str_truthy (env_getenv env var))
               then missing_vars ++ [var]
               else missing_vars)
            required_vars [].

(* ===================================================================== *)
(** ** [image_service.py]: [validate_image_path]                          *)
(* ===================================================================== *)

(** [isinstance(file_path, str)] *)
Definition isinstance_str (file_path : path_arg) : bool :=
  match file_path with
  | PathStr _ => true
  | _ => false
  end.

Definition validate_image_path (file_path : path_arg) : bool :=
  if negb (path_truthy file_path) || negb (isinstance_str file_path)
  then false
  else
    let volume_path := PyStr.strip (path_str file_path) in
    PyStr.startswith volume_path "/Volumes/"
    || PyStr.startswith volume_path "dbfs:/Volumes/".

(* ===================================================================== *)
(** ** [ui_components.py]: [clean_file_path_for_display]                  *)
(* ===================================================================== *)

Definition clean_file_path_for_display (file_path : string) : string :=
  if PyStr.startswith file_path "dbfs:/Volumes/"
  then PyStr.replace file_path "dbfs:" ""
  else file_path.

(** [display_setup_instructions].  The module binds [DEFAULT_SCHEMA] by
    [from .config import DEFAULT_SCHEMA], so the text names the schema the
    configuration had when it was loaded. *)
Definition display_setup_instructions : M unit :=
  st_error "Cannot connect to the database or the required table doesn't exist." ;;
  st_info (DEFAULT_SCHEMA_initial ++ "." ++ TABLE_NAME ++ " "
           ++ VOLUME_BASE_PATH)%string.

(* ===================================================================== *)
(** ** [app.py]                                                           *)
(* ===================================================================== *)

(** What [main] puts on the page besides messages. *)
Inductive page_element : Type :=
| St_set_page_config (page_title layout : string)
| St_title (body : string)
| St_markdown (body : string).

(** The state of the program together with the page built so far. *)
Record Page : Type := {
  page_state : State;
  page_elements : list page_element
}.

Definition U (A : Type) : Type := Page -> result A * Page.

Definition u_ret {A : Type} (a : A) : U A := fun p => (Return a, p).

Definition u_bind {A B : Type} (c : U A) (f : A -> U B) : U B :=
  fun p =>
    match c p with
    | (Return a, p') => f a p'
    | (Raise e, p') => (Raise e, p')
    end.

(** A computation of the layers below, run on the page's state. *)
Definition lift_M {A : Type} (c : M A) : U A :=
  fun p =>
    (fst (c (page_state p)),
     {| page_state := snd (c (page_state p));
        page_elements := page_elements p |}).

Definition render (e : page_element) : U unit :=
  fun p => (Return tt, {| page_state := page_state p;
                          page_elements := page_elements p ++ [e] |}).

(** Truth value of a list: it is not empty. *)
Definition list_truthy {A : Type} (l : list A) : bool :=
  match l with [] => false | _ :: _ => true end.

(** [main], with the gallery it ends in ([display_image_selector]) as a
    parameter.  As elsewhere the texts are given without their emoji, and
    a message with a variable part is recorded by that part. *)
Definition main (env : Env) (display_image_selector : U unit) : U unit :=
  u_bind (render (St_set_page_config "Unity Catalog Image Gallery" "wide"))
    (fun _ =>
  u_bind (render (St_title "Unity Catalog Image Gallery")) (fun _ =>
  u_bind (render (St_markdown "*AI Image Predictions Browser powered by Lakebase*"))
    (fun _ =>
  u_bind (render (St_markdown "---")) (fun _ =>
  let missing_vars := validate_required_env_vars env in
  u_bind (if list_truthy missing_vars then
            lift_M (st_error (String.concat ", " missing_vars) ;;
                    st_info "Required Environment Variables" ;;
                    st_stop)
          else u_ret tt) (fun _ =>
  u_bind (lift_M (check_database_connection env)) (fun connected =>
  u_bind (if negb connected then
            lift_M (display_setup_instructions ;; st_stop)
          else u_ret tt) (fun _ =>
  display_image_selector))))))).

(* ===================================================================== *)
(** ** Vocabulary of the statements                                       *)
(* ===================================================================== *)

(** The identity provider always answers and a connection can always be
    checked out. *)
Definition healthy (env : Env) : Prop :=
  (forall n, exists token, env_oauth_token env n = Return token)
  /\ (forall n, env_pool_connection env n = Return tt).

(** [time.time()] never goes backwards. *)
Definition monotone_clock (env : Env) : Prop :=
  forall n, (env_time env n <= env_time env (S n))%Q.

(** The server holds the table [schema.name] with these rows. *)
Definition has_table (db : Database) (schema name : string)
  (rows : list ImageRecord) : Prop :=
  exists t, lookup_table db (schema, name) = Some t /\ table_rows t = rows.

(** Some table of the catalog is called [name] and lives in [schema]. *)
Definition table_in_schema (db : Database) (schema name : string) : Prop :=
  exists t, In t (tables db) /\ table_schema t = schema /\ table_name t = name.

(** Schema names are not empty (PostgreSQL refuses a zero-length
    identifier). *)
Definition schema_names_nonempty (db : Database) : Prop :=
  forall t, In t (tables db) -> table_schema t <> "".

(** Order of strings by code point. *)
Definition str_le (a b : string) : Prop := String.leb a b = true.
Definition str_lt (a b : string) : Prop := String.ltb a b = true.

Definition is_token_request (e : event) : bool :=
  match e with Oauth_token_request => true | _ => false end.

Definition is_pool_close (e : event) : bool :=
  match e with Pool_close _ => true | _ => false end.

Definition is_pool_create (e : event) : bool :=
  match e with Pool_create _ => true | _ => false end.

(** The catalog-wide search of [find_table_schema]. *)
Definition is_schema_scan (e : event) : bool :=
  match e with Execute FindTableSchema _ => true | _ => false end.

(** Events of acquiring a connection: no statement is executed. *)
Definition is_connection_event (e : event) : bool :=
  match e with
  | Print _ | St_error _ | Oauth_token_request
  | Pool_create _ | Pool_close _ | Pool_checkout _ => true
  | _ => false
  end.

Definition is_execute (e : event) : bool :=
  match e with Execute _ _ => true | _ => false end.

Definition count_events (p : event -> bool) (l : list event) : nat :=
  List.length (filter p l).

(** The paths handed to the Files API, in order. *)
Fixpoint downloads (l : list event) : list string :=
  match l with
  | [] => []
  | Files_download p :: l' => p :: downloads l'
  | _ :: l' => downloads l'
  end.

(** What the Files API and PIL raise are instances of [Exception] (not
    [KeyboardInterrupt] and the like), also from inside a [read()]. *)
Definition ordinary_response (r : DownloadResponse) : Prop :=
  (forall e, contents r = Some (ContentsStream (Raise e)) ->
             isinstance_Exception e = true)
  /\ (forall e, read r = Some (Raise e) -> isinstance_Exception e = true).

Definition ordinary_files (env : Env) : Prop :=
  (forall p e, env_files_download env p = Raise e ->
               isinstance_Exception e = true)
  /\ (forall p r, env_files_download env p = Return r -> ordinary_response r)
  /\ (forall d e, env_Image_open env d = Raise e ->
                  isinstance_Exception e = true).

(** What [load_image_from_volume] returns once it has settled on the path
    [p], when failures are instances of [Exception]: the decoded image if
    the download, the reading of the bytes and the decoding all succeed,
    [None] otherwise. *)
Definition load_result (env : Env) (p : string) : option image :=
  match env_files_download env p with
  | Raise _ => None
  | Return response =>
      match fst (read_file_data response initial_state) with
      | Return (Bytes data) =>
          match env_Image_open env data with
          | Return img => Some img
          | Raise _ => None
          end
      | _ => None
      end
  end.

(** The non-null scores of a table. *)
Fixpoint scores (rows : list ImageRecord) : list Q :=
  match rows with
  | [] => []
  | r :: rows' =>
      match score r with
      | Some q => q :: scores rows'
      | None => scores rows'
      end
  end.

(** Every score of the table can be cast to [float8]. *)
Definition float8_scores (rows : list ImageRecord) : Prop :=
  forallb float8_in_range (scores rows) = true.

(** No comparison of the WHERE clause fails on a cast, on any row. *)
Definition casts_succeed (bound : list (condition * sqlval))
  (rows : list ImageRecord) : Prop :=
  forall r cp, In r rows -> In cp bound -> cast_fails r cp = false.

(** A parameter that is not a number. *)
Definition not_number (p : sqlval) : bool :=
  match p with Numeric _ => false | _ => true end.

(** The score bounds can be evaluated on the table: there is none, or
    every score can be cast to [float8]. *)
Definition bounds_castable (min_score max_score : option Q)
  (rows : list ImageRecord) : Prop :=
  (min_score = None /\ max_score = None) \/ float8_scores rows.

(** The filter set of the specification: every field is optional. *)
Record FilterCriteria : Type := {
  f_search_term : option string;
  f_label : option string;
  f_label_detail : option string;
  f_min_score : option Q;
  f_max_score : option Q
}.

(** The paginated operation on a filter set. *)
Definition list_paths (env : Env) (f : FilterCriteria) (limit offset : Z)
  (schema : option string) : M (list (list sqlval)) :=
  get_image_paths env limit offset (f_search_term f) (f_label f)
                  (f_label_detail f) (f_min_score f) (f_max_score f) schema.

(** The unbounded operation on a filter set: it has no parameter for the
    search term, so the other four fields are all it can be given. *)
Definition list_all_paths (env : Env) (f : FilterCriteria)
  (schema : option string) : M (list sqlval) :=
  get_all_image_paths env (f_label f) (f_label_detail f)
                      (f_min_score f) (f_max_score f) schema.

(** The row passes the four filters both operations share. *)
Definition row_matches (label label_detail : option string)
  (min_score max_score : option Q) (r : ImageRecord) : bool :=
  let cp := label_score_conditions ([], []) label label_detail
                                   min_score max_score in
  forallb (eval_condition r) (combine (fst cp) (snd cp)).

Definition is_cmp (c : condition) : bool :=
  match c with Cmp _ _ => true | IsNotNull _ => false end.

(** The two lists [conditions] and [params] go together: one parameter
    for each condition, of the right type. *)
Definition well_formed (cp : list condition * list sqlval) : Prop :=
  List.length (fst cp) = List.length (snd cp)
  /\ forallb is_cmp (fst cp) = true
  /\ forallb well_typed (combine (fst cp) (snd cp)) = true.

(** The schema a call works on: its argument, or [config.DEFAULT_SCHEMA]. *)
Definition resolve (schema : option string) (s : State) : string :=
  match schema with
  | Some x => x
  | None => DEFAULT_SCHEMA s
  end.

(** The pages at offsets 0, L, 2L, ..., (n-1)L, fetched one after the
    other. *)
Definition run_pages (env : Env) (f : FilterCriteria) (L : Z)
  (schema : option string) (n : nat) : M (list (list (list sqlval))) :=
  for_each (fun k => list_paths env f L (Z.of_nat k * L) schema) (seq 0 n).

(** Pagination consistency: the unbounded operation returns, and the pages
    fetched after it, as many as cover its result, put end to end are that
    result.  The page size and the offsets are what PostgreSQL takes for
    LIMIT and OFFSET: [bigint]s, so [L] and the last offset, [(n-1)L], are
    below [2^63]. *)
Definition pagination_consistent (env : Env) (f : FilterCriteria)
  (schema : option string) (s : State) : Prop :=
  exists all s1,
    list_all_paths env f schema s = (Return all, s1)
    /\ forall (L : Z) (n : nat),
        (0 < L < 2 ^ 63)%Z ->
        (Z.of_nat (Nat.pred n) * L < 2 ^ 63)%Z ->
        (List.length all <= n * Z.to_nat L)%nat ->
        exists pages s2,
          run_pages env f L schema n s1 = (Return pages, s2)
          /\ concat pages = map tuple1 all.

(** The label-details of the rows that pass [keep], NULL left out. *)
Fixpoint label_details (keep : ImageRecord -> bool)
  (rows : list ImageRecord) : list string :=
  match rows with
  | [] => []
  | r :: rows' =>
      match labelDetail r with
      | Some d => if keep r then d :: label_details keep rows'
                  else label_details keep rows'
      | None => label_details keep rows'
      end
  end.

(** [label = X] on a row. *)
Definition has_label (X : string) (r : ImageRecord) : bool :=
  eval_cmp EQ (of_text (label r)) (Text X).

(** The counterpart of [distinct] on strings. *)
Fixpoint distinct_str (l : list string) : list string :=
  match l with
  | [] => []
  | x :: l' => x :: filter (fun y => negb (String.eqb x y)) (distinct_str l')
  end.

(** The label-detail dependency: the call with label [X] and the call
    without a label both return, deduplicated, without NULL and in strict
    code-point order; the first result is within the second, and holds
    exactly the label-details that occur in a row together with [X]. *)
Definition label_detail_dependency (env : Env) (rows : list ImageRecord)
  (X : string) (schema : option string) (s : State) : Prop :=
  exists dX dAll sX sAll,
    get_distinct_label_details env (Some X) schema s = (Return (map Text dX), sX)
    /\ get_distinct_label_details env None schema s = (Return (map Text dAll), sAll)
    /\ (forall d, In d dX -> In d dAll)
    /\ (forall d, In d dX <->
                  exists r, In r rows /\ label r = Some X
                            /\ labelDetail r = Some d)
    /\ (forall d, In d dAll <-> exists r, In r rows /\ labelDetail r = Some d)
    /\ StronglySorted str_lt dX
    /\ StronglySorted str_lt dAll.

(** The six public query operations, with their arguments. *)
Inductive query_op : Type :=
| Op_get_image_paths (limit offset : Z)
    (search_term label label_detail : option string)
    (min_score max_score : option Q)
| Op_get_all_image_paths (label label_detail : option string)
    (min_score max_score : option Q)
| Op_get_distinct_labels
| Op_get_distinct_label_details (label : option string)
| Op_get_score_range
| Op_get_total_image_count (search_term label label_detail : option string)
    (min_score max_score : option Q).

(** Calling one of them; the value it returns is dropped. *)
Definition run_op (env : Env) (op : query_op) (schema : option string)
  : M unit :=
  match op with
  | Op_get_image_paths l o t lb d mn mx =>
      get_image_paths env l o t lb d mn mx schema ;; ret tt
  | Op_get_all_image_paths lb d mn mx =>
      get_all_image_paths env lb d mn mx schema ;; ret tt
  | Op_get_distinct_labels => get_distinct_labels env schema ;; ret tt
  | Op_get_distinct_label_details lb =>
      get_distinct_label_details env lb schema ;; ret tt
  | Op_get_score_range => get_score_range env schema ;; ret tt
  | Op_get_total_image_count t lb d mn mx =>
      get_total_image_count env t lb d mn mx schema ;; ret tt
  end.


(** A small world to run the code in: the table lives in schema [alt],
    not in the configured one, and another copy in schema [zeta] is empty. *)
Definition ex_rows : list ImageRecord :=
  [ {| path := "/Volumes/m/b.png"; label := Some "cat";
       labelDetail := Some "tabby"; score := Some (1 # 2) |};
    {| path := "/Volumes/m/a.png"; label := Some "dog";
       labelDetail := Some "pug"; score := Some (- (1 # 4)) |};
    {| path := "/Volumes/m/c.png"; label := Some "cat";
       labelDetail := None; score := None |} ].

Definition ex_db : Database := {|
  current_database := "lakebase";
  current_schema := "public";
  schemata := ["alt"; "example"; "public"; "zeta"];
  tables := [ {| table_schema := "zeta"; table_name := TABLE_NAME;
                 table_rows := [] |};
              {| table_schema := "alt"; table_name := TABLE_NAME;
                 table_rows := ex_rows |} ]
|}.

Definition ex_response (data : string) : DownloadResponse :=
  {| contents := Some (ContentsStream (Return (Bytes data)));
     content := None;
     read := None |}.

Definition ex_env : Env := {|
  env_time := fun n => inject_Z (Z.of_nat n);
  env_oauth_token := fun _ => Return "token";
  env_pool_connection := fun _ => Return tt;
  env_getenv := fun _ => None;
  env_server := ex_db;
  env_files_download := fun p => Return (ex_response p);
  env_Image_open := fun data => Return {| image_data := data |}
|}.

(** A table whose scores are decimals that are not binary64 numbers:
    0.1, 0.10000000000000001 and 0.7. *)
Definition ex_rows_decimal : list ImageRecord :=
  [ {| path := "/Volumes/m/d.png"; label := Some "cat";
       labelDetail := None; score := Some (1 # 10) |};
    {| path := "/Volumes/m/e.png"; label := Some "cat";
       labelDetail := None;
       score := Some (10000000000000001 # 100000000000000000) |};
    {| path := "/Volumes/m/f.png"; label := Some "dog";
       labelDetail := None; score := Some (7 # 10) |} ].

(** The example world with that table in schema [alt]. *)
Definition ex_env_decimal : Env := {|
  env_time := env_time ex_env;
  env_oauth_token := env_oauth_token ex_env;
  env_pool_connection := env_pool_connection ex_env;
  env_getenv := env_getenv ex_env;
  env_server := {| current_database := "lakebase";
                   current_schema := "public";
                   schemata := ["alt"; "public"];
                   tables := [ {| table_schema := "alt";
                                  table_name := TABLE_NAME;
                                  table_rows := ex_rows_decimal |} ] |};
  env_files_download := env_files_download ex_env;
  env_Image_open := env_Image_open ex_env
|}.

(** The example world with one more row, whose label no other row has and
    which has no score. *)
Definition ex_env_unscored : Env := {|
  env_time := env_time ex_env;
  env_oauth_token := env_oauth_token ex_env;
  env_pool_connection := env_pool_connection ex_env;
  env_getenv := env_getenv ex_env;
  env_server := {| current_database := "lakebase";
                   current_schema := "public";
                   schemata := ["alt"; "public"];
                   tables := [ {| table_schema := "alt";
                                  table_name := TABLE_NAME;
                                  table_rows :=
                                    ex_rows
                                    ++ [ {| path := "/Volumes/m/h.png";
                                            label := Some "bird";
                                            labelDetail := None;
                                            score := None |} ] |} ] |};
  env_files_download := env_files_download ex_env;
  env_Image_open := env_Image_open ex_env
|}.

(** The example world with a Files API and a decoder that fail: a path
    that holds [missing] is not found, the stream of one that holds
    [reset] breaks while it is read, and bytes that hold [corrupt] are no
    image. *)
Definition ex_env_faulty : Env := {|
  env_time := env_time ex_env;
  env_oauth_token := env_oauth_token ex_env;
  env_pool_connection := env_pool_connection ex_env;
  env_getenv := env_getenv ex_env;
  env_server := ex_db;
  env_files_download := fun p =>
    if PyStr.contains p "missing"
    then Raise (mk_exn Exception "404 Not Found")
    else if PyStr.contains p "reset"
    then Return {| contents := Some (ContentsStream
                                       (Raise (mk_exn Exception "connection reset")));
                   content := None;
                   read := None |}
    else Return (ex_response p);
  env_Image_open := fun data =>
    if PyStr.contains data "corrupt"
    then Raise (mk_exn Exception "cannot identify image file")
    else Return {| image_data := data |}
|}.

(** The example world with a table that holds a score beyond the range
    of [float8], 10^400. *)
Definition ex_env_huge : Env := {|
  env_time := env_time ex_env;
  env_oauth_token := env_oauth_token ex_env;
  env_pool_connection := env_pool_connection ex_env;
  env_getenv := env_getenv ex_env;
  env_server := {| current_database := "lakebase";
                   current_schema := "public";
                   schemata := ["alt"; "public"];
                   tables := [ {| table_schema := "alt";
                                  table_name := TABLE_NAME;
                                  table_rows :=
                                    [ {| path := "/Volumes/m/x.png";
                                         label := Some "cat";
                                         labelDetail := None;
                                         score := Some (inject_Z (10 ^ 400)) |};
                                      {| path := "/Volumes/m/y.png";
                                         label := Some "dog";
                                         labelDetail := None;
                                         score := Some (1 # 2) |} ] |} ] |};
  env_files_download := env_files_download ex_env;
  env_Image_open := env_Image_open ex_env
|}.

(** The same world with a server that refuses connections. *)
Definition ex_env_down : Env := {|
  env_time := env_time ex_env;
  env_oauth_token := env_oauth_token ex_env;
  env_pool_connection := fun _ => Raise (mk_exn Exception "connection refused");
  env_getenv := env_getenv ex_env;
  env_server := ex_db;
  env_files_download := env_files_download ex_env;
  env_Image_open := env_Image_open ex_env
|}.

(** The example world with another clock: the first reading of
    [time.time()] is 0 and every later one is [t]. *)
Definition ex_env_at (t : Q) : Env := {|
  env_time := fun n => match n with O => 0 | S _ => t end;
  env_oauth_token := env_oauth_token ex_env;
  env_pool_connection := env_pool_connection ex_env;
  env_getenv := env_getenv ex_env;
  env_server := ex_db;
  env_files_download := env_files_download ex_env;
  env_Image_open := env_Image_open ex_env
|}.

(** The state after a first acquisition in that world: the token was
    fetched at time 0 and the pool is built. *)
Definition ex_connected (t : Q) : State :=
  snd (get_connection (ex_env_at t) initial_state).

(** Insertion sort of strings by code point, the counterpart of
    [order_by] on a text column. *)
Fixpoint insert_str (x : string) (l : list string) : list string :=
  match l with
  | [] => [x]
  | y :: l' => if String.leb x y then x :: l else y :: insert_str x l'
  end.

Definition sort_str (l : list string) : list string :=
  fold_right insert_str [] l.

(** A computation that leaves [config.DEFAULT_SCHEMA] as it was, whatever
    its outcome. *)
Definition keeps_schema {A : Type} (c : M A) : Prop :=
  forall s, DEFAULT_SCHEMA (snd (c s)) = DEFAULT_SCHEMA s.

(** The same, except when the computation returns true. *)
Definition keeps_schema_unless_true (c : M bool) : Prop :=
  forall s, fst (c s) <> Return true ->
            DEFAULT_SCHEMA (snd (c s)) = DEFAULT_SCHEMA s.

(** Every value the computation returns satisfies [P]. *)
Definition returns_only {A : Type} (c : M A) (P : A -> Prop) : Prop :=
  forall s a s', c s = (Return a, s') -> P a.

(** Every exception the computation raises satisfies [P]. *)
Definition raises_only {A : Type} (c : M A) (P : exn -> Prop) : Prop :=
  forall s e s', c s = (Raise e, s') -> P e.

(** The example world with an identity provider that is out of order. *)
Definition ex_env_no_token : Env := {|
  env_time := env_time ex_env;
  env_oauth_token := fun _ => Raise (mk_exn Exception "invalid client");
  env_pool_connection := env_pool_connection ex_env;
  env_getenv := env_getenv ex_env;
  env_server := ex_db;
  env_files_download := env_files_download ex_env;
  env_Image_open := env_Image_open ex_env
|}.

(** The example world whose identity provider answers once and then
    fails, and whose clock reads 0 and then 901. *)
Definition ex_env_expiring : Env := {|
  env_time := fun n => match n with O => 0 | S _ => 901 end;
  env_oauth_token := fun n => match n with
                              | O => Return "token"
                              | S _ => Raise (mk_exn Exception "invalid client")
                              end;
  env_pool_connection := env_pool_connection ex_env;
  env_getenv := env_getenv ex_env;
  env_server := ex_db;
  env_files_download := env_files_download ex_env;
  env_Image_open := env_Image_open ex_env
|}.

(** The example world whose identity provider hands out a new token at
    the second request, and whose clock reads 0 and then 901. *)
Definition ex_env_rotating : Env := {|
  env_time := fun n => match n with O => 0 | S _ => 901 end;
  env_oauth_token := fun n => match n with
                              | O => Return "token"
                              | S _ => Return "token2"
                              end;
  env_pool_connection := env_pool_connection ex_env;
  env_getenv := env_getenv ex_env;
  env_server := ex_db;
  env_files_download := env_files_download ex_env;
  env_Image_open := env_Image_open ex_env
|}.

(** The state after a first acquisition in that world: the manager holds
    the first token and the pool built with it. *)
Definition ex_rotating_connected : State :=
  snd (get_connection ex_env_rotating initial_state).

(** The row passes the filters of [get_image_paths] and
    [get_total_image_count], as the code builds them. *)
Definition row_passes (search_term label label_detail : option string)
  (min_score max_score : option Q) (r : ImageRecord) : bool :=
  let cp := search_condition ([], []) search_term in
  let cp := label_score_conditions cp label label_detail min_score max_score in
  forallb (eval_condition r) (combine (fst cp) (snd cp)).

(** The same filters said row by row.  A filter that is [None], and a
    string filter that is empty, lets every row pass; any other filter
    needs a value in its column, so a NULL there fails it. *)
Definition search_matches (search_term : option string) (r : ImageRecord)
  : bool :=
  when_str search_term true (fun t => ilike (path r) ("%" ++ t ++ "%")).

Definition text_matches (filter : option string) (v : option string) : bool :=
  when_str filter true
    (fun x => match v with Some y => String.eqb y x | None => false end).

(** A score bound is a Python float and the score is compared with it as
    a binary64 number: both in their nearest binary64. *)
Definition min_matches (min_score : option Q) (r : ImageRecord) : bool :=
  match min_score, score r with
  | None, _ => true
  | Some m, Some q => Qle_bool (float8_round m) (float8_round q)
  | Some _, None => false
  end.

Definition max_matches (max_score : option Q) (r : ImageRecord) : bool :=
  match max_score, score r with
  | None, _ => true
  | Some m, Some q => Qle_bool (float8_round q) (float8_round m)
  | Some _, None => false
  end.

Definition matches (search_term label_filter detail_filter : option string)
  (min_score max_score : option Q) (r : ImageRecord) : bool :=
  search_matches search_term r
  && text_matches label_filter (label r)
  && text_matches detail_filter (labelDetail r)
  && min_matches min_score r
  && max_matches max_score r.

(** The paths of the rows that pass, in code-point order. *)
Definition matching_paths (search_term label label_detail : option string)
  (min_score max_score : option Q) (rows : list ImageRecord) : list string :=
  sort_str (map path (filter (matches search_term label label_detail
                                      min_score max_score) rows)).

(** A character that LIKE takes literally. *)
Definition plain_char (c : ascii) : bool :=
  negb (Ascii.eqb c "%") && negb (Ascii.eqb c "_") && negb (Ascii.eqb c "\").

(** A search term without [%], [_] and backslash. *)
Definition plain (t : string) : bool := PyStr.all_chars plain_char t.

(** [t] occurs in [s], case ignored. *)
Definition icontains (s t : string) : Prop :=
  exists pre post, PyStr.lower s = (pre ++ PyStr.lower t ++ post)%string.

(** The labels of the rows, NULL left out. *)
Fixpoint labels_of (rows : list ImageRecord) : list string :=
  match rows with
  | [] => []
  | r :: rows' =>
      match label r with
      | Some l => l :: labels_of rows'
      | None => labels_of rows'
      end
  end.

(** The row has a score. *)
Definition has_score (r : ImageRecord) : bool :=
  match score r with Some _ => true | None => false end.

(** An environment given by a list of variables and their values. *)
Definition getenv_of (vars : list (string * string)) (key : string)
  : option string :=
  match find (fun kv => String.eqb (fst kv) key) vars with
  | Some kv => Some (snd kv)
  | None => None
  end.

(** The example world with these environment variables. *)
Definition ex_env_with (vars : list (string * string)) : Env := {|
  env_time := env_time ex_env;
  env_oauth_token := env_oauth_token ex_env;
  env_pool_connection := env_pool_connection ex_env;
  env_getenv := getenv_of vars;
  env_server := ex_db;
  env_files_download := env_files_download ex_env;
  env_Image_open := env_Image_open ex_env
|}.

Definition ex_vars : list (string * string) :=
  [("DATABRICKS_HOST", "https://adb.example.net");
   ("PGDATABASE", "lakebase"); ("PGUSER", "app");
   ("PGHOST", "db.example.net"); ("PGPORT", "5432")].

(** [download_response.contents.read()] cannot be had: the attribute or
    the method is missing, or the call raises [AttributeError]. *)
Definition contents_read_unavailable (response : DownloadResponse) : bool :=
  match contents response with
  | Some (ContentsStream (Return _)) => false
  | Some (ContentsStream (Raise e)) => isinstance_AttributeError e
  | Some (ContentsValue _) => true
  | None => true
  end.

(** [download_response.read()] cannot be had: the method is missing, or
    the call raises [AttributeError] or [TypeError]. *)
Definition read_unavailable (response : DownloadResponse) : bool :=
  match read response with
  | Some (Return _) => false
  | Some (Raise e) => isinstance_AttributeError_TypeError e
  | None => true
  end.

(** A call of one of the public operations of the database layer; the
    value it returns is dropped. *)
Inductive call : Type :=
| Call_query (op : query_op) (schema : option string)
| Call_check_table_exists (schema : option string) (table : string)
| Call_find_table_schema (table : string).

Definition run_call (env : Env) (c : call) : M unit :=
  match c with
  | Call_query op schema => run_op env op schema
  | Call_check_table_exists schema table =>
      check_table_exists env schema table ;; ret tt
  | Call_find_table_schema table => find_table_schema env table ;; ret tt
  end.

(** The calls one after the other, up to the first that raises. *)
Definition run_calls (env : Env) (calls : list call) : M (list unit) :=
  for_each (run_call env) calls.

(** The computation keeps the property [J] of the state and logs only
    events that satisfy [Q]. *)
Definition maintains (J : State -> Prop) (Q : event -> bool) {A : Type}
  (c : M A) : Prop :=
  forall s, J s ->
    J (snd (c s))
    /\ exists evs, log (snd (c s)) = log s ++ evs /\ forallb Q evs = true.

(** The pool, if there is one, was built with the token the manager
    holds. *)
Definition pool_current (env : Env) (s : State) : Prop :=
  match connection_pool s with
  | Some pool => conninfo pool = conn_string env (postgres_password s)
  | None => True
  end.

(** The manager holds this token, fetched at this time, and this pool. *)
Definition holds_token (token : string) (T : Q) (pool : ConnectionPool)
  (s : State) : Prop :=
  postgres_password s = Some token
  /\ last_password_refresh s = T
  /\ connection_pool s = Some pool.

(** Events other than a token request, the building of a pool and the
    closing of one. *)
Definition no_refresh_event (e : event) : bool :=
  negb (is_token_request e || is_pool_create e || is_pool_close e).

Definition any_event (e : event) : bool := true.

(** [o is not None] *)
Definition is_set {A : Type} (o : option A) : bool :=
  match o with Some _ => true | None => false end.

(** The text of the WHERE clause the three filtered operations build: the
    conditions, with their placeholders, without the parameters. *)
Definition where_clause (search_term label label_detail : option string)
  (min_score max_score : option Q) : list condition :=
  fst (label_score_conditions (search_condition ([], []) search_term)
         label label_detail min_score max_score).

(** The parameters that go with it. *)
Definition where_params (search_term label label_detail : option string)
  (min_score max_score : option Q) : list sqlval :=
  snd (label_score_conditions (search_condition ([], []) search_term)
         label label_detail min_score max_score).

(** The statement each query operation sends to the server, with its
    parameters: the text the method builds, on the table of [schema]. *)
Definition op_statement (op : query_op) (schema : string)
  : query * list sqlval :=
  let table_ref := (schema, TABLE_NAME) in
  match op with
  | Op_get_image_paths l o t lb d mn mx =>
      (Select {| sel_proj := Column false PATH_COLUMN;
                 sel_from := table_ref;
                 sel_where := where_clause t lb d mn mx;
                 sel_order_by := true;
                 sel_limit_offset := true |},
       where_params t lb d mn mx ++ [Integer l; Integer o])
  | Op_get_all_image_paths lb d mn mx =>
      (Select {| sel_proj := Column false PATH_COLUMN;
                 sel_from := table_ref;
                 sel_where := where_clause None lb d mn mx;
                 sel_order_by := true;
                 sel_limit_offset := false |},
       where_params None lb d mn mx)
  | Op_get_distinct_labels =>
      (Select {| sel_proj := Column true "label";
                 sel_from := table_ref;
                 sel_where := [IsNotNull "label"];
                 sel_order_by := true;
                 sel_limit_offset := false |},
       [])
  | Op_get_distinct_label_details lb =>
      (Select {| sel_proj := Column true "labelDetail";
                 sel_from := table_ref;
                 sel_where := IsNotNull "labelDetail"
                              :: when_str lb [] (fun _ => [Cmp "label" EQ]);
                 sel_order_by := true;
                 sel_limit_offset := false |},
       when_str lb [] (fun l => [Text l]))
  | Op_get_score_range =>
      (Select {| sel_proj := MinMax "score";
                 sel_from := table_ref;
                 sel_where := [IsNotNull "score"];
                 sel_order_by := false;
                 sel_limit_offset := false |},
       [])
  | Op_get_total_image_count t lb d mn mx =>
      (Select {| sel_proj := CountStar;
                 sel_from := table_ref;
                 sel_where := where_clause t lb d mn mx;
                 sel_order_by := false;
                 sel_limit_offset := false |},
       where_params t lb d mn mx)
  end.

(** A computation that leaves the state as it was, whatever its outcome. *)
Definition keeps_state {A : Type} (c : M A) : Prop :=
  forall s, snd (c s) = s.

(** The score is not NULL and, cast to [float8], not below zero. *)
Definition score_at_least_0 (r : ImageRecord) : bool :=
  match score r with
  | Some q => Qle_bool 0 (float8_round q)
  | None => false
  end.

(** The score is not NULL and, cast to [float8], not above zero. *)
Definition score_at_most_0 (r : ImageRecord) : bool :=
  match score r with
  | Some q => Qle_bool (float8_round q) 0
  | None => false
  end.

(* ===================================================================== *)
(** ** Rounding to binary64                                               *)
(* ===================================================================== *)

Section Float8Facts.

Local Open Scope Q_scope.

Lemma pow2_pos k : 0 < pow2 k.
Proof. apply Qpower_0_lt. reflexivity. Qed.

Lemma pow2_le k1 k2 : (k1 <= k2)%Z -> pow2 k1 <= pow2 k2.
Proof. intros H. apply Qpower_le_compat_l; [exact H | discriminate]. Qed.

Lemma pow2_lt k1 k2 : (k1 < k2)%Z -> pow2 k1 < pow2 k2.
Proof. intros H. apply Qpower_lt_compat_l; [exact H | reflexivity]. Qed.

Lemma pow2_lt_inv k1 k2 : pow2 k1 < pow2 k2 -> (k1 < k2)%Z.
Proof. intros H. apply (Qpower_lt_compat_l_inv 2); [exact H | reflexivity]. Qed.

Lemma pow2_plus a b : pow2 (a + b) == pow2 a * pow2 b.
Proof. apply Qpower_plus. discriminate. Qed.

Lemma pow2_inject k : (0 <= k)%Z -> pow2 k == inject_Z (2 ^ k).
Proof. intros H. unfold pow2. now rewrite Zpower_Qpower. Qed.

Lemma pow2_nonzero k : ~ pow2 k == 0.
Proof. intros H. pose proof (pow2_pos k) as P. rewrite H in P. discriminate. Qed.

Lemma ilog2_bounds (q : Q) :
  0 < q ->
  pow2 (Z.log2 (Qnum q) - Z.log2 (Zpos (Qden q)) - 1) <= q
  /\ q < pow2 (Z.log2 (Qnum q) - Z.log2 (Zpos (Qden q)) + 1).
Proof.
  destruct q as [n d]. intros Hq. cbn [Qnum Qden].
  assert (Hn : (0 < n)%Z) by (unfold Qlt in Hq; simpl in Hq; lia).
  pose proof (Z.log2_spec n Hn) as [Hn1 Hn2].
  pose proof (Z.log2_spec (Zpos d) eq_refl) as [Hd1 Hd2].
  pose proof (Z.log2_nonneg n) as Ln.
  pose proof (Z.log2_nonneg (Zpos d)) as Ld.
  set (ln := Z.log2 n) in *. set (ld := Z.log2 (Zpos d)) in *.
  assert (E : n # d == inject_Z n / inject_Z (Zpos d)) by apply Qmake_Qdiv.
  assert (Hdpos : 0 < inject_Z (Zpos d)) by reflexivity.
  split.
  - replace (ln - ld - 1)%Z with (ln - (ld + 1))%Z by lia.
    unfold pow2. rewrite Qpower_minus by discriminate.
    fold (pow2 ln). fold (pow2 (ld + 1)).
    rewrite !pow2_inject by lia. rewrite E.
    apply Qle_shift_div_l; [exact Hdpos |].
    unfold Qdiv. rewrite <- Qmult_assoc, (Qmult_comm (/ _)), Qmult_assoc.
    apply Qle_shift_div_r.
    { rewrite <- pow2_inject by lia. apply pow2_pos. }
    rewrite <- !inject_Z_mult, <- Zle_Qle.
    change (Z.succ ld) with (ld + 1)%Z in Hd2. nia.
  - replace (ln - ld + 1)%Z with ((ln + 1) - ld)%Z by lia.
    unfold pow2. rewrite Qpower_minus by discriminate.
    fold (pow2 (ln + 1)). fold (pow2 ld).
    rewrite !pow2_inject by lia. rewrite E.
    apply Qlt_shift_div_r; [exact Hdpos |].
    unfold Qdiv. rewrite <- Qmult_assoc, (Qmult_comm (/ _)), Qmult_assoc.
    apply Qlt_shift_div_l.
    { rewrite <- pow2_inject by lia. apply pow2_pos. }
    rewrite <- !inject_Z_mult, <- Zlt_Qlt.
    change (Z.succ ln) with (ln + 1)%Z in Hn2. nia.
Qed.

Lemma ilog2_spec (q : Q) :
  0 < q -> pow2 (ilog2 q) <= q /\ q < pow2 (ilog2 q + 1).
Proof.
  intros Hq. destruct (ilog2_bounds q Hq) as [H1 H2]. unfold ilog2.
  set (e0 := (Z.log2 (Qnum q) - Z.log2 (Zpos (Qden q)))%Z) in *.
  cbv zeta. destruct (Qle_bool (pow2 e0) q) eqn:E.
  - apply Qle_bool_iff in E. auto.
  - split; [exact H1 |].
    replace (e0 - 1 + 1)%Z with e0 by lia.
    apply Qnot_le_lt. intros H. apply Qle_bool_iff in H. congruence.
Qed.

Lemma ilog2_unique (q : Q) (e : Z) :
  pow2 e <= q -> q < pow2 (e + 1) -> ilog2 q = e.
Proof.
  intros H1 H2.
  assert (Hq : 0 < q) by (eapply Qlt_le_trans; [apply (pow2_pos e) | exact H1]).
  destruct (ilog2_spec q Hq) as [H3 H4].
  assert (A : (ilog2 q < e + 1)%Z)
    by (apply pow2_lt_inv; eapply Qle_lt_trans; eassumption).
  assert (B : (e < ilog2 q + 1)%Z)
    by (apply pow2_lt_inv; eapply Qle_lt_trans; eassumption).
  lia.
Qed.

Lemma ilog2_le (a b : Q) : 0 < a -> a <= b -> (ilog2 a <= ilog2 b)%Z.
Proof.
  intros Ha Hab.
  assert (Hb : 0 < b) by (eapply Qlt_le_trans; eassumption).
  destruct (ilog2_spec a Ha) as [H1 _]. destruct (ilog2_spec b Hb) as [_ H2].
  assert (A : (ilog2 a < ilog2 b + 1)%Z).
  { apply pow2_lt_inv. eapply Qle_lt_trans; [exact H1 |].
    eapply Qle_lt_trans; eassumption. }
  lia.
Qed.

Lemma round_half_even_comp (x y : Q) :
  x == y -> round_half_even x = round_half_even y.
Proof.
  intros H. unfold round_half_even.
  rewrite (Qfloor_comp _ _ H).
  assert (E : x - inject_Z (Qfloor y) == y - inject_Z (Qfloor y))
    by (rewrite H; reflexivity).
  now rewrite (Qcompare_comp _ _ E _ _ (Qeq_refl (1 # 2))).
Qed.

Lemma round_half_even_Z (z : Z) : round_half_even (inject_Z z) = z.
Proof.
  unfold round_half_even. rewrite Qfloor_Z.
  assert (E : inject_Z z - inject_Z z == 0) by ring.
  now rewrite (Qcompare_comp _ _ E _ _ (Qeq_refl (1 # 2))).
Qed.

Lemma round_half_even_bounds (x : Q) :
  (Qfloor x <= round_half_even x <= Qfloor x + 1)%Z.
Proof.
  unfold round_half_even.
  destruct (Qcompare _ _); [destruct (Z.even _) | |]; lia.
Qed.

Lemma round_half_even_le (x y : Q) :
  x <= y -> (round_half_even x <= round_half_even y)%Z.
Proof.
  intros H. pose proof (Qfloor_resp_le x y H) as Hf.
  pose proof (round_half_even_bounds x) as Bx.
  pose proof (round_half_even_bounds y) as By.
  destruct (Z.eq_dec (Qfloor x) (Qfloor y)) as [E | NE]; [| lia].
  unfold round_half_even in *. rewrite <- E in *.
  set (f := Qfloor x) in *.
  assert (Hr : x - inject_Z f <= y - inject_Z f) by lra.
  destruct (Qcompare (x - inject_Z f) (1 # 2)) eqn:Cx;
    [apply Qeq_alt in Cx | apply Qlt_alt in Cx | apply Qgt_alt in Cx];
    (destruct (Qcompare (y - inject_Z f) (1 # 2)) eqn:Cy;
     [apply Qeq_alt in Cy | apply Qlt_alt in Cy | apply Qgt_alt in Cy]);
    try lia; try (destruct (Z.even f); lia); lra.
Qed.

Lemma round_to_le (k : Z) (x y : Q) : x <= y -> round_to k x <= round_to k y.
Proof.
  intros H. unfold round_to.
  apply Qmult_le_compat_r; [| apply Qlt_le_weak, pow2_pos].
  rewrite <- Zle_Qle. apply round_half_even_le.
  unfold Qdiv. apply Qmult_le_compat_r; [exact H |].
  apply Qlt_le_weak, Qinv_lt_0_compat, pow2_pos.
Qed.

Lemma round_to_grid (k : Z) (z : Z) (x : Q) :
  x == inject_Z z * pow2 k -> round_to k x == x.
Proof.
  intros H. unfold round_to.
  assert (E : x / pow2 k == inject_Z z).
  { rewrite H. field. apply pow2_nonzero. }
  rewrite (round_half_even_comp _ _ E), round_half_even_Z. now rewrite H.
Qed.

Lemma pow2_grid (k e : Z) :
  (k <= e)%Z -> pow2 e == inject_Z (2 ^ (e - k)) * pow2 k.
Proof.
  intros H. rewrite <- pow2_inject by lia. rewrite <- pow2_plus.
  now replace (e - k + k)%Z with e by lia.
Qed.

Lemma float8_nearest_le (a b : Q) :
  0 < a -> a <= b -> float8_nearest a <= float8_nearest b.
Proof.
  intros Ha Hab.
  assert (Hb : 0 < b) by (eapply Qlt_le_trans; eassumption).
  pose proof (ilog2_le a b Ha Hab) as He.
  unfold float8_nearest, float8_ulp.
  destruct (Z.eq_dec (Z.max (ilog2 a - 52) (-1074)) (Z.max (ilog2 b - 52) (-1074)))
    as [E | NE].
  - rewrite E. now apply round_to_le.
  - set (ka := Z.max (ilog2 a - 52) (-1074)) in *.
    set (kb := Z.max (ilog2 b - 52) (-1074)) in *.
    assert (Hlt : (ilog2 a < ilog2 b)%Z) by lia.
    destruct (ilog2_spec a Ha) as [_ Ha2]. destruct (ilog2_spec b Hb) as [Hb1 _].
    set (p := pow2 (ilog2 b)) in *.
    assert (Hap : a <= p).
    { apply Qlt_le_weak. eapply Qlt_le_trans; [exact Ha2 |].
      apply pow2_le. lia. }
    apply Qle_trans with (round_to ka p); [now apply round_to_le |].
    apply Qle_trans with (round_to kb p); [| now apply round_to_le].
    rewrite (round_to_grid ka (2 ^ (ilog2 b - ka)) p) by (apply pow2_grid; lia).
    rewrite (round_to_grid kb (2 ^ (ilog2 b - kb)) p) by (apply pow2_grid; lia).
    apply Qle_refl.
Qed.

Lemma Qfloor_nonneg (x : Q) : 0 <= x -> (0 <= Qfloor x)%Z.
Proof. intros H. apply (Qfloor_resp_le 0 x H). Qed.

Lemma round_to_nonneg (k : Z) (x : Q) : 0 <= x -> 0 <= round_to k x.
Proof.
  intros H. unfold round_to.
  apply Qmult_le_0_compat; [| apply Qlt_le_weak, pow2_pos].
  change 0 with (inject_Z 0). rewrite <- Zle_Qle.
  pose proof (round_half_even_bounds (x / pow2 k)) as B.
  assert (0 <= Qfloor (x / pow2 k))%Z; [| lia].
  apply Qfloor_nonneg. apply Qle_shift_div_l; [apply pow2_pos | lra].
Qed.

Lemma Qnum_sign (q : Q) :
  match Qnum q with
  | Z0 => q == 0
  | Zpos _ => 0 < q
  | Zneg _ => q < 0
  end.
Proof. destruct q as [[| p | p] d]; reflexivity. Qed.

(** Rounding to the nearest binary64 is monotone. *)
Lemma float8_round_le (a b : Q) : a <= b -> float8_round a <= float8_round b.
Proof.
  intros H. unfold float8_round.
  pose proof (Qnum_sign a) as Sa. pose proof (Qnum_sign b) as Sb.
  destruct (Qnum a); destruct (Qnum b); rewrite ?Qred_correct;
    try apply Qle_refl; try lra.
  - apply round_to_nonneg. lra.
  - apply float8_nearest_le; assumption.
  - assert (0 <= float8_nearest (- a)) by (apply round_to_nonneg; lra). lra.
  - assert (0 <= float8_nearest (- a)) by (apply round_to_nonneg; lra).
    assert (0 <= float8_nearest b) by (apply round_to_nonneg; lra). lra.
  - assert (float8_nearest (- b) <= float8_nearest (- a))
      by (apply float8_nearest_le; lra). lra.
Qed.

Lemma float8_nearest_fixed (x : Q) (m k : Z) :
  (0 < m <= 2 ^ 53)%Z -> (-1074 <= k)%Z ->
  x == inject_Z m * pow2 k -> float8_nearest x == x.
Proof.
  intros Hm Hk Hx.
  pose proof (Z.log2_spec m (proj1 Hm)) as [L1 L2].
  pose proof (Z.log2_nonneg m) as L0.
  assert (L3 : (Z.log2 m <= 53)%Z).
  { change 53%Z with (Z.log2 (2 ^ 53)). apply Z.log2_le_mono. lia. }
  set (lm := Z.log2 m) in *. change (Z.succ lm) with (lm + 1)%Z in L2.
  assert (He : ilog2 x = (lm + k)%Z).
  { apply ilog2_unique; rewrite Hx.
    - rewrite pow2_plus, (pow2_inject lm) by lia.
      apply Qmult_le_compat_r; [| apply Qlt_le_weak, pow2_pos].
      now rewrite <- Zle_Qle.
    - replace (lm + k + 1)%Z with ((lm + 1) + k)%Z by lia.
      rewrite pow2_plus, (pow2_inject (lm + 1)) by lia.
      apply Qmult_lt_compat_r; [apply pow2_pos |].
      now rewrite <- Zlt_Qlt. }
  unfold float8_nearest, float8_ulp. rewrite He.
  destruct (Z_le_gt_dec lm 52) as [Hle | Hgt].
  - set (k' := Z.max (lm + k - 52) (-1074)).
    assert (Hk' : (k' <= k)%Z) by lia.
    apply (round_to_grid k' (m * 2 ^ (k - k'))).
    rewrite Hx, inject_Z_mult, <- pow2_inject by lia.
    rewrite <- Qmult_assoc, <- pow2_plus.
    now replace (k - k' + k')%Z with k by lia.
  - assert (Elm : lm = 53%Z) by lia.
    assert (Em : m = (2 ^ 53)%Z) by (rewrite Elm in L1; lia).
    replace (Z.max (lm + k - 52) (-1074)) with (k + 1)%Z by lia.
    apply (round_to_grid (k + 1) (2 ^ 52)).
    rewrite Hx, Em, pow2_plus.
    change (pow2 1) with (inject_Z 2).
    rewrite (Qmult_comm (pow2 k)), Qmult_assoc, <- inject_Z_mult.
    reflexivity.
Qed.

Lemma float8_nearest_form (a : Q) :
  0 < a ->
  exists m, (0 <= m <= 2 ^ 53)%Z
            /\ float8_nearest a = inject_Z m * pow2 (float8_ulp a)
            /\ (-1074 <= float8_ulp a)%Z.
Proof.
  intros Ha. exists (round_half_even (a / pow2 (float8_ulp a))).
  split; [| split; [reflexivity | unfold float8_ulp; lia]].
  destruct (ilog2_spec a Ha) as [_ H2].
  set (k := float8_ulp a).
  assert (Hk : (ilog2 a + 1 <= 53 + k)%Z) by (unfold k, float8_ulp; lia).
  split.
  - pose proof (round_half_even_bounds (a / pow2 k)) as B.
    assert (0 <= Qfloor (a / pow2 k))%Z; [| lia].
    apply Qfloor_nonneg. apply Qle_shift_div_l; [apply pow2_pos | lra].
  - rewrite <- (round_half_even_Z (2 ^ 53)). apply round_half_even_le.
    apply Qle_shift_div_r; [apply pow2_pos |].
    rewrite <- pow2_inject by lia. rewrite <- pow2_plus.
    apply Qlt_le_weak. eapply Qlt_le_trans; [exact H2 |]. now apply pow2_le.
Qed.

(** A binary64 rounds to itself. *)
Lemma float8_round_idempotent (a : Q) :
  float8_round (float8_round a) = float8_round a.
Proof.
  unfold float8_round at 2 3.
  pose proof (Qnum_sign a) as Sa.
  destruct (Qnum a) as [| p | p]; [reflexivity | |].
  - destruct (float8_nearest_form a Sa) as (m & Hm & E & Hk).
    destruct (Z.eq_dec m 0) as [-> | Hm0].
    + assert (Z0 : float8_nearest a == 0) by (rewrite E; ring).
      now rewrite (Qred_complete _ _ Z0).
    + assert (Hpos : 0 < Qred (float8_nearest a)).
      { rewrite Qred_correct, E.
        apply Qmult_lt_0_compat; [| apply pow2_pos].
        change 0 with (inject_Z 0). rewrite <- Zlt_Qlt. lia. }
      unfold float8_round.
      pose proof (Qnum_sign (Qred (float8_nearest a))) as S.
      destruct (Qnum (Qred (float8_nearest a))); try (exfalso; lra).
      apply Qred_complete.
      rewrite (float8_nearest_fixed _ m (float8_ulp a));
        [apply Qred_correct | lia | lia |].
      now rewrite Qred_correct, E.
  - assert (Sa' : 0 < - a) by lra.
    destruct (float8_nearest_form (- a) Sa') as (m & Hm & E & Hk).
    destruct (Z.eq_dec m 0) as [-> | Hm0].
    + assert (Z0 : - float8_nearest (- a) == 0) by (rewrite E; ring).
      now rewrite (Qred_complete _ _ Z0).
    + assert (Hpos : 0 < float8_nearest (- a)).
      { rewrite E.
        apply Qmult_lt_0_compat; [| apply pow2_pos].
        change 0 with (inject_Z 0). rewrite <- Zlt_Qlt. lia. }
      assert (Hneg : Qred (- float8_nearest (- a)) < 0)
        by (rewrite Qred_correct; lra).
      unfold float8_round.
      pose proof (Qnum_sign (Qred (- float8_nearest (- a)))) as S.
      destruct (Qnum (Qred (- float8_nearest (- a)))); try (exfalso; lra).
      apply Qred_complete.
      rewrite (float8_nearest_fixed _ m (float8_ulp (- a))); [| lia | lia |].
      * rewrite Qred_correct. ring.
      * rewrite Qred_correct, <- E. ring.
Qed.

(** Values of the rounding: 0.1 and 0.7 are not binary64 numbers, 0.5 is;
    of [2^53 + 1], midway between two binary64 numbers, the even
    neighbour is taken; [2^-1074] is the least positive binary64 and half
    of it rounds to zero; and the largest binary64 plus half its last
    place overflows. *)
Example float8_round_values :
  float8_round (1 # 10) = 3602879701896397 # 36028797018963968
  /\ float8_round (7 # 10) = 3152519739159347 # 4503599627370496
  /\ float8_round (1 # 2) = 1 # 2
  /\ float8_round (inject_Z (2 ^ 53 + 1)) = inject_Z (2 ^ 53)
  /\ float8_round (inject_Z (2 ^ 53 + 3)) = inject_Z (2 ^ 53 + 4)
  /\ float8_round (- (1 # 10)) = - (3602879701896397 # 36028797018963968)
  /\ float8_round (pow2 (-1074)) == pow2 (-1074)
  /\ float8_round (pow2 (-1075)) = 0
  /\ float8_in_range (pow2 (-1074)) = true
  /\ float8_in_range (pow2 (-1075)) = false
  /\ float8_in_range 0 = true
  /\ float8_overflow (inject_Z ((2 ^ 53 - 1) * 2 ^ 971)) = false
  /\ float8_overflow (inject_Z ((2 ^ 53 - 1) * 2 ^ 971 + 2 ^ 970)) = true
  /\ float8_overflow (inject_Z ((2 ^ 53 - 1) * 2 ^ 971 + 2 ^ 970 - 1)) = false.
Proof. vm_compute. repeat split; reflexivity. Qed.

End Float8Facts.

(* ===================================================================== *)
(** ** Lemmas on strings and their order                                  *)
(* ===================================================================== *)

Lemma str_le_refl (a : string) : str_le a a.
Proof.
  unfold str_le, String.leb.
  destruct (String.compare a a) eqn:E; auto.
  pose proof (String.compare_antisym a a) as H. rewrite E in H. discriminate.
Qed.

Lemma str_le_cases (a b : string) :
  str_le a b <-> a = b \/ OrderedTypeEx.String_as_OT.lt a b.
Proof.
  unfold str_le, String.leb. split.
  - destruct (String.compare a b) eqn:E; intros H; try discriminate.
    + left. now apply OrderedTypeEx.String_as_OT.cmp_eq.
    + right. now apply OrderedTypeEx.String_as_OT.cmp_lt.
  - intros [-> | H].
    + apply str_le_refl.
    + apply OrderedTypeEx.String_as_OT.cmp_lt in H.
      unfold OrderedTypeEx.String_as_OT.cmp in H. now rewrite H.
Qed.

Lemma str_le_trans (a b c : string) : str_le a b -> str_le b c -> str_le a c.
Proof.
  rewrite !str_le_cases. intros [-> | H1] [-> | H2]; auto.
  right. eapply OrderedTypeEx.String_as_OT.lt_trans; eauto.
Qed.

Lemma str_le_total (a b : string) : String.leb a b = false -> str_le b a.
Proof.
  intros H. destruct (String.leb_total a b) as [E | E]; [congruence | exact E].
Qed.

Lemma str_le_antisym (a b : string) : str_le a b -> str_le b a -> a = b.
Proof. apply String.leb_antisym. Qed.

Lemma str_lt_iff (a b : string) : str_lt a b <-> str_le a b /\ a <> b.
Proof.
  unfold str_lt, str_le, String.ltb, String.leb. split.
  - destruct (String.compare a b) eqn:E; intros H; try discriminate.
    split; auto. intros ->.
    pose proof (String.compare_antisym b b) as H'. rewrite E in H'. discriminate.
  - intros [H N]. destruct (String.compare a b) eqn:E; auto.
    apply String.compare_eq_iff in E. contradiction.
Qed.

Lemma insert_str_perm (x : string) (l : list string) :
  Permutation (x :: l) (insert_str x l).
Proof.
  induction l as [| y l IH]; simpl; auto.
  destruct (String.leb x y); auto.
  eapply perm_trans; [apply perm_swap |]. now apply perm_skip.
Qed.

Lemma sort_str_perm (l : list string) : Permutation l (sort_str l).
Proof.
  induction l as [| x l IH]; simpl; auto.
  eapply perm_trans; [| apply insert_str_perm]. now apply perm_skip.
Qed.

Lemma insert_str_sorted (x : string) (l : list string) :
  StronglySorted str_le l -> StronglySorted str_le (insert_str x l).
Proof.
  induction 1 as [| y l Hs IH Hy]; simpl.
  - constructor; constructor.
  - destruct (String.leb x y) eqn:E.
    + constructor; [constructor; assumption |].
      constructor; [exact E |].
      eapply Forall_impl; [| exact Hy]. intros z Hz.
      eapply str_le_trans; eauto.
    + constructor; [assumption |].
      eapply Permutation_Forall; [apply insert_str_perm |].
      constructor; [now apply str_le_total | assumption].
Qed.

Lemma sort_str_sorted (l : list string) : StronglySorted str_le (sort_str l).
Proof.
  induction l as [| x l IH]; simpl; [constructor | now apply insert_str_sorted].
Qed.

Lemma insert_sorted_text (x : string) (l : list string) :
  insert_sorted (Text x) (map Text l) = map Text (insert_str x l).
Proof.
  induction l as [| y l IH]; simpl; auto.
  destruct (String.leb x y); simpl; [reflexivity | now rewrite IH].
Qed.

Lemma order_by_text (l : list string) :
  order_by (map Text l) = map Text (sort_str l).
Proof.
  unfold order_by, sort_str.
  induction l as [| x l IH]; simpl; auto.
  rewrite IH. apply insert_sorted_text.
Qed.

(* ===================================================================== *)
(** ** Acquiring a connection                                             *)
(* ===================================================================== *)

#[local] Arguments Qle_bool : simpl never.
#[local] Arguments Qminus : simpl never.

Ltac unfold_m :=
  unfold bind, get, ret, raise, lift, try_except, print, st_error, st_warning,
    st_info, emit, time_time, oauth_token, pool_connection,
    set_postgres_password, set_last_password_refresh, set_connection_pool,
    set_DEFAULT_SCHEMA, cur_execute, ConnectionPool_new, st_stop.

Lemma bind_get {A : Type} (f : State -> M A) (s : State) :
  (x <- get ;; f x) s = f s s.
Proof. reflexivity. Qed.

Lemma bind_return {A B : Type} (c : M A) (f : A -> M B) (s s' : State) (a : A) :
  c s = (Return a, s') -> (x <- c ;; f x) s = f a s'.
Proof. intros H. unfold bind. now rewrite H. Qed.

Lemma bind_raise {A B : Type} (c : M A) (f : A -> M B) (s s' : State) (e : exn) :
  c s = (Raise e, s') -> (x <- c ;; f x) s = (Raise e, s').
Proof. intros H. unfold bind. now rewrite H. Qed.

Section Connection.
Variable env : Env.
Hypothesis Hh : healthy env.

Lemma token_stale_run s :
  exists b s', token_stale env s = (Return b, s')
    /\ DEFAULT_SCHEMA s' = DEFAULT_SCHEMA s /\ log s' = log s
    /\ connection_pool s' = connection_pool s
    /\ postgres_password s' = postgres_password s.
Proof.
  unfold token_stale. unfold_m. simpl.
  destruct (postgres_password s) eqn:E; simpl; eauto 10.
Qed.

Lemma refresh_oauth_token_healthy s :
  exists s' evs,
    refresh_oauth_token env s = (Return tt, s')
    /\ DEFAULT_SCHEMA s' = DEFAULT_SCHEMA s
    /\ connection_pool s' = connection_pool s
    /\ log s' = log s ++ evs
    /\ forallb is_connection_event evs = true.
Proof.
  destruct Hh as [Htok _].
  unfold refresh_oauth_token.
  destruct (token_stale_run s) as (b & s1 & E & Hd & Hl & Hp & _).
  rewrite (bind_return _ _ _ _ _ E).
  destruct b.
  - unfold_m. simpl.
    destruct (Htok (token_requests s1)) as [tok ->]. simpl.
    eexists; eexists; repeat split; simpl; auto.
    rewrite Hl, <- app_assoc. reflexivity. reflexivity.
  - exists s1, []. unfold ret. rewrite app_nil_r. auto.
Qed.

Lemma get_connection_pool_healthy s :
  exists pool s' evs,
    get_connection_pool env s = (Return pool, s')
    /\ DEFAULT_SCHEMA s' = DEFAULT_SCHEMA s
    /\ log s' = log s ++ evs
    /\ forallb is_connection_event evs = true.
Proof.
  unfold get_connection_pool. rewrite bind_get.
  destruct (connection_pool s) eqn:Ep.
  - exists c, s, []. unfold ret. rewrite app_nil_r. auto.
  - destruct (refresh_oauth_token_healthy s) as (s1 & evs & E & Hd & _ & Hl & Hev).
    rewrite (bind_return _ _ _ _ _ E).
    unfold_m. simpl.
    eexists; eexists; eexists; repeat split; simpl; auto.
    rewrite Hl, <- app_assoc. reflexivity.
    rewrite forallb_app, Hev. reflexivity.
Qed.

Lemma get_connection_healthy s :
  exists conn s' evs,
    get_connection env s = (Return conn, s')
    /\ DEFAULT_SCHEMA s' = DEFAULT_SCHEMA s
    /\ log s' = log s ++ evs
    /\ forallb is_connection_event evs = true.
Proof.
  unfold get_connection.
  destruct (token_stale_run s) as (b & s1 & E & Hd1 & Hl1 & Hp1 & _).
  rewrite (bind_return _ _ _ _ _ E).
  assert (H2 : exists s2 evs2,
             (if b then
                s0 <- get ;;
                match connection_pool s0 with
                | Some pool => emit (Pool_close pool) ;; set_connection_pool None
                | None => ret tt
                end
              else ret tt) s1 = (Return tt, s2)
             /\ DEFAULT_SCHEMA s2 = DEFAULT_SCHEMA s
             /\ log s2 = log s ++ evs2
             /\ forallb is_connection_event evs2 = true).
  { destruct b.
    - unfold_m. simpl. destruct (connection_pool s1); simpl.
      + eexists; eexists; repeat split; simpl; auto. rewrite Hl1; reflexivity. reflexivity.
      + exists s1, []. rewrite app_nil_r. auto.
    - exists s1, []. unfold ret. rewrite app_nil_r. auto. }
  destruct H2 as (s2 & evs2 & E2 & Hd2 & Hl2 & Hev2).
  rewrite (bind_return _ _ _ _ _ E2).
  destruct (get_connection_pool_healthy s2) as (pool & s3 & evs3 & E3 & Hd3 & Hl3 & Hev3).
  rewrite (bind_return _ _ _ _ _ E3).
  unfold pool_connection. rewrite (proj2 Hh).
  eexists; eexists; eexists; repeat split; simpl; auto.
  - congruence.
  - rewrite Hl3, Hl2, <- !app_assoc. reflexivity.
  - rewrite !forallb_app, Hev2, Hev3. reflexivity.
Qed.

Lemma with_connection_healthy {A : Type} (body : Connection -> M A) s :
  exists conn s' evs,
    with_connection env body s = body conn s'
    /\ DEFAULT_SCHEMA s' = DEFAULT_SCHEMA s
    /\ log s' = log s ++ evs
    /\ forallb is_connection_event evs = true.
Proof.
  destruct (get_connection_healthy s) as (conn & s' & evs & E & H).
  exists conn, s', evs. split; [| exact H].
  unfold with_connection, bind. now rewrite E.
Qed.

End Connection.


(* ===================================================================== *)
(** ** The queries the code builds                                        *)
(* ===================================================================== *)

Lemma combine_snoc {A B : Type} (l : list A) (l' : list B) (a : A) (b : B) :
  List.length l = List.length l' ->
  combine (l ++ [a]) (l' ++ [b]) = combine l l' ++ [(a, b)].
Proof.
  revert l'. induction l as [| x l IH]; intros [| y l'] H; simpl in *;
    try discriminate; auto.
  f_equal. apply IH. lia.
Qed.

Lemma bind_params_cmp (cs : list condition) (ps rest : list sqlval) :
  List.length cs = List.length ps ->
  forallb is_cmp cs = true ->
  bind_params cs (ps ++ rest) = Some (combine cs ps, rest).
Proof.
  revert ps. induction cs as [| c cs IH]; intros [| p ps] Hl Hc; simpl in *;
    try discriminate; auto.
  destruct c; simpl in Hc; try discriminate.
  rewrite IH; auto.
Qed.

Lemma well_formed_nil : well_formed ([], []).
Proof. repeat split. Qed.

Lemma well_formed_append (cp : list condition * list sqlval)
  (c : string) (op : cmp_op) (p : sqlval) :
  well_formed cp -> well_typed (Cmp c op, p) = true ->
  well_formed (append_condition cp (Cmp c op) p).
Proof.
  intros (Hl & Hc & Ht) Hw. unfold well_formed, append_condition. simpl.
  repeat split.
  - rewrite !length_app. simpl. lia.
  - rewrite forallb_app, Hc. reflexivity.
  - rewrite combine_snoc by assumption.
    rewrite forallb_app, Ht. simpl. now rewrite Hw.
Qed.

Lemma well_formed_label_score (cp : list condition * list sqlval)
  (label label_detail : option string) (min_score max_score : option Q) :
  well_formed cp ->
  well_formed (label_score_conditions cp label label_detail min_score max_score).
Proof.
  intros H. unfold label_score_conditions, when_str, when_not_None.
  repeat match goal with
         | |- context [match ?o with Some _ => _ | None => _ end] =>
             destruct o
         | |- context [if String.eqb ?a ?b then _ else _] =>
             destruct (String.eqb a b)
         | |- well_formed (append_condition _ _ _) =>
             apply well_formed_append; [| reflexivity]
         end; assumption.
Qed.

Lemma well_formed_search (cp : list condition * list sqlval)
  (search_term : option string) :
  well_formed cp -> well_formed (search_condition cp search_term).
Proof.
  intros H. unfold search_condition, when_str.
  destruct search_term as [t |]; [| assumption].
  destruct (String.eqb t ""); [assumption |].
  apply well_formed_append; [assumption | reflexivity].
Qed.

Lemma search_condition_absent (cp : list condition * list sqlval)
  (search_term : option string) :
  str_truthy search_term = false -> search_condition cp search_term = cp.
Proof.
  unfold search_condition, when_str, str_truthy.
  destruct search_term as [t |]; [| reflexivity].
  destruct (String.eqb t ""); [reflexivity | discriminate].
Qed.

Lemma map_path_column (rows : list ImageRecord) :
  map (column_value PATH_COLUMN) rows = map Text (map path rows).
Proof. rewrite map_map. reflexivity. Qed.

Lemma eval_where_forallb (r : ImageRecord) (bound : list (condition * sqlval)) :
  (forall cp, In cp bound -> cast_fails r cp = false) ->
  eval_where r bound = Return (forallb (eval_condition r) bound).
Proof.
  induction bound as [| cp bound IH]; intros H; [reflexivity |].
  cbn [eval_where forallb]. rewrite (H cp (or_introl eq_refl)).
  destruct (eval_condition r cp); [| reflexivity].
  apply IH. intros cp' Hin. apply H. now right.
Qed.

(** Where no cast fails the scan is a filter. *)
Lemma scan_filter (bound : list (condition * sqlval)) (rows : list ImageRecord) :
  casts_succeed bound rows ->
  scan bound rows
  = Return (filter (fun r => forallb (eval_condition r) bound) rows).
Proof.
  induction rows as [| r rows IH]; intros H; [reflexivity |].
  cbn [scan filter].
  rewrite eval_where_forallb by (intros cp Hin; apply (H r cp); simpl; auto).
  rewrite IH by (intros r' cp Hr Hin; apply (H r' cp); simpl; auto).
  now destruct (forallb (eval_condition r) bound).
Qed.

Lemma column_value_number (c : string) (r : ImageRecord) (a : Q) :
  column_value c r = Numeric a -> score r = Some a.
Proof.
  unfold column_value.
  destruct (String.eqb c "path"); [discriminate |].
  destruct (String.eqb c "label"); [destruct (label r); discriminate |].
  destruct (String.eqb c "labelDetail");
    [destruct (labelDetail r); discriminate |].
  destruct (String.eqb c "score"); [| discriminate].
  destruct (score r); [intros [= ->]; reflexivity | discriminate].
Qed.

Lemma scores_In (rows : list ImageRecord) (q : Q) :
  In q (scores rows) <-> exists r, In r rows /\ score r = Some q.
Proof.
  induction rows as [| r rows IH]; simpl.
  - split; [tauto | intros (r & [] & _)].
  - destruct (score r) as [q' |] eqn:Es; simpl; rewrite IH; split.
    + intros [-> | (r' & H1 & H2)]; [exists r; auto | exists r'; tauto].
    + intros (r' & [-> | H1] & H2); [left; congruence | right; eauto].
    + intros (r' & H1 & H2); exists r'; tauto.
    + intros (r' & [-> | H1] & H2); [congruence | eauto].
Qed.

Lemma casts_succeed_scores (bound : list (condition * sqlval))
  (rows : list ImageRecord) :
  float8_scores rows -> casts_succeed bound rows.
Proof.
  intros H r cp Hr _. unfold cast_fails.
  destruct (fst cp) as [c op | c]; [| reflexivity].
  destruct (column_value c r) as [| | a | |] eqn:E; try reflexivity.
  destruct (snd cp); try reflexivity.
  apply negb_false_iff.
  unfold float8_scores in H. rewrite forallb_forall in H. apply H.
  apply scores_In. exists r. split; [exact Hr |].
  now apply (column_value_number c).
Qed.

Lemma casts_succeed_params (bound : list (condition * sqlval))
  (rows : list ImageRecord) :
  forallb not_number (map snd bound) = true -> casts_succeed bound rows.
Proof.
  intros H r cp _ Hcp. unfold cast_fails.
  rewrite forallb_forall in H.
  assert (Hp : not_number (snd cp) = true) by (apply H, in_map, Hcp).
  destruct (fst cp) as [c op | c]; [| reflexivity].
  destruct (column_value c r); try reflexivity.
  destruct (snd cp); try reflexivity. discriminate Hp.
Qed.

Lemma map_snd_combine {A B : Type} (l : list A) (l' : list B) :
  List.length l = List.length l' -> map snd (combine l l') = l'.
Proof.
  revert l'. induction l as [| a l IH]; intros [| b l'] H; simpl in *;
    try discriminate; auto.
  f_equal. apply IH. lia.
Qed.

Lemma params_not_number (search_term label label_detail : option string) :
  forallb not_number
    (snd (label_score_conditions (search_condition ([], []) search_term)
            label label_detail None None)) = true.
Proof.
  unfold label_score_conditions, search_condition, when_str, when_not_None.
  destruct search_term as [t |]; [destruct (String.eqb t "") |];
    (destruct label as [l |]; [destruct (String.eqb l "") |]);
    (destruct label_detail as [d |]; [destruct (String.eqb d "") |]);
    reflexivity.
Qed.

(** The conditions the code builds can be evaluated where the score
    bounds can. *)
Lemma casts_succeed_conditions (search_term label label_detail : option string)
  (min_score max_score : option Q) (rows : list ImageRecord) :
  bounds_castable min_score max_score rows ->
  casts_succeed
    (combine (fst (label_score_conditions (search_condition ([], []) search_term)
                     label label_detail min_score max_score))
             (snd (label_score_conditions (search_condition ([], []) search_term)
                     label label_detail min_score max_score)))
    rows.
Proof.
  intros [[-> ->] | H]; [| now apply casts_succeed_scores].
  apply casts_succeed_params.
  rewrite map_snd_combine; [apply params_not_number |].
  apply well_formed_label_score, well_formed_search, well_formed_nil.
Qed.

(** What the two path queries compute, for conditions built by the code. *)
Lemma execute_select_all (db : Database) (t : Table) (schema : string)
  (cp : list condition * list sqlval) :
  lookup_table db (schema, TABLE_NAME) = Some t ->
  well_formed cp ->
  casts_succeed (combine (fst cp) (snd cp)) (table_rows t) ->
  execute_select db
    {| sel_proj := Column false PATH_COLUMN;
       sel_from := (schema, TABLE_NAME);
       sel_where := fst cp;
       sel_order_by := true;
       sel_limit_offset := false |} (snd cp)
  = Return (map tuple1 (map Text (sort_str (map path
      (filter (fun r => forallb (eval_condition r) (combine (fst cp) (snd cp)))
              (table_rows t)))))).
Proof.
  intros Ht (Hl & Hc & Hw) Hcast. unfold execute_select. simpl. rewrite Ht.
  pose proof (bind_params_cmp (fst cp) (snd cp) [] Hl Hc) as Hb.
  rewrite app_nil_r in Hb. rewrite Hb, Hw. simpl.
  rewrite (scan_filter _ _ Hcast). cbn [result_map].
  rewrite map_path_column, order_by_text. reflexivity.
Qed.

Lemma is_bigint_iff (z : Z) :
  is_bigint z = true <-> (- 2 ^ 63 <= z < 2 ^ 63)%Z.
Proof. unfold is_bigint. rewrite andb_true_iff, Z.leb_le, Z.ltb_lt. tauto. Qed.

Lemma limit_offset_window (l o : Z) (vs : list sqlval) :
  (0 <= l < 2 ^ 63)%Z -> (0 <= o < 2 ^ 63)%Z ->
  limit_offset l o (Return vs)
  = Return (firstn (Z.to_nat l) (skipn (Z.to_nat o) vs)).
Proof.
  intros Hl Ho. unfold limit_offset.
  rewrite (proj2 (is_bigint_iff l)), (proj2 (is_bigint_iff o)) by lia.
  cbn [andb negb].
  destruct (Z.ltb_spec o 0); [lia |].
  destruct (Z.ltb_spec l 0); [lia |].
  destruct (Z.eqb_spec l 0) as [-> |]; reflexivity.
Qed.

Lemma execute_select_page (db : Database) (t : Table) (schema : string)
  (cp : list condition * list sqlval) (l o : Z) :
  lookup_table db (schema, TABLE_NAME) = Some t ->
  well_formed cp ->
  casts_succeed (combine (fst cp) (snd cp)) (table_rows t) ->
  (0 <= l < 2 ^ 63)%Z -> (0 <= o < 2 ^ 63)%Z ->
  execute_select db
    {| sel_proj := Column false PATH_COLUMN;
       sel_from := (schema, TABLE_NAME);
       sel_where := fst cp;
       sel_order_by := true;
       sel_limit_offset := true |} (snd cp ++ [Integer l; Integer o])
  = Return (map tuple1 (firstn (Z.to_nat l) (skipn (Z.to_nat o)
      (map Text (sort_str (map path
      (filter (fun r => forallb (eval_condition r) (combine (fst cp) (snd cp)))
              (table_rows t)))))))).
Proof.
  intros Ht (Hl & Hc & Hw) Hcast Hl0 Ho0. unfold execute_select. simpl.
  rewrite Ht.
  rewrite (bind_params_cmp (fst cp) (snd cp) _ Hl Hc), Hw. simpl.
  rewrite (scan_filter _ _ Hcast). cbn [result_map].
  rewrite limit_offset_window by assumption. cbn [result_map].
  rewrite map_path_column, order_by_text. reflexivity.
Qed.

Lemma for_each_getitem0 (vs : list sqlval) (s : State) :
  for_each (fun record => getitem record 0) (map tuple1 vs) s = (Return vs, s).
Proof.
  induction vs as [| v vs IH]; simpl; [reflexivity |].
  unfold bind at 1. unfold getitem at 1. simpl. unfold ret at 1.
  unfold bind at 1. rewrite IH. reflexivity.
Qed.

Lemma for_each_run {A B : Type} (P : State -> Prop) (f : A -> M B)
  (g : A -> B) :
  (forall a s, P s -> exists s', f a s = (Return (g a), s') /\ P s') ->
  forall l s, P s ->
    exists s', for_each f l s = (Return (map g l), s') /\ P s'.
Proof.
  intros H. induction l as [| a l IH]; intros s Hs; simpl.
  - exists s. auto.
  - destruct (H a s Hs) as (s1 & E1 & H1).
    destruct (IH s1 H1) as (s2 & E2 & H2).
    exists s2. split; [| assumption].
    rewrite (bind_return _ _ _ _ _ E1), (bind_return _ _ _ _ _ E2).
    reflexivity.
Qed.

Lemma concat_pages {A : Type} (L : nat) :
  (0 < L)%nat ->
  forall (n : nat) (l : list A),
    (List.length l <= n * L)%nat ->
    concat (map (fun k => firstn L (skipn (k * L) l)) (seq 0 n)) = l.
Proof.
  intros HL. induction n as [| n IH]; intros l Hlen.
  - simpl in *. destruct l; simpl in *; [reflexivity | lia].
  - simpl seq. rewrite <- seq_shift, map_cons, map_map. simpl concat.
    transitivity (firstn L l ++ skipn L l); [| apply firstn_skipn].
    f_equal.
    rewrite <- (IH (skipn L l)) by (rewrite length_skipn; simpl in Hlen; lia).
    f_equal. apply map_ext. intros k.
    rewrite skipn_skipn. simpl. do 2 f_equal. lia.
Qed.


(* ===================================================================== *)
(** ** Running the query operations                                       *)
(* ===================================================================== *)

Lemma schema_or_default_run (schema : option string) (s : State) :
  schema_or_default schema s = (Return (resolve schema s), s).
Proof. destruct schema; reflexivity. Qed.

Lemma cur_execute_run (env : Env) (q : query) (ps : list sqlval) (s : State) :
  exists s',
    cur_execute env q ps s = (execute (env_server env) q ps, s')
    /\ DEFAULT_SCHEMA s' = DEFAULT_SCHEMA s
    /\ log s' = log s ++ [Execute q ps].
Proof.
  unfold cur_execute, bind, emit, lift. simpl.
  eexists. split; [reflexivity | split; reflexivity].
Qed.

Lemma resolve_same (schema : option string) (s s' : State) :
  DEFAULT_SCHEMA s' = DEFAULT_SCHEMA s -> resolve schema s' = resolve schema s.
Proof. intros H. destruct schema; simpl; auto. Qed.

Section Queries.

Variable env : Env.
Hypothesis Hh : healthy env.
Variable sch : string.
Variable rows : list ImageRecord.
Hypothesis Htable : has_table (env_server env) sch TABLE_NAME rows.

Lemma get_all_image_paths_run (label label_detail : option string)
  (min_score max_score : option Q) (schema : option string) (s : State) :
  bounds_castable min_score max_score rows ->
  resolve schema s = sch ->
  exists s',
    get_all_image_paths env label label_detail min_score max_score schema s
    = (Return (map Text (sort_str (map path
         (filter (row_matches label label_detail min_score max_score) rows)))),
       s')
    /\ resolve schema s' = sch.
Proof.
  intros Hcast Hr. destruct Htable as (t & Ht & Hrows).
  unfold get_all_image_paths.
  rewrite (bind_return _ _ _ _ _ (schema_or_default_run schema s)).
  match goal with
  | |- context [with_connection env ?body s] =>
      destruct (with_connection_healthy env Hh body s)
        as (conn & s1 & evs & E & Hd & _)
  end.
  rewrite E. cbv beta zeta. rewrite Hr.
  match goal with
  | |- context [cur_execute env ?q ?ps] =>
      destruct (cur_execute_run env q ps s1) as (s2 & E2 & Hd2 & _)
  end.
  simpl execute in E2.
  rewrite (execute_select_all _ t) in E2;
    [| assumption | apply well_formed_label_score, well_formed_nil
     | rewrite Hrows;
       exact (casts_succeed_conditions None label label_detail
                min_score max_score rows Hcast)].
  rewrite (bind_return _ _ _ _ _ E2), for_each_getitem0, Hrows.
  exists s2. split; [reflexivity |].
  rewrite <- Hr. apply resolve_same. congruence.
Qed.

Lemma get_image_paths_run (limit offset : Z)
  (search_term label label_detail : option string)
  (min_score max_score : option Q) (schema : option string) (s : State) :
  str_truthy search_term = false ->
  bounds_castable min_score max_score rows ->
  (0 <= limit < 2 ^ 63)%Z -> (0 <= offset < 2 ^ 63)%Z ->
  resolve schema s = sch ->
  exists s',
    get_image_paths env limit offset search_term label label_detail
                    min_score max_score schema s
    = (Return (map tuple1 (firstn (Z.to_nat limit) (skipn (Z.to_nat offset)
         (map Text (sort_str (map path
            (filter (row_matches label label_detail min_score max_score)
                    rows))))))),
       s')
    /\ resolve schema s' = sch.
Proof.
  intros Hs Hcast Hl Ho Hr. destruct Htable as (t & Ht & Hrows).
  unfold get_image_paths.
  rewrite (bind_return _ _ _ _ _ (schema_or_default_run schema s)).
  rewrite (search_condition_absent _ _ Hs).
  match goal with
  | |- context [with_connection env ?body s] =>
      destruct (with_connection_healthy env Hh body s)
        as (conn & s1 & evs & E & Hd & _)
  end.
  rewrite E. cbv beta zeta. rewrite Hr.
  match goal with
  | |- context [cur_execute env ?q ?ps] =>
      destruct (cur_execute_run env q ps s1) as (s2 & E2 & Hd2 & _)
  end.
  simpl execute in E2.
  rewrite (execute_select_page _ t) in E2;
    [| assumption | apply well_formed_label_score, well_formed_nil
     | rewrite Hrows;
       exact (casts_succeed_conditions None label label_detail
                min_score max_score rows Hcast)
     | assumption | assumption].
  rewrite (bind_return _ _ _ _ _ E2), Hrows.
  exists s2. split; [reflexivity |].
  rewrite <- Hr. apply resolve_same. congruence.
Qed.

End Queries.


(* ===================================================================== *)
(** ** C1: pagination against the unbounded listing                       *)
(* ===================================================================== *)

Lemma ex_env_healthy : healthy ex_env.
Proof. split; intros n; [exists "token" |]; reflexivity. Qed.

Lemma ex_has_table : has_table (env_server ex_env) "alt" TABLE_NAME ex_rows.
Proof. eexists. split; reflexivity. Qed.

Lemma page_offset (L : Z) (k : nat) :
  (0 < L)%Z -> Z.to_nat (Z.of_nat k * L) = (k * Z.to_nat L)%nat.
Proof. intros HL. rewrite Z2Nat.inj_mul, Nat2Z.id by lia. reflexivity. Qed.

Lemma for_each_run_In {A B : Type} (P : State -> Prop) (f : A -> M B)
  (g : A -> B) (l : list A) :
  (forall a s, In a l -> P s -> exists s', f a s = (Return (g a), s') /\ P s') ->
  forall s, P s ->
    exists s', for_each f l s = (Return (map g l), s') /\ P s'.
Proof.
  induction l as [| a l IH]; intros H s Hs; simpl.
  - exists s. auto.
  - destruct (H a s (or_introl eq_refl) Hs) as (s1 & E1 & H1).
    destruct (IH (fun a' s' Hin => H a' s' (or_intror Hin)) s1 H1)
      as (s2 & E2 & H2).
    exists s2. split; [| assumption].
    rewrite (bind_return _ _ _ _ _ E1), (bind_return _ _ _ _ _ E2).
    reflexivity.
Qed.

(** C1, as the code has it: for a filter set without a search term ([None]
    or the empty string), in a world where connections succeed, the table
    exists and, if a score bound is given, every score can be cast to
    [float8], [get_all_image_paths] returns the matching paths in
    code-point order, and the pages of [get_image_paths] at offsets
    0, L, 2L, ... (all below [2^63]) put end to end are exactly that list,
    each path wrapped in a 1-tuple. *)
Theorem pagination_consistency (env : Env) (sch : string)
  (rows : list ImageRecord) (f : FilterCriteria) (schema : option string)
  (s : State) :
  healthy env ->
  has_table (env_server env) sch TABLE_NAME rows ->
  resolve schema s = sch ->
  str_truthy (f_search_term f) = false ->
  bounds_castable (f_min_score f) (f_max_score f) rows ->
  pagination_consistent env f schema s
  /\ exists paths,
       fst (list_all_paths env f schema s) = Return (map Text paths)
       /\ StronglySorted str_le paths
       /\ Permutation paths
            (map path (filter (row_matches (f_label f) (f_label_detail f)
                                           (f_min_score f) (f_max_score f))
                              rows)).
Proof.
  intros Hh Ht Hr Hs Hcast.
  destruct (get_all_image_paths_run env Hh sch rows Ht (f_label f)
              (f_label_detail f) (f_min_score f) (f_max_score f) schema s
              Hcast Hr)
    as (s1 & E1 & Hr1).
  split.
  - exists (map Text (sort_str (map path
       (filter (row_matches (f_label f) (f_label_detail f)
                            (f_min_score f) (f_max_score f)) rows)))), s1.
    split; [exact E1 |].
    intros L n [HL HL'] Hbig Hn.
    unfold run_pages.
    destruct (for_each_run_In (fun s => resolve schema s = sch)
                (fun k => list_paths env f L (Z.of_nat k * L) schema)
                (fun k => map tuple1 (firstn (Z.to_nat L)
                   (skipn (Z.to_nat (Z.of_nat k * L))
                   (map Text (sort_str (map path
                      (filter (row_matches (f_label f) (f_label_detail f)
                                 (f_min_score f) (f_max_score f)) rows)))))))
                (seq 0 n)) with (s := s1) as (s2 & E2 & _).
    + intros k s0 Hk H0. unfold list_paths.
      apply in_seq in Hk.
      assert (Hoff : (0 <= Z.of_nat k * L < 2 ^ 63)%Z).
      { split; [nia |].
        apply Z.le_lt_trans with (Z.of_nat (Nat.pred n) * L)%Z; [| exact Hbig].
        apply Z.mul_le_mono_nonneg_r; lia. }
      apply (get_image_paths_run env Hh sch rows Ht); auto; lia.
    + exact Hr1.
    + eexists; exists s2. split; [exact E2 |].
      rewrite <- (map_map _ (map tuple1)), <- concat_map. f_equal.
      rewrite (map_ext _ _
                 (fun k => f_equal (fun o => firstn (Z.to_nat L) (skipn o _))
                                   (page_offset L k HL))).
      apply concat_pages; [lia | exact Hn].
  - eexists. unfold list_all_paths. rewrite E1. split; [reflexivity |].
    split; [apply sort_str_sorted |].
    apply Permutation_sym, sort_str_perm.
Qed.

Lemma pagination_consistency_witness :
  let f := {| f_search_term := Some ""; f_label := Some "cat";
              f_label_detail := None; f_min_score := Some 0;
              f_max_score := None |} in
  pagination_consistent ex_env f (Some "alt") initial_state
  /\ exists paths,
       fst (list_all_paths ex_env f (Some "alt") initial_state)
       = Return (map Text paths)
       /\ StronglySorted str_le paths
       /\ Permutation paths
            (map path (filter (row_matches (f_label f) (f_label_detail f)
                                           (f_min_score f) (f_max_score f))
                              ex_rows)).
Proof.
  intros f.
  apply (pagination_consistency ex_env "alt" ex_rows f (Some "alt")
           initial_state ex_env_healthy ex_has_table).
  - reflexivity.
  - reflexivity.
  - right. vm_compute. reflexivity.
Defined.

(** C1 as stated fails on a filter set with a search term: the paginated
    operation applies it, the unbounded one has no such parameter. *)
Lemma pagination_consistency_counterexample :
  ~ pagination_consistent ex_env
      {| f_search_term := Some "a.png"; f_label := None;
         f_label_detail := None; f_min_score := None; f_max_score := None |}
      (Some "alt") initial_state.
Proof.
  intros (all & s1 & E & H).
  vm_compute in E. inversion E; subst all s1; clear E.
  destruct (H 10%Z 1%nat) as (pages & s2 & E2 & Hc);
    [lia | simpl; lia | simpl; lia |].
  vm_compute in E2. inversion E2; subst pages s2; clear E2.
  vm_compute in Hc. discriminate Hc.
Qed.


(* ===================================================================== *)
(** ** C7: distinct label-details                                         *)
(* ===================================================================== *)

Lemma filter_map_text (p : sqlval -> bool) (l : list string) :
  filter p (map Text l) = map Text (filter (fun x => p (Text x)) l).
Proof.
  induction l as [| x l IH]; simpl; auto.
  destruct (p (Text x)); simpl; now rewrite IH.
Qed.

Lemma distinct_text (l : list string) :
  distinct (map Text l) = map Text (distinct_str l).
Proof.
  induction l as [| x l IH]; simpl; auto.
  rewrite IH, filter_map_text. reflexivity.
Qed.

Lemma distinct_str_In (l : list string) (d : string) :
  In d (distinct_str l) <-> In d l.
Proof.
  induction l as [| x l IH]; simpl; [tauto |].
  rewrite filter_In, IH. split.
  - intros [H | [H _]]; auto.
  - intros [H | H]; auto.
    destruct (String.eqb_spec x d); auto.
Qed.

Lemma distinct_str_NoDup (l : list string) : NoDup (distinct_str l).
Proof.
  induction l as [| x l IH]; simpl; constructor.
  - rewrite filter_In, String.eqb_refl. intros [_ H]. discriminate.
  - now apply NoDup_filter.
Qed.

Lemma sorted_strict (l : list string) :
  StronglySorted str_le l -> NoDup l -> StronglySorted str_lt l.
Proof.
  induction 1 as [| x l Hs IH Hx]; intros Hn; constructor;
    inversion Hn as [| ? ? Hnot Hn']; subst.
  - auto.
  - rewrite Forall_forall in *. intros y Hy.
    apply str_lt_iff. split; [auto |]. intros ->. contradiction.
Qed.

Lemma label_details_In (keep : ImageRecord -> bool) (rows : list ImageRecord)
  (d : string) :
  In d (label_details keep rows) <->
  exists r, In r rows /\ keep r = true /\ labelDetail r = Some d.
Proof.
  induction rows as [| r rows IH]; simpl.
  - split; [tauto | intros (r & [] & _)].
  - destruct (labelDetail r) as [d' |] eqn:Ed; [destruct (keep r) eqn:Ek |];
      simpl; rewrite ?IH; split.
    + intros [-> | (r' & H1 & H2)]; [exists r; auto | exists r'; tauto].
    + intros (r' & [-> | H1] & H2 & H3); [left; congruence | right; eauto].
    + intros (r' & H1 & H2); exists r'; tauto.
    + intros (r' & [-> | H1] & H2 & H3); [congruence | eauto].
    + intros (r' & H1 & H2); exists r'; tauto.
    + intros (r' & [-> | H1] & H2 & H3); [congruence | eauto].
Qed.

Lemma has_label_iff (X : string) (r : ImageRecord) :
  has_label X r = true <-> label r = Some X.
Proof.
  unfold has_label. destruct (label r) as [l |]; simpl.
  - rewrite String.eqb_eq. split; congruence.
  - split; discriminate.
Qed.

Lemma details_rows (p keep : ImageRecord -> bool) (rows : list ImageRecord) :
  (forall r, p r = match labelDetail r with
                   | Some _ => keep r
                   | None => false
                   end) ->
  map (column_value "labelDetail") (filter p rows)
  = map Text (label_details keep rows).
Proof.
  intros Hp. induction rows as [| r rows IH]; [reflexivity |].
  cbn [filter label_details]. rewrite Hp.
  destruct (labelDetail r) as [d |] eqn:E; [| exact IH].
  destruct (keep r); [| exact IH].
  cbn [map]. rewrite IH. f_equal.
  unfold column_value. simpl. now rewrite E.
Qed.

Lemma execute_details_all (db : Database) (t : Table) (schema : string) :
  lookup_table db (schema, TABLE_NAME) = Some t ->
  execute_select db
    {| sel_proj := Column true "labelDetail";
       sel_from := (schema, TABLE_NAME);
       sel_where := [IsNotNull "labelDetail"];
       sel_order_by := true;
       sel_limit_offset := false |} []
  = Return (map tuple1 (map Text (sort_str (distinct_str
      (label_details (fun _ => true) (table_rows t)))))).
Proof.
  intros Ht. unfold execute_select.
  cbn [sel_from sel_where sel_proj sel_order_by sel_limit_offset bind_params].
  rewrite Ht. cbn [forallb well_typed fst snd column_type negb andb].
  simpl column_type. cbv iota. simpl negb. cbv iota.
  rewrite scan_filter by (now apply casts_succeed_params). cbn [result_map].
  rewrite (details_rows _ (fun _ => true)), distinct_text, order_by_text;
    [reflexivity |].
  intros r. unfold eval_condition, column_value. simpl.
  destruct (labelDetail r); reflexivity.
Qed.

Lemma execute_details_label (db : Database) (t : Table) (schema X : string) :
  lookup_table db (schema, TABLE_NAME) = Some t ->
  execute_select db
    {| sel_proj := Column true "labelDetail";
       sel_from := (schema, TABLE_NAME);
       sel_where := [IsNotNull "labelDetail"; Cmp "label" EQ];
       sel_order_by := true;
       sel_limit_offset := false |} [Text X]
  = Return (map tuple1 (map Text (sort_str (distinct_str
      (label_details (has_label X) (table_rows t)))))).
Proof.
  intros Ht. unfold execute_select.
  cbn [sel_from sel_where sel_proj sel_order_by sel_limit_offset bind_params].
  rewrite Ht. cbn [forallb well_typed fst snd column_type negb andb].
  simpl column_type. cbv iota. simpl negb. cbv iota.
  rewrite scan_filter by (now apply casts_succeed_params). cbn [result_map].
  rewrite (details_rows _ (has_label X)), distinct_text, order_by_text;
    [reflexivity |].
  intros r. unfold eval_condition, column_value, has_label. simpl.
  destruct (labelDetail r); simpl; [| reflexivity].
  now rewrite andb_true_r.
Qed.

Section LabelDetails.

Variable env : Env.
Hypothesis Hh : healthy env.
Variable sch : string.
Variable rows : list ImageRecord.
Hypothesis Htable : has_table (env_server env) sch TABLE_NAME rows.

Lemma get_distinct_label_details_run (lab : option string)
  (schema : option string) (s : State) :
  resolve schema s = sch ->
  exists s',
    get_distinct_label_details env lab schema s
    = (Return (map Text (sort_str (distinct_str
         (label_details (when_str lab (fun _ => true) has_label) rows)))),
       s').
Proof.
  intros Hr. destruct Htable as (t & Ht & Hrows).
  unfold get_distinct_label_details.
  rewrite (bind_return _ _ _ _ _ (schema_or_default_run schema s)).
  match goal with
  | |- context [with_connection env ?body s] =>
      destruct (with_connection_healthy env Hh body s)
        as (conn & s1 & evs & E & Hd & _)
  end.
  rewrite E. cbv beta zeta. rewrite Hr.
  unfold when_str.
  destruct lab as [l |]; [destruct (String.eqb l "") |];
    match goal with
    | |- context [cur_execute env ?q ?ps] =>
        destruct (cur_execute_run env q ps s1) as (s2 & E2 & Hd2 & _)
    end;
    simpl execute in E2;
    first [rewrite (execute_details_all _ t) in E2 by assumption
          | rewrite (execute_details_label _ t) in E2 by assumption];
    rewrite (bind_return _ _ _ _ _ E2), for_each_getitem0, Hrows;
    exists s2; reflexivity.
Qed.

(** C7, as the code has it: for every label [X] other than the empty
    string, the label-details returned for [X] are among those returned
    without a label and are exactly those that occur in a row whose label
    is [X]; both results hold no NULL and are in strict code-point order
    (so without repetition). *)
Theorem label_detail_subset (X : string) (schema : option string) (s : State) :
  resolve schema s = sch ->
  X <> "" ->
  label_detail_dependency env rows X schema s.
Proof.
  intros Hr HX.
  destruct (get_distinct_label_details_run (Some X) schema s Hr) as (sX & EX).
  destruct (get_distinct_label_details_run None schema s Hr) as (sA & EA).
  unfold when_str in EX, EA.
  destruct (String.eqb_spec X ""); [contradiction |].
  assert (HinX : forall d,
             In d (sort_str (distinct_str (label_details (has_label X) rows)))
             <-> exists r, In r rows /\ label r = Some X
                           /\ labelDetail r = Some d).
  { intros d. split.
    - intros H. apply (Permutation_in _ (Permutation_sym (sort_str_perm _))) in H.
      apply distinct_str_In, label_details_In in H.
      destruct H as (r & H1 & H2 & H3). exists r.
      apply has_label_iff in H2. auto.
    - intros (r & H1 & H2 & H3).
      apply (Permutation_in _ (sort_str_perm _)).
      apply distinct_str_In, label_details_In. exists r.
      apply has_label_iff in H2. auto. }
  assert (HinA : forall d,
             In d (sort_str (distinct_str (label_details (fun _ => true) rows)))
             <-> exists r, In r rows /\ labelDetail r = Some d).
  { intros d. split.
    - intros H. apply (Permutation_in _ (Permutation_sym (sort_str_perm _))) in H.
      apply distinct_str_In, label_details_In in H.
      destruct H as (r & H1 & H2 & H3). exists r. auto.
    - intros (r & H1 & H3).
      apply (Permutation_in _ (sort_str_perm _)).
      apply distinct_str_In, label_details_In. exists r. auto. }
  do 4 eexists. split; [exact EX |]. split; [exact EA |].
  split; [| split; [exact HinX | split; [exact HinA | split]]].
  - intros d H. apply HinA. apply HinX in H.
    destruct H as (r & H1 & _ & H3). eauto.
  - apply sorted_strict; [apply sort_str_sorted |].
    eapply Permutation_NoDup; [apply sort_str_perm | apply distinct_str_NoDup].
  - apply sorted_strict; [apply sort_str_sorted |].
    eapply Permutation_NoDup; [apply sort_str_perm | apply distinct_str_NoDup].
Qed.

End LabelDetails.

Lemma label_detail_subset_witness :
  label_detail_dependency ex_env ex_rows "cat" None
    (snd (set_DEFAULT_SCHEMA "alt" initial_state)).
Proof.
  apply (label_detail_subset ex_env ex_env_healthy "alt" ex_rows ex_has_table).
  - reflexivity.
  - discriminate.
Defined.

(** C7 as stated fails for the empty label: the call then runs the query
    without the label condition. *)
Lemma label_detail_subset_counterexample :
  ~ label_detail_dependency ex_env ex_rows "" (Some "alt") initial_state.
Proof.
  intros (dX & dAll & sX & sAll & EX & _ & _ & Hin & _).
  vm_compute in EX.
  destruct dX as [| d dX]; [discriminate |].
  destruct (proj1 (Hin d) (or_introl eq_refl)) as (r & Hr & Hl & _).
  simpl in Hr. destruct Hr as [<- | [<- | [<- | []]]]; discriminate.
Qed.


(* ===================================================================== *)
(** ** C4: the score range                                                *)
(* ===================================================================== *)

Lemma score_rows (rows : list ImageRecord) :
  map (column_value "score")
      (filter (fun r => forallb (eval_condition r) [(IsNotNull "score", Null)])
              rows)
  = map Numeric (scores rows).
Proof.
  induction rows as [| r rows IH]; [reflexivity |].
  cbn [filter scores].
  replace (forallb (eval_condition r) [(IsNotNull "score", Null)])
    with (match score r with Some _ => true | None => false end)
    by (unfold eval_condition, column_value; simpl;
        destruct (score r); reflexivity).
  destruct (score r) as [q |] eqn:E; [| exact IH].
  cbn [map]. rewrite IH. f_equal.
  unfold column_value. simpl. now rewrite E.
Qed.

Lemma sql_min_from (l : list Q) (a : Q) :
  exists m,
    fold_left (fun acc v =>
                 match v, acc with
                 | Null, _ => acc
                 | _, Null => v
                 | _, _ => if sqlval_leb v acc then v else acc
                 end) (map Numeric l) (Numeric a) = Numeric m
    /\ In m (a :: l)
    /\ forall q, In q (a :: l) -> (m <= q)%Q.
Proof.
  match goal with |- context [fold_left ?g _ _] => set (f := g) end.
  revert a. induction l as [| v l IH]; intros a.
  - exists a. simpl. split; [reflexivity |]. split; [auto |].
    intros q [<- | []]. apply Qle_refl.
  - cbn [map fold_left].
    change (f (Numeric a) (Numeric v))
      with (if Qle_bool v a then Numeric v else Numeric a).
    destruct (Qle_bool v a) eqn:E.
    + destruct (IH v) as (m & Hm & Hin & Hle). exists m.
      split; [exact Hm |]. split; [simpl in *; tauto |].
      intros q [<- | Hq]; [| apply Hle; exact Hq].
      apply Qle_trans with v; [apply Hle; left; reflexivity |].
      now apply Qle_bool_iff.
    + destruct (IH a) as (m & Hm & Hin & Hle). exists m.
      split; [exact Hm |]. split; [simpl in *; tauto |].
      intros q [<- | [<- | Hq]].
      * apply Hle. left. reflexivity.
      * apply Qle_trans with a; [apply Hle; left; reflexivity |].
        destruct (Qlt_le_dec a v) as [H | H]; [now apply Qlt_le_weak |].
        apply Qle_bool_iff in H. congruence.
      * apply Hle. right. exact Hq.
Qed.

Lemma sql_max_from (l : list Q) (a : Q) :
  exists m,
    fold_left (fun acc v =>
                 match v, acc with
                 | Null, _ => acc
                 | _, Null => v
                 | _, _ => if sqlval_leb acc v then v else acc
                 end) (map Numeric l) (Numeric a) = Numeric m
    /\ In m (a :: l)
    /\ forall q, In q (a :: l) -> (q <= m)%Q.
Proof.
  match goal with |- context [fold_left ?g _ _] => set (f := g) end.
  revert a. induction l as [| v l IH]; intros a.
  - exists a. simpl. split; [reflexivity |]. split; [auto |].
    intros q [<- | []]. apply Qle_refl.
  - cbn [map fold_left].
    change (f (Numeric a) (Numeric v))
      with (if Qle_bool a v then Numeric v else Numeric a).
    destruct (Qle_bool a v) eqn:E.
    + destruct (IH v) as (m & Hm & Hin & Hle). exists m.
      split; [exact Hm |]. split; [simpl in *; tauto |].
      intros q [<- | Hq]; [| apply Hle; exact Hq].
      apply Qle_trans with v; [| apply Hle; left; reflexivity].
      now apply Qle_bool_iff.
    + destruct (IH a) as (m & Hm & Hin & Hle). exists m.
      split; [exact Hm |]. split; [simpl in *; tauto |].
      intros q [<- | [<- | Hq]].
      * apply Hle. left. reflexivity.
      * apply Qle_trans with a; [| apply Hle; left; reflexivity].
        destruct (Qlt_le_dec v a) as [H | H]; [now apply Qlt_le_weak |].
        apply Qle_bool_iff in H. congruence.
      * apply Hle. right. exact Hq.
Qed.

Lemma execute_min_max (db : Database) (t : Table) (schema : string) :
  lookup_table db (schema, TABLE_NAME) = Some t ->
  execute_select db
    {| sel_proj := MinMax "score";
       sel_from := (schema, TABLE_NAME);
       sel_where := [IsNotNull "score"];
       sel_order_by := false;
       sel_limit_offset := false |} []
  = Return [[sql_min (map Numeric (scores (table_rows t)));
             sql_max (map Numeric (scores (table_rows t)))]].
Proof.
  intros Ht. unfold execute_select.
  cbn [sel_from sel_where sel_proj sel_order_by sel_limit_offset bind_params].
  rewrite Ht. cbn [forallb well_typed fst snd column_type negb andb].
  simpl column_type. cbv iota. simpl negb. cbv iota.
  rewrite scan_filter by (now apply casts_succeed_params). cbn [result_map].
  rewrite score_rows. reflexivity.
Qed.

Lemma float_of_Decimal_finite (q : Q) :
  float8_overflow q = false -> float_of_Decimal q = Finite (float8_round q).
Proof. intros H. unfold float_of_Decimal. now rewrite H. Qed.


Lemma ex_decimal_healthy : healthy ex_env_decimal.
Proof. split; intros n; [exists "token" |]; reflexivity. Qed.

Lemma ex_decimal_has_table :
  has_table (env_server ex_env_decimal) "alt" TABLE_NAME ex_rows_decimal.
Proof. eexists. split; reflexivity. Qed.


(** On the table of decimals [float()] rounds: 0.1 comes back as the
    binary64 number next to it, which is above it, and 0.5 and -0.25 of
    the other table come back as they are. *)
Example score_range_of_decimals :
  fst (get_score_range ex_env_decimal (Some "alt") initial_state)
  = Return (Finite (3602879701896397 # 36028797018963968),
            Finite (3152519739159347 # 4503599627370496))
  /\ (1 # 10 < 3602879701896397 # 36028797018963968)%Q
  /\ fst (get_score_range ex_env (Some "alt") initial_state)
     = Return (Finite (- (1 # 4)), Finite (1 # 2)).
Proof. vm_compute. repeat split; reflexivity. Qed.


(* ===================================================================== *)
(** ** A connection that fails, a table that is not there                 *)
(* ===================================================================== *)

Lemma with_connection_raise {A : Type} (env : Env) (body : Connection -> M A)
  (s s' : State) (e : exn) :
  get_connection env s = (Raise e, s') ->
  with_connection env body s = (Raise e, s').
Proof. intros H. unfold with_connection. now apply bind_raise. Qed.

Lemma with_connection_return {A : Type} (env : Env) (body : Connection -> M A)
  (s s' : State) (conn : Connection) :
  get_connection env s = (Return conn, s') ->
  with_connection env body s = body conn s'.
Proof. intros H. unfold with_connection. now apply bind_return. Qed.


(* ===================================================================== *)
(** ** C6: the credential refresh boundary                                *)
(* ===================================================================== *)

Lemma not_stale (t T : Q) :
  (t <= T + 900)%Q -> Qle_bool (t - T) TOKEN_REFRESH_INTERVAL = true.
Proof.
  intros H. apply Qle_bool_iff. unfold TOKEN_REFRESH_INTERVAL. lra.
Qed.

Lemma stale (t T : Q) :
  (T + 900 < t)%Q -> Qle_bool (t - T) TOKEN_REFRESH_INTERVAL = false.
Proof.
  intros H. destruct (Qle_bool (t - T) TOKEN_REFRESH_INTERVAL) eqn:E; auto.
  apply Qle_bool_iff in E. unfold TOKEN_REFRESH_INTERVAL in E. lra.
Qed.

(** C6: let the token have been fetched at time [T] and the pool built
    with it.  An acquisition whose clock reading is at most [T + 900]
    keeps the token, its time stamp and the pool, and its only event is
    the check-out.  An acquisition whose clock reading is beyond
    [T + 900] (the clock not going backwards, the identity provider
    answering) closes the pool, requests one token and builds one pool
    with it, in that order. *)
Theorem credential_refresh_boundary (env : Env) (s : State) (token : string)
  (T : Q) (pool : ConnectionPool) :
  postgres_password s = Some token ->
  last_password_refresh s = T ->
  connection_pool s = Some pool ->
  ((env_time env (clock_reads s) <= T + 900)%Q ->
   exists r s',
     get_connection env s = (r, s')
     /\ postgres_password s' = Some token
     /\ last_password_refresh s' = T
     /\ connection_pool s' = Some pool
     /\ log s' = log s ++ [Pool_checkout pool])
  /\ ((T + 900 < env_time env (clock_reads s))%Q ->
      monotone_clock env ->
      forall token',
        env_oauth_token env (token_requests s) = Return token' ->
        exists r s' pool' evs,
          get_connection env s = (r, s')
          /\ postgres_password s' = Some token'
          /\ last_password_refresh s' = env_time env (S (S (clock_reads s)))
          /\ connection_pool s' = Some pool'
          /\ conninfo pool' = conn_string env (Some token')
          /\ log s' = log s ++ evs
          /\ evs = [Pool_close pool;
                    Print "Refreshing PostgreSQL OAuth token";
                    Oauth_token_request;
                    Pool_create pool';
                    Pool_checkout pool']
          /\ count_events is_token_request evs = 1%nat
          /\ count_events is_pool_close evs = 1%nat
          /\ count_events is_pool_create evs = 1%nat).
Proof.
  intros Hp Hl Hc.
  destruct s as [pw last cp ds cr tr co lg]. simpl in *. subst pw last cp.
  split.
  - intros Ht.
    unfold get_connection, token_stale, get_connection_pool. unfold_m. simpl.
    rewrite (not_stale _ _ Ht). simpl.
    eexists; eexists. split; [reflexivity |]. simpl. auto.
  - intros Ht Hmono token' Htok.
    assert (Ht2 : (T + 900 < env_time env (S cr))%Q).
    { eapply Qlt_le_trans; [exact Ht | apply Hmono]. }
    unfold get_connection, token_stale, get_connection_pool,
      refresh_oauth_token, token_stale. unfold_m. simpl.
    rewrite (stale _ _ Ht). simpl.
    rewrite (stale _ _ Ht2). simpl.
    rewrite Htok. simpl.
    eexists; eexists; eexists; eexists.
    split; [reflexivity |]. simpl.
    repeat split; try reflexivity.
    rewrite <- !app_assoc. reflexivity.
Qed.

Lemma credential_refresh_boundary_witness :
  let env := ex_env_at 901 in
  let s := ex_connected 901 in
  let pool := {| conninfo := conn_string env (Some "token");
                 min_size := CONNECTION_POOL_MIN_SIZE;
                 max_size := CONNECTION_POOL_MAX_SIZE |} in
  exists r s' pool' evs,
    get_connection env s = (r, s')
    /\ postgres_password s' = Some "token"
    /\ last_password_refresh s' = env_time env (S (S (clock_reads s)))
    /\ connection_pool s' = Some pool'
    /\ conninfo pool' = conn_string env (Some "token")
    /\ log s' = log s ++ evs
    /\ evs = [Pool_close pool;
              Print "Refreshing PostgreSQL OAuth token";
              Oauth_token_request;
              Pool_create pool';
              Pool_checkout pool']
    /\ count_events is_token_request evs = 1%nat
    /\ count_events is_pool_close evs = 1%nat
    /\ count_events is_pool_create evs = 1%nat.
Proof.
  intros env s pool.
  refine (proj2 (credential_refresh_boundary env s "token" 0%Q pool
                   eq_refl eq_refl eq_refl) _ _ "token" eq_refl).
  - vm_compute. reflexivity.
  - intros [| n]; vm_compute; discriminate.
Defined.

(** At exactly T + 900 seconds nothing is refreshed. *)
Example acquisition_at_900 :
  let s := ex_connected 900 in
  let s' := snd (get_connection (ex_env_at 900) s) in
  postgres_password s' = postgres_password s
  /\ connection_pool s' = connection_pool s
  /\ count_events is_token_request (log s')
     = count_events is_token_request (log s)
  /\ count_events is_pool_create (log s')
     = count_events is_pool_create (log s)
  /\ count_events is_pool_close (log s') = 0%nat.
Proof. vm_compute. repeat split. Qed.

(** At T + 901 seconds one token is requested and the pool is rebuilt. *)
Example acquisition_at_901 :
  let s := ex_connected 901 in
  let s' := snd (get_connection (ex_env_at 901) s) in
  count_events is_token_request (log s')
  = S (count_events is_token_request (log s))
  /\ count_events is_pool_create (log s')
     = S (count_events is_pool_create (log s))
  /\ count_events is_pool_close (log s') = 1%nat.
Proof. vm_compute. repeat split. Qed.


(* ===================================================================== *)
(** ** C3 and C8: locating the table                                      *)
(* ===================================================================== *)

Lemma try_except_return {A : Type} (c : M A) (classes : exn -> bool)
  (h : exn -> M A) (s s' : State) (a : A) :
  c s = (Return a, s') -> try_except c classes h s = (Return a, s').
Proof. intros H. unfold try_except. now rewrite H. Qed.

Lemma count_events_app (p : event -> bool) (l1 l2 : list event) :
  count_events p (l1 ++ l2) = (count_events p l1 + count_events p l2)%nat.
Proof. unfold count_events. now rewrite filter_app, length_app. Qed.

Lemma connection_events_no_scan (evs : list event) :
  forallb is_connection_event evs = true ->
  count_events is_schema_scan evs = 0%nat.
Proof.
  induction evs as [| e evs IH]; [reflexivity |].
  simpl. intros H. apply andb_true_iff in H. destruct H as [He H].
  unfold count_events in *. simpl.
  destruct e; try discriminate He; simpl; auto.
Qed.

Lemma table_exists_iff (db : Database) (sc n : string) :
  existsb (fun t => String.eqb (table_schema t) sc
                    && String.eqb (table_name t) n) (tables db) = true
  <-> table_in_schema db sc n.
Proof.
  unfold table_in_schema. rewrite existsb_exists. split.
  - intros (t & Hin & H). apply andb_true_iff in H. destruct H as [H1 H2].
    apply String.eqb_eq in H1, H2. eauto.
  - intros (t & Hin & H1 & H2). exists t. split; [assumption |].
    apply andb_true_iff. split; now apply String.eqb_eq.
Qed.

(** The names of the schemas that hold the table. *)
Lemma schemas_of_table_text (db : Database) (n : string) :
  schemas_of_table db n
  = map Text (map table_schema
                  (filter (fun t => String.eqb (table_name t) n) (tables db))).
Proof. unfold schemas_of_table. now rewrite map_map. Qed.

Lemma schema_names_In (db : Database) (n sc : string) :
  In sc (map table_schema
             (filter (fun t => String.eqb (table_name t) n) (tables db)))
  <-> table_in_schema db sc n.
Proof.
  unfold table_in_schema. rewrite in_map_iff. split.
  - intros (t & H1 & H2). apply filter_In in H2. destruct H2 as [H2 H3].
    apply String.eqb_eq in H3. eauto.
  - intros (t & H1 & H2 & H3). exists t. split; [assumption |].
    apply filter_In. split; [assumption | now apply String.eqb_eq].
Qed.

Lemma sort_str_head (l : list string) (a : string) (rest : list string) :
  sort_str l = a :: rest ->
  In a l /\ forall x, In x l -> str_le a x.
Proof.
  intros H.
  pose proof (sort_str_perm l) as Hp. pose proof (sort_str_sorted l) as Hs.
  rewrite H in Hp, Hs. split.
  - apply (Permutation_in _ (Permutation_sym Hp)). left. reflexivity.
  - intros x Hx. apply (Permutation_in _ Hp) in Hx.
    inversion Hs as [| ? ? _ Hall]; subst.
    destruct Hx as [<- | Hx]; [apply str_le_refl |].
    rewrite Forall_forall in Hall. auto.
Qed.

Lemma sort_str_nil (l : list string) : sort_str l = [] -> l = [].
Proof.
  intros H. pose proof (sort_str_perm l) as Hp. rewrite H in Hp.
  now apply Permutation_nil, Permutation_sym.
Qed.

Section Resolver.

Variable env : Env.
Hypothesis Hh : healthy env.

(** [find_table_schema] in a healthy world: one scan, and the answer is
    the head of the sorted schema names. *)
Lemma find_table_schema_run (table : string) (s : State) :
  exists s' evs,
    find_table_schema env table s
    = (Return match sort_str (map table_schema
                       (filter (fun t => String.eqb (table_name t) table)
                               (tables (env_server env)))) with
              | [] => None
              | a :: _ => Some (Text a)
              end, s')
    /\ DEFAULT_SCHEMA s' = DEFAULT_SCHEMA s
    /\ log s' = log s ++ evs
    /\ count_events is_schema_scan evs = 1%nat.
Proof.
  unfold find_table_schema.
  match goal with
  | |- context [with_connection env ?body] =>
      destruct (with_connection_healthy env Hh body s)
        as (conn & s1 & evs & E & Hd & Hl & Hev)
  end.
  destruct (cur_execute_run env FindTableSchema [Text table] s1)
    as (s2 & E2 & Hd2 & Hl2).
  simpl execute in E2.
  rewrite schemas_of_table_text, order_by_text in E2.
  exists s2, (evs ++ [Execute FindTableSchema [Text table]]).
  split; [| split; [congruence | split]].
  - apply try_except_return. rewrite E. cbv beta.
    rewrite (bind_return _ _ _ _ _ E2).
    destruct (sort_str _) as [| a rest]; reflexivity.
  - rewrite Hl2, Hl, app_assoc. reflexivity.
  - rewrite count_events_app, (connection_events_no_scan _ Hev). reflexivity.
Qed.

(** The body of [check_table_exists] up to the existence check. *)
Lemma check_table_exists_found (schema : option string) (table : string)
  (s : State) :
  table_in_schema (env_server env) (resolve schema s) table ->
  exists s' evs,
    check_table_exists env schema table s = (Return true, s')
    /\ DEFAULT_SCHEMA s' = DEFAULT_SCHEMA s
    /\ log s' = log s ++ evs
    /\ In (Execute TableExists [Text (resolve schema s); Text table]) evs
    /\ count_events is_schema_scan evs = 0%nat.
Proof.
  intros Hin. unfold check_table_exists.
  rewrite (bind_return _ _ _ _ _ (schema_or_default_run schema s)).
  match goal with
  | |- context [with_connection env ?body] =>
      destruct (with_connection_healthy env Hh body s)
        as (conn & s1 & evs & E & Hd & Hl & Hev)
  end.
  destruct (cur_execute_run env CurrentDatabaseSchema [] s1)
    as (s2 & E2 & Hd2 & Hl2).
  destruct (cur_execute_run env ListSchemata [] s2)
    as (s3 & E3 & Hd3 & Hl3).
  destruct (cur_execute_run env TableExists
              [Text (resolve schema s); Text table] s3)
    as (s4 & E4 & Hd4 & Hl4).
  simpl execute in E2, E3, E4.
  rewrite (proj2 (table_exists_iff _ _ _) Hin) in E4.
  exists s4, (evs ++ [Execute CurrentDatabaseSchema []; Execute ListSchemata [];
                      Execute TableExists [Text (resolve schema s); Text table]]).
  split; [| split; [congruence | split; [| split]]].
  - apply try_except_return. rewrite E. cbv beta.
    rewrite (bind_return _ _ _ _ _ E2), (bind_return _ _ _ _ _ E3),
      (bind_return _ _ _ _ _ E4).
    reflexivity.
  - rewrite Hl4, Hl3, Hl2, Hl, <- !app_assoc. reflexivity.
  - apply in_or_app. right. simpl. auto.
  - rewrite count_events_app, (connection_events_no_scan _ Hev). reflexivity.
Qed.

(** The same body when the existence check fails: the scan decides. *)
Lemma check_table_exists_scan (schema : option string) (table : string)
  (s : State) :
  ~ table_in_schema (env_server env) (resolve schema s) table ->
  exists s' pre post,
    check_table_exists env schema table s
    = (match sort_str (map table_schema
                 (filter (fun t => String.eqb (table_name t) table)
                         (tables (env_server env)))) with
       | [] => Return false
       | a :: _ => Return (negb (String.eqb a ""))
       end, s')
    /\ DEFAULT_SCHEMA s'
       = match sort_str (map table_schema
                 (filter (fun t => String.eqb (table_name t) table)
                         (tables (env_server env)))) with
         | [] => DEFAULT_SCHEMA s
         | a :: _ => if String.eqb a "" then DEFAULT_SCHEMA s else a
         end
    /\ log s' = log s ++ pre
                ++ Execute TableExists [Text (resolve schema s); Text table]
                   :: post
    /\ count_events is_schema_scan pre = 0%nat
    /\ count_events is_schema_scan post = 1%nat.
Proof.
  intros Hnot. unfold check_table_exists.
  rewrite (bind_return _ _ _ _ _ (schema_or_default_run schema s)).
  match goal with
  | |- context [with_connection env ?body] =>
      destruct (with_connection_healthy env Hh body s)
        as (conn & s1 & evs & E & Hd & Hl & Hev)
  end.
  destruct (cur_execute_run env CurrentDatabaseSchema [] s1)
    as (s2 & E2 & Hd2 & Hl2).
  destruct (cur_execute_run env ListSchemata [] s2)
    as (s3 & E3 & Hd3 & Hl3).
  destruct (cur_execute_run env TableExists
              [Text (resolve schema s); Text table] s3)
    as (s4 & E4 & Hd4 & Hl4).
  simpl execute in E2, E3, E4.
  destruct (existsb _ (tables (env_server env))) eqn:Ex in E4;
    [apply table_exists_iff in Ex; contradiction |].
  destruct (find_table_schema_run table s4) as (s5 & evs5 & E5 & Hd5 & Hl5 & Hc5).
  assert (Hlog : forall s6, log s6 = log s5 ->
            log s6 = log s ++ (evs ++ [Execute CurrentDatabaseSchema [];
                                       Execute ListSchemata []])
                     ++ Execute TableExists [Text (resolve schema s); Text table]
                        :: evs5).
  { intros s6 H6. rewrite H6, Hl5, Hl4, Hl3, Hl2, Hl, <- !app_assoc.
    reflexivity. }
  assert (Hpre : count_events is_schema_scan
                   (evs ++ [Execute CurrentDatabaseSchema [];
                            Execute ListSchemata []]) = 0%nat).
  { rewrite count_events_app, (connection_events_no_scan _ Hev). reflexivity. }
  destruct (sort_str _) as [| a rest] eqn:Es.
  - exists s5. do 2 eexists.
    split; [| split; [congruence | split; [apply Hlog; reflexivity | split;
                                           [exact Hpre | exact Hc5]]]].
    apply try_except_return. rewrite E. cbv beta.
    rewrite (bind_return _ _ _ _ _ E2), (bind_return _ _ _ _ _ E3),
      (bind_return _ _ _ _ _ E4).
    cbn [fetchone_item fetchone getitem nth_error].
    rewrite (bind_return _ _ _ _ _ (eq_refl : ret (Boolean false) s4 = _)).
    cbn [sqlval_truthy].
    rewrite (bind_return _ _ _ _ _ E5). reflexivity.
  - destruct (String.eqb a "") eqn:Ea.
    + exists s5. do 2 eexists.
      split; [| split; [congruence | split; [apply Hlog; reflexivity | split;
                                             [exact Hpre | exact Hc5]]]].
      apply try_except_return. rewrite E. cbv beta.
      rewrite (bind_return _ _ _ _ _ E2), (bind_return _ _ _ _ _ E3),
        (bind_return _ _ _ _ _ E4).
      cbn [fetchone_item fetchone getitem nth_error].
      rewrite (bind_return _ _ _ _ _ (eq_refl : ret (Boolean false) s4 = _)).
      cbn [sqlval_truthy].
      rewrite (bind_return _ _ _ _ _ E5).
      cbn [sqlval_truthy]. rewrite Ea. reflexivity.
    + exists (snd (set_DEFAULT_SCHEMA a s5)). do 2 eexists.
      split; [| split; [reflexivity | split; [apply Hlog; reflexivity | split;
                                              [exact Hpre | exact Hc5]]]].
      apply try_except_return. rewrite E. cbv beta.
      rewrite (bind_return _ _ _ _ _ E2), (bind_return _ _ _ _ _ E3),
        (bind_return _ _ _ _ _ E4).
      cbn [fetchone_item fetchone getitem nth_error].
      rewrite (bind_return _ _ _ _ _ (eq_refl : ret (Boolean false) s4 = _)).
      cbn [sqlval_truthy].
      rewrite (bind_return _ _ _ _ _ E5).
      cbn [sqlval_truthy sqlval_str]. rewrite Ea. reflexivity.
Qed.

End Resolver.

(** C3: in a world where connections succeed, with the configured schema
    [config.DEFAULT_SCHEMA], [check_table_exists] first asks whether the
    table is in that schema.  If it is, the call returns true, the
    configured schema stays and no catalog-wide search is run.  If it is
    not but some schema holds the table, the search runs once after the
    existence check, the configured schema becomes the first schema in
    code-point order that holds the table, and the call returns true; the
    same call again then returns true on the existence check in that
    schema, without a search. *)
Theorem schema_resolution_one_shot (env : Env) (table : string) (s : State) :
  healthy env ->
  schema_names_nonempty (env_server env) ->
  (table_in_schema (env_server env) (DEFAULT_SCHEMA s) table ->
   exists s' evs,
     check_table_exists env None table s = (Return true, s')
     /\ DEFAULT_SCHEMA s' = DEFAULT_SCHEMA s
     /\ log s' = log s ++ evs
     /\ In (Execute TableExists [Text (DEFAULT_SCHEMA s); Text table]) evs
     /\ count_events is_schema_scan evs = 0%nat)
  /\ (~ table_in_schema (env_server env) (DEFAULT_SCHEMA s) table ->
      (exists sc, table_in_schema (env_server env) sc table) ->
      exists alt s1 pre post,
        check_table_exists env None table s = (Return true, s1)
        /\ DEFAULT_SCHEMA s1 = alt
        /\ table_in_schema (env_server env) alt table
        /\ (forall sc, table_in_schema (env_server env) sc table ->
                       str_le alt sc)
        /\ log s1 = log s ++ pre
                    ++ Execute TableExists [Text (DEFAULT_SCHEMA s); Text table]
                       :: post
        /\ count_events is_schema_scan pre = 0%nat
        /\ count_events is_schema_scan post = 1%nat
        /\ exists s2 evs2,
             check_table_exists env None table s1 = (Return true, s2)
             /\ DEFAULT_SCHEMA s2 = alt
             /\ log s2 = log s1 ++ evs2
             /\ In (Execute TableExists [Text alt; Text table]) evs2
             /\ count_events is_schema_scan evs2 = 0%nat).
Proof.
  intros Hh Hne. split.
  - intros Hin. exact (check_table_exists_found env Hh None table s Hin).
  - intros Hnot (sc0 & Hsc0).
    destruct (check_table_exists_scan env Hh None table s Hnot)
      as (s1 & pre & post & E & Hd & Hl & Hpre & Hpost).
    destruct (sort_str _) as [| alt rest] eqn:Es.
    + apply sort_str_nil in Es.
      apply schema_names_In in Hsc0. rewrite Es in Hsc0. destruct Hsc0.
    + destruct (sort_str_head _ _ _ Es) as (Hin & Hmin).
      apply schema_names_In in Hin.
      assert (Ha : String.eqb alt "" = false).
      { apply String.eqb_neq. destruct Hin as (t & Ht & <- & _). now apply Hne. }
      rewrite Ha in E, Hd. simpl in E.
      exists alt, s1, pre, post.
      repeat (split; [assumption |]).
      split.
      { intros sc Hsc. apply Hmin. now apply schema_names_In. }
      repeat (split; [assumption |]).
      rewrite <- Hd in Hin.
      destruct (check_table_exists_found env Hh None table s1 Hin)
        as (s2 & evs2 & E2 & Hd2 & Hl2 & Hin2 & Hc2).
      simpl resolve in Hin2. rewrite Hd in Hd2, Hin2.
      exists s2, evs2. auto.
Qed.

Lemma schema_resolution_one_shot_witness :
  exists alt s1 pre post,
    check_table_exists ex_env None TABLE_NAME initial_state = (Return true, s1)
    /\ DEFAULT_SCHEMA s1 = alt
    /\ table_in_schema (env_server ex_env) alt TABLE_NAME
    /\ (forall sc, table_in_schema (env_server ex_env) sc TABLE_NAME ->
                   str_le alt sc)
    /\ log s1 = log initial_state ++ pre
                ++ Execute TableExists [Text (DEFAULT_SCHEMA initial_state);
                                        Text TABLE_NAME]
                   :: post
    /\ count_events is_schema_scan pre = 0%nat
    /\ count_events is_schema_scan post = 1%nat
    /\ exists s2 evs2,
         check_table_exists ex_env None TABLE_NAME s1 = (Return true, s2)
         /\ DEFAULT_SCHEMA s2 = alt
         /\ log s2 = log s1 ++ evs2
         /\ In (Execute TableExists [Text alt; Text TABLE_NAME]) evs2
         /\ count_events is_schema_scan evs2 = 0%nat.
Proof.
  refine (proj2 (schema_resolution_one_shot ex_env TABLE_NAME initial_state
                   ex_env_healthy _) _ _).
  - intros t [<- | [<- | []]]; simpl; discriminate.
  - intros (t & [<- | [<- | []]] & H & _); simpl in H; discriminate H.
  - exists "alt". eexists. split; [right; left; reflexivity |].
    split; reflexivity.
Defined.

(** On the example the discovered schema is [alt], not [zeta]. *)
Example schema_resolution_example :
  DEFAULT_SCHEMA (snd (check_table_exists ex_env None TABLE_NAME initial_state))
  = "alt".
Proof. vm_compute. reflexivity. Qed.

(* ===================================================================== *)
(** ** The configured schema across calls                                 *)
(* ===================================================================== *)

Lemma keeps_schema_bind {A B : Type} (c : M A) (f : A -> M B) :
  keeps_schema c -> (forall a, keeps_schema (f a)) -> keeps_schema (bind c f).
Proof.
  intros Hc Hf s. unfold bind. specialize (Hc s).
  destruct (c s) as [[a | e] s1]; simpl in Hc |- *; [| exact Hc].
  now rewrite Hf.
Qed.

Lemma keeps_schema_try_except {A : Type} (c : M A) (classes : exn -> bool)
  (h : exn -> M A) :
  keeps_schema c -> (forall e, keeps_schema (h e)) ->
  keeps_schema (try_except c classes h).
Proof.
  intros Hc Hh s. unfold try_except. specialize (Hc s).
  destruct (c s) as [[a | e] s1]; simpl in Hc |- *; [exact Hc |].
  destruct (classes e); [| exact Hc].
  now rewrite Hh.
Qed.

Lemma keeps_schema_ret {A : Type} (a : A) : keeps_schema (ret a).
Proof. intros s. reflexivity. Qed.

Lemma keeps_schema_raise {A : Type} (e : exn) : keeps_schema (@raise A e).
Proof. intros s. reflexivity. Qed.

Lemma keeps_schema_lift {A : Type} (r : result A) : keeps_schema (lift r).
Proof. intros s. reflexivity. Qed.

Lemma keeps_schema_get : keeps_schema get.
Proof. intros s. reflexivity. Qed.

Lemma keeps_schema_emit (e : event) : keeps_schema (emit e).
Proof. intros s. reflexivity. Qed.

Lemma keeps_schema_time_time (env : Env) : keeps_schema (time_time env).
Proof. intros s. reflexivity. Qed.

Lemma keeps_schema_oauth_token (env : Env) : keeps_schema (oauth_token env).
Proof. intros s. reflexivity. Qed.

Lemma keeps_schema_pool_connection (env : Env) (pool : ConnectionPool) :
  keeps_schema (pool_connection env pool).
Proof. intros s. reflexivity. Qed.

Lemma keeps_schema_set_postgres_password (v : option string) :
  keeps_schema (set_postgres_password v).
Proof. intros s. reflexivity. Qed.

Lemma keeps_schema_set_last_password_refresh (v : Q) :
  keeps_schema (set_last_password_refresh v).
Proof. intros s. reflexivity. Qed.

Lemma keeps_schema_set_connection_pool (v : option ConnectionPool) :
  keeps_schema (set_connection_pool v).
Proof. intros s. reflexivity. Qed.

Ltac keeps_schema_step :=
  first
    [ apply keeps_schema_bind
    | apply keeps_schema_try_except
    | apply keeps_schema_ret
    | apply keeps_schema_raise
    | apply keeps_schema_lift
    | apply keeps_schema_get
    | apply keeps_schema_emit
    | apply keeps_schema_time_time
    | apply keeps_schema_oauth_token
    | apply keeps_schema_pool_connection
    | apply keeps_schema_set_postgres_password
    | apply keeps_schema_set_last_password_refresh
    | apply keeps_schema_set_connection_pool
    | match goal with
      | |- keeps_schema (match ?x with _ => _ end) => destruct x
      | |- forall _, _ => intro
      end ].

Lemma keeps_schema_token_stale (env : Env) : keeps_schema (token_stale env).
Proof. unfold token_stale. repeat keeps_schema_step. Qed.

Lemma keeps_schema_refresh_oauth_token (env : Env) :
  keeps_schema (refresh_oauth_token env).
Proof.
  unfold refresh_oauth_token, print, st_error, st_stop.
  apply keeps_schema_bind; [apply keeps_schema_token_stale |].
  repeat keeps_schema_step.
Qed.

Lemma keeps_schema_get_connection_pool (env : Env) :
  keeps_schema (get_connection_pool env).
Proof.
  unfold get_connection_pool, ConnectionPool_new.
  apply keeps_schema_bind; [apply keeps_schema_get |].
  intros s. destruct (connection_pool s); [apply keeps_schema_ret |].
  apply keeps_schema_bind; [apply keeps_schema_refresh_oauth_token |].
  repeat keeps_schema_step.
Qed.

Lemma keeps_schema_get_connection (env : Env) :
  keeps_schema (get_connection env).
Proof.
  unfold get_connection.
  apply keeps_schema_bind; [apply keeps_schema_token_stale |].
  intros stale.
  apply keeps_schema_bind; [repeat keeps_schema_step |].
  intros _.
  apply keeps_schema_bind; [apply keeps_schema_get_connection_pool |].
  intros pool. apply keeps_schema_pool_connection.
Qed.

Lemma keeps_schema_with_connection {A : Type} (env : Env)
  (body : Connection -> M A) :
  (forall conn, keeps_schema (body conn)) ->
  keeps_schema (with_connection env body).
Proof.
  intros H. unfold with_connection.
  apply keeps_schema_bind; [apply keeps_schema_get_connection | exact H].
Qed.

Lemma keeps_schema_cur_execute (env : Env) (q : query) (ps : list sqlval) :
  keeps_schema (cur_execute env q ps).
Proof. unfold cur_execute. repeat keeps_schema_step. Qed.

Lemma keeps_schema_getitem (t : list sqlval) (i : nat) :
  keeps_schema (getitem t i).
Proof. unfold getitem. repeat keeps_schema_step. Qed.

Lemma keeps_schema_find_table_schema (env : Env) (table : string) :
  keeps_schema (find_table_schema env table).
Proof.
  unfold find_table_schema.
  apply keeps_schema_try_except; [| intros e; apply keeps_schema_ret].
  apply keeps_schema_with_connection. intros conn.
  apply keeps_schema_bind; [apply keeps_schema_cur_execute |].
  intros rows. destruct (fetchone rows) as [result |];
    [| apply keeps_schema_ret].
  destruct (tuple_truthy result); [| apply keeps_schema_ret].
  apply keeps_schema_bind; [apply keeps_schema_getitem |].
  intros v. apply keeps_schema_ret.
Qed.

Lemma keeps_schema_weaken (c : M bool) :
  keeps_schema c -> keeps_schema_unless_true c.
Proof. intros H s _. apply H. Qed.

Lemma keeps_schema_unless_true_bind {A : Type} (c : M A) (f : A -> M bool) :
  keeps_schema c -> (forall a, keeps_schema_unless_true (f a)) ->
  keeps_schema_unless_true (bind c f).
Proof.
  intros Hc Hf s. unfold bind. specialize (Hc s).
  destruct (c s) as [[a | e] s1]; simpl in Hc |- *; [| intros _; exact Hc].
  intros H. now rewrite Hf.
Qed.

Lemma keeps_schema_unless_true_try_except (c : M bool)
  (classes : exn -> bool) (h : exn -> M bool) :
  keeps_schema_unless_true c -> (forall e, keeps_schema (h e)) ->
  keeps_schema_unless_true (try_except c classes h).
Proof.
  intros Hc Hh s. unfold try_except. specialize (Hc s).
  destruct (c s) as [[a | e] s1]; simpl in Hc |- *; [exact Hc |].
  assert (Hs1 : DEFAULT_SCHEMA s1 = DEFAULT_SCHEMA s) by (apply Hc; discriminate).
  destruct (classes e); [| intros _; exact Hs1].
  intros _. now rewrite Hh.
Qed.

(** [check_table_exists], in any world and whatever the outcome: unless
    the call returns true, [config.DEFAULT_SCHEMA] is what it was. *)
Lemma check_table_exists_keeps_schema (env : Env) (schema : option string)
  (table : string) :
  keeps_schema_unless_true (check_table_exists env schema table).
Proof.
  unfold check_table_exists.
  apply keeps_schema_unless_true_bind.
  { destruct schema; unfold schema_or_default; repeat keeps_schema_step. }
  intros sc.
  apply keeps_schema_unless_true_try_except.
  2: { intros e. unfold st_error. repeat keeps_schema_step. }
  unfold with_connection.
  apply keeps_schema_unless_true_bind; [apply keeps_schema_get_connection |].
  intros conn.
  do 3 (apply keeps_schema_unless_true_bind;
        [apply keeps_schema_cur_execute | intros ?]).
  apply keeps_schema_unless_true_bind.
  { unfold fetchone_item. destruct (fetchone _);
      [apply keeps_schema_getitem | repeat keeps_schema_step]. }
  intros result.
  destruct (sqlval_truthy result); [apply keeps_schema_weaken, keeps_schema_ret |].
  apply keeps_schema_unless_true_bind; [apply keeps_schema_find_table_schema |].
  intros [v |]; [| apply keeps_schema_weaken, keeps_schema_ret].
  destruct (sqlval_truthy v); [| apply keeps_schema_weaken, keeps_schema_ret].
  intros s H. exfalso. apply H. reflexivity.
Qed.

Lemma returns_only_bind {A B : Type} (c : M A) (f : A -> M B)
  (P : A -> Prop) (Q : B -> Prop) :
  returns_only c P -> (forall a, P a -> returns_only (f a) Q) ->
  returns_only (bind c f) Q.
Proof.
  intros Hc Hf s b s' H. unfold bind in H.
  destruct (c s) as [[a | e] s1] eqn:E; [| discriminate H].
  exact (Hf a (Hc _ _ _ E) _ _ _ H).
Qed.

Lemma returns_only_try_except {A : Type} (c : M A) (classes : exn -> bool)
  (h : exn -> M A) (P : A -> Prop) :
  returns_only c P -> (forall e, returns_only (h e) P) ->
  returns_only (try_except c classes h) P.
Proof.
  intros Hc Hh s a s' H. unfold try_except in H.
  destruct (c s) as [[a1 | e] s1] eqn:E.
  - injection H as <- _. exact (Hc _ _ _ E).
  - destruct (classes e); [exact (Hh e _ _ _ H) | discriminate H].
Qed.

Lemma returns_only_ret {A : Type} (a : A) (P : A -> Prop) :
  P a -> returns_only (ret a) P.
Proof. intros H s b s' E. injection E as <- _. exact H. Qed.

Lemma returns_only_cur_execute (env : Env) (q : query) (ps : list sqlval) :
  returns_only (cur_execute env q ps)
    (fun rows => execute (env_server env) q ps = Return rows).
Proof.
  intros s rows s' H.
  destruct (cur_execute_run env q ps s) as (s1 & E & _).
  rewrite E in H. now injection H as -> _.
Qed.

Section NotFound.

Variable env : Env.
Variable table : string.
Hypothesis Hno : forall sc, ~ table_in_schema (env_server env) sc table.

(** A table that no schema holds is found by no search, in any world. *)
Lemma find_table_schema_not_found :
  returns_only (find_table_schema env table) (fun r => r = None).
Proof.
  unfold find_table_schema.
  apply returns_only_try_except;
    [| intros e; now apply returns_only_ret].
  unfold with_connection.
  apply (returns_only_bind _ _ (fun _ => True)); [easy |].
  intros conn _.
  apply (returns_only_bind _ _ _ _ (returns_only_cur_execute env _ _)).
  intros rows Hrows. simpl execute in Hrows.
  rewrite schemas_of_table_text, order_by_text in Hrows.
  destruct (sort_str _) as [| a rest] eqn:Es.
  - injection Hrows as <-. now apply returns_only_ret.
  - destruct (sort_str_head _ _ _ Es) as (Hin & _).
    apply schema_names_In in Hin. destruct (Hno _ Hin).
Qed.

(** Nor does [check_table_exists] return true for it. *)
Lemma check_table_exists_not_found (schema : option string) :
  returns_only (check_table_exists env schema table) (fun b => b = false).
Proof.
  unfold check_table_exists.
  apply (returns_only_bind _ _ (fun _ => True)); [easy |].
  intros sc _.
  apply returns_only_try_except.
  2: { intros e. apply (returns_only_bind _ _ (fun _ => True)); [easy |].
       intros _ _. now apply returns_only_ret. }
  unfold with_connection.
  apply (returns_only_bind _ _ (fun _ => True)); [easy |].
  intros conn _.
  apply (returns_only_bind _ _ (fun _ => True)); [easy |].
  intros r1 _.
  apply (returns_only_bind _ _ (fun _ => True)); [easy |].
  intros r2 _.
  apply (returns_only_bind _ _ _ _ (returns_only_cur_execute env _ _)).
  intros rows Hrows. simpl execute in Hrows.
  destruct (existsb _ (tables (env_server env))) eqn:Ex in Hrows;
    [apply table_exists_iff in Ex; destruct (Hno _ Ex) |].
  injection Hrows as <-.
  cbn [fetchone_item fetchone getitem nth_error].
  apply (returns_only_bind _ _ (fun v => v = Boolean false)).
  { intros s a s' H. now injection H as <- _. }
  intros v ->. cbn [sqlval_truthy].
  apply (returns_only_bind _ _ _ _ find_table_schema_not_found).
  intros r ->. now apply returns_only_ret.
Qed.

End NotFound.

(** C8: when no schema holds the table, [check_table_exists] never returns
    true and, whether it returns or raises, [config.DEFAULT_SCHEMA] is what
    it was before the call; this in any world.  In a world where
    connections succeed the call returns false. *)
Theorem table_not_found_leaves_schema (env : Env) (schema : option string)
  (table : string) (s : State) :
  (forall sc, ~ table_in_schema (env_server env) sc table) ->
  (forall r s',
     check_table_exists env schema table s = (r, s') ->
     r <> Return true /\ DEFAULT_SCHEMA s' = DEFAULT_SCHEMA s)
  /\ (healthy env ->
      exists s', check_table_exists env schema table s = (Return false, s')).
Proof.
  intros Hno. split.
  - intros r s' E.
    assert (Hr : r <> Return true).
    { intros ->.
      pose proof (check_table_exists_not_found env table Hno schema _ _ _ E).
      discriminate. }
    split; [exact Hr |].
    pose proof (check_table_exists_keeps_schema env schema table s) as H.
    rewrite E in H. exact (H Hr).
  - intros Hh.
    destruct (check_table_exists_scan env Hh schema table s (Hno _))
      as (s1 & pre & post & E & _).
    destruct (sort_str _) as [| a rest] eqn:Es.
    + exists s1. exact E.
    + destruct (sort_str_head _ _ _ Es) as (Hin & _).
      apply schema_names_In in Hin. destruct (Hno _ Hin).
Qed.

Lemma table_not_found_leaves_schema_witness :
  (forall r s',
     check_table_exists ex_env None "no_such_table" initial_state = (r, s') ->
     r <> Return true /\ DEFAULT_SCHEMA s' = DEFAULT_SCHEMA initial_state)
  /\ (healthy ex_env ->
      exists s',
        check_table_exists ex_env None "no_such_table" initial_state
        = (Return false, s')).
Proof.
  apply (table_not_found_leaves_schema ex_env None "no_such_table"
           initial_state).
  intros sc (t & [<- | [<- | []]] & _ & H); simpl in H; discriminate H.
Defined.

(** When the server refuses connections the call also returns false, the
    error shown with [st.error], and the configured schema stays. *)
Example check_table_exists_server_down :
  exists s',
    check_table_exists ex_env_down None TABLE_NAME initial_state
    = (Return false, s')
    /\ DEFAULT_SCHEMA s' = DEFAULT_SCHEMA initial_state
    /\ In (St_error "connection refused") (log s').
Proof. eexists. split; [vm_compute; reflexivity |]. vm_compute. auto 10. Qed.


(* ===================================================================== *)
(** ** Facts on the string methods                                        *)
(* ===================================================================== *)

Lemma prefix_cons (a b : ascii) (p s : string) :
  String.prefix (String a p) (String b s)
  = if Ascii.eqb a b then String.prefix p s else false.
Proof.
  simpl. destruct (ascii_dec a b) as [-> | N].
  - now rewrite Ascii.eqb_refl.
  - apply Ascii.eqb_neq in N. now rewrite N.
Qed.

Lemma prefix_nil (s : string) : String.prefix "" s = true.
Proof. destruct s; reflexivity. Qed.

Lemma prefix_char (a b : ascii) (s : string) :
  String.prefix (String a "") (String b s) = Ascii.eqb a b.
Proof. rewrite prefix_cons, prefix_nil. now destruct (Ascii.eqb a b). Qed.

Lemma index_cons (p : string) (c : ascii) (s : string) :
  String.index 0 p (String c s)
  = if String.prefix p (String c s) then Some 0%nat
    else match String.index 0 p s with
         | Some n => Some (S n)
         | None => None
         end.
Proof. reflexivity. Qed.

Lemma prefix_index (p s : string) :
  s <> "" -> String.prefix p s = true -> String.index 0 p s = Some 0%nat.
Proof.
  intros Hs H. destruct s as [| c s]; [contradiction |].
  rewrite index_cons. now rewrite H.
Qed.

(** No occurrence of [old]: [replace] changes nothing. *)
Lemma replace_from_absent (old new s : string) :
  String.index 0 old s = None ->
  PyStr.replace_from 0 old new s = s.
Proof.
  induction s as [| c s IH]; [reflexivity |].
  rewrite index_cons.
  change (PyStr.replace_from 0 old new (String c s))
    with (if String.prefix old (String c s)
          then (new ++ PyStr.replace_from (String.length old - 1) old new s)%string
          else String c (PyStr.replace_from 0 old new s)).
  destruct (String.prefix old (String c s)); [discriminate |].
  destruct (String.index 0 old s); [discriminate |].
  intros _. now rewrite IH.
Qed.

Lemma replace_dbfs_prefix (rest : string) :
  PyStr.contains rest "dbfs:" = false ->
  PyStr.replace ("dbfs:" ++ rest) "dbfs:" "" = rest.
Proof.
  unfold PyStr.contains, PyStr.replace. intros H.
  destruct (String.index 0 "dbfs:" rest) eqn:E; [discriminate |].
  simpl. rewrite replace_from_absent by assumption.
  destruct rest; reflexivity.
Qed.

Lemma digit_not_dot (c : ascii) : PyStr.isdigit_char c = true -> c <> "."%char.
Proof. intros H ->. discriminate H. Qed.

Lemma all_digits_no_char (s : string) (c : ascii) :
  PyStr.isdigit_char c = false ->
  PyStr.all_chars PyStr.isdigit_char s = true ->
  String.index 0 (String c "") s = None.
Proof.
  intros Hc. induction s as [| d s IH]; [reflexivity |].
  simpl PyStr.all_chars. intros H. apply andb_true_iff in H.
  destruct H as [Hd Hs].
  rewrite index_cons, prefix_char.
  destruct (Ascii.eqb_spec c d) as [-> | _]; [congruence |].
  now rewrite IH.
Qed.

Lemma contains_not_isdigit (s : string) (c : ascii) :
  PyStr.isdigit_char c = false ->
  PyStr.contains s (String c "") = true -> PyStr.isdigit s = false.
Proof.
  intros Hc H. unfold PyStr.contains in H.
  destruct (PyStr.isdigit s) eqn:E; [| reflexivity].
  assert (Hall : PyStr.all_chars PyStr.isdigit_char s = true).
  { destruct s; [discriminate | exact E]. }
  rewrite (all_digits_no_char s c Hc Hall) in H. discriminate.
Qed.

Lemma startswith_contains (s p : string) :
  s <> "" -> PyStr.startswith s p = true -> PyStr.contains s p = true.
Proof.
  unfold PyStr.startswith, PyStr.contains. intros Hs H.
  now rewrite (prefix_index p s Hs H).
Qed.

Lemma contains_suffix (c : ascii) (p rest : string) :
  PyStr.contains rest p = true -> PyStr.contains (String c rest) p = true.
Proof.
  unfold PyStr.contains. rewrite index_cons.
  destruct (String.prefix p (String c rest)); [reflexivity |].
  destruct (String.index 0 p rest); [reflexivity | discriminate].
Qed.

Lemma lower_char_dot (c : ascii) :
  PyStr.lower_char c = "."%char -> c = "."%char.
Proof.
  destruct c as [[] [] [] [] [] [] [] []]; vm_compute; intros H;
    first [reflexivity | discriminate H].
Qed.

Lemma contains_dot_lower (s : string) :
  PyStr.contains (PyStr.lower s) "." = true -> PyStr.contains s "." = true.
Proof.
  unfold PyStr.contains. induction s as [| c s IH]; [discriminate |].
  simpl PyStr.lower. rewrite !index_cons, !prefix_char.
  destruct (Ascii.eqb_spec "." (PyStr.lower_char c)) as [E | N].
  - symmetry in E. apply lower_char_dot in E. subst c. reflexivity.
  - destruct (Ascii.eqb "." c); [reflexivity |].
    destruct (String.index 0 "." (PyStr.lower s));
      [| discriminate].
    intros _. specialize (IH eq_refl).
    destruct (String.index 0 "." s); [reflexivity | discriminate].
Qed.

Lemma substring_dot_contains (t u : string) (k m : nat) :
  String.substring k m t = String "." u -> PyStr.contains t "." = true.
Proof.
  revert k. induction t as [| c t IH]; intros k H.
  - destruct k, m; discriminate H.
  - destruct k as [| k].
    + destruct m as [| m]; [discriminate |].
      simpl in H. injection H as -> _.
      unfold PyStr.contains. now rewrite index_cons, prefix_char.
    + simpl in H. apply contains_suffix. now apply (IH k).
Qed.

Lemma endswith_dot_contains (t u : string) :
  PyStr.endswith t (String "." u) = true -> PyStr.contains t "." = true.
Proof.
  unfold PyStr.endswith.
  destruct (Nat.leb _ _); [| discriminate].
  intros H. apply String.eqb_eq in H.
  now apply substring_dot_contains in H.
Qed.

Lemma image_extension_has_dot (s : string) :
  has_image_extension s = true -> PyStr.contains s "." = true.
Proof.
  unfold has_image_extension. intros H.
  apply contains_dot_lower.
  cbn [existsb] in H.
  repeat (apply orb_true_iff in H; destruct H as [H | H];
          [now apply endswith_dot_contains in H |]).
  discriminate H.
Qed.

Lemma no_slash_not_volume (s : string) :
  PyStr.contains s "/" = false ->
  PyStr.startswith s "dbfs:/Volumes/" = false
  /\ PyStr.startswith s "/Volumes/" = false.
Proof.
  unfold PyStr.contains, PyStr.startswith. intros H.
  split.
  - destruct (String.prefix "dbfs:/Volumes/" s) eqn:E; [| reflexivity].
    exfalso.
    do 6 (destruct s as [| ? s]; [simpl in E; discriminate E |];
          rewrite prefix_cons in E;
          match type of E with
          | (if Ascii.eqb ?a ?b then _ else _) = _ =>
              destruct (Ascii.eqb_spec a b); [subst | discriminate E]
          end).
    rewrite !index_cons, !prefix_char in H. simpl in H. discriminate H.
  - destruct (String.prefix "/Volumes/" s) eqn:E; [| reflexivity].
    exfalso.
    destruct s as [| ? s]; [simpl in E; discriminate E |].
    rewrite prefix_cons in E.
    match type of E with
    | (if Ascii.eqb ?a ?b then _ else _) = _ =>
        destruct (Ascii.eqb_spec a b); [subst | discriminate E]
    end.
    rewrite index_cons, prefix_char in H. simpl in H. discriminate H.
Qed.


(* ===================================================================== *)
(** ** Running the image service                                          *)
(* ===================================================================== *)

Lemma downloads_app (l1 l2 : list event) :
  downloads (l1 ++ l2) = downloads l1 ++ downloads l2.
Proof.
  induction l1 as [| e l1 IH]; [reflexivity |].
  destruct e; simpl; rewrite ?IH; reflexivity.
Qed.

Lemma try_except_bind_return {A B : Type} (c : M A) (f : A -> M B)
  (classes : exn -> bool) (h : exn -> M B) (s s' : State) (a : A) :
  c s = (Return a, s') ->
  try_except (x <- c ;; f x) classes h s = try_except (f a) classes h s'.
Proof. intros H. unfold try_except, bind. now rewrite H. Qed.

(** The path the method settles on, as a function of the stripped string:
    the decisions of [normalized_path] without its messages. *)
Lemma normalized_path_run (file_path_str : string) (s : State) :
  exists s' evs,
    normalized_path file_path_str s
    = (Return
         (if PyStr.startswith file_path_str "dbfs:/Volumes/" then
            Some (PyStr.replace file_path_str "dbfs:" "")
          else if PyStr.startswith file_path_str "/Volumes/" then
            Some file_path_str
          else if PyStr.isdigit file_path_str then None
          else if negb (PyStr.contains file_path_str "/") then
            if PyStr.contains file_path_str "."
               && has_image_extension file_path_str
            then Some (VOLUME_BASE_PATH ++ "/" ++ file_path_str)%string
            else None
          else if PyStr.startswith file_path_str "/" then
            if negb (PyStr.contains file_path_str "/Volumes/") then None
            else Some (PyStr.slice_from file_path_str
                         (PyStr.find file_path_str "/Volumes/"))
          else None), s')
    /\ log s' = log s ++ evs
    /\ downloads evs = [].
Proof.
  unfold normalized_path.
  repeat match goal with
         | |- context [if ?b then _ else _] =>
             lazymatch b with
             | context [if _ then _ else _] => fail
             | _ => destruct b
             end
         end;
    unfold_m; simpl;
    first [ exists s, []; rewrite app_nil_r; repeat split; reflexivity
          | eexists; eexists; split; [reflexivity |]; simpl;
            rewrite <- ?app_assoc; split; reflexivity ].
Qed.

Lemma read_file_data_run (response : DownloadResponse) (s : State) :
  read_file_data response s
  = (fst (read_file_data response initial_state), s).
Proof.
  unfold read_file_data, no_attribute. unfold_m.
  destruct response as [c ct rd]. simpl.
  destruct c as [[[v | e] | v] |]; simpl; try reflexivity;
    try (destruct e as [[] msg]; simpl; try reflexivity);
    destruct ct as [v' |]; simpl; try reflexivity;
    destruct rd as [[v'' | e'] |]; simpl; try reflexivity;
    destruct e' as [[] msg']; reflexivity.
Qed.

Lemma read_file_data_ordinary (response : DownloadResponse) (e : exn) :
  ordinary_response response ->
  fst (read_file_data response initial_state) = Raise e ->
  isinstance_Exception e = true.
Proof.
  intros [Hc Hr]. unfold read_file_data, no_attribute. unfold_m.
  destruct response as [c ct rd]. simpl in *.
  destruct c as [[[v | e0] | v] |]; simpl; try discriminate;
    try (pose proof (Hc e0 eq_refl) as H0;
         destruct e0 as [[] msg]; simpl; try discriminate H0;
         try (intros [= <-]; reflexivity));
    destruct ct as [v' |]; simpl; try discriminate;
    destruct rd as [[v'' | e'] |]; simpl; try discriminate;
    pose proof (Hr e' eq_refl) as H1;
    destruct e' as [[] msg']; simpl; try discriminate H1; try discriminate;
    intros [= <-]; reflexivity.
Qed.

Section ImageService.

Variable env : Env.

(** From the download on: one request to the Files API, and with ordinary
    failures the method returns [load_result]. *)
Lemma load_from_path (p : string) (s : State) :
  exists r s' evs,
    try_except
      (download_response <- files_download env p ;;
       file_data <- read_file_data download_response ;;
       img <- Image_open env file_data ;;
       ret (Some img))
      isinstance_Exception
      (fun e => st_error (exn_msg e) ;; st_info "Error type" ;; ret None) s
    = (r, s')
    /\ log s' = log s ++ Files_download p :: evs
    /\ downloads evs = []
    /\ (ordinary_files env -> r = Return (load_result env p)).
Proof.
  unfold load_result, files_download.
  unfold try_except, bind at 1 2. unfold emit at 1. unfold lift at 1.
  cbn [log].
  destruct (env_files_download env p) as [response | e] eqn:Ed.
  - unfold bind at 1. rewrite read_file_data_run.
    destruct (fst (read_file_data response initial_state))
      as [[data | ] | e] eqn:Er.
    + unfold bind, Image_open, lift, ret.
      destruct (env_Image_open env data) as [img | e] eqn:Ei.
      * eexists; eexists; exists []. split; [reflexivity |]. simpl. auto.
      * destruct (isinstance_Exception e) eqn:Ee.
        -- unfold_m. simpl. eexists; eexists; eexists.
           split; [reflexivity |]. simpl.
           split; [rewrite <- !app_assoc; reflexivity |]. auto.
        -- eexists; eexists; exists []. split; [reflexivity |]. simpl.
           repeat split. intros (_ & _ & Hi). rewrite (Hi _ _ Ei) in Ee.
           discriminate.
    + unfold bind, Image_open, raise. simpl.
      unfold_m. simpl. eexists; eexists; eexists.
      split; [reflexivity |]. simpl.
      split; [rewrite <- !app_assoc; reflexivity |]. auto.
    + destruct (isinstance_Exception e) eqn:Ee.
      * unfold_m. simpl. eexists; eexists; eexists.
        split; [reflexivity |]. simpl.
        split; [rewrite <- !app_assoc; reflexivity |]. auto.
      * eexists; eexists; exists []. split; [reflexivity |]. simpl.
        repeat split. intros (_ & Hr & _).
        rewrite (read_file_data_ordinary _ _ (Hr _ _ Ed) Er) in Ee.
        discriminate.
  - destruct (isinstance_Exception e) eqn:Ee.
    + unfold_m. simpl. eexists; eexists; eexists.
      split; [reflexivity |]. simpl.
      split; [rewrite <- !app_assoc; reflexivity |]. auto.
    + eexists; eexists; exists []. split; [reflexivity |]. simpl.
      repeat split. intros (Hd & _). rewrite (Hd _ _ Ed) in Ee.
      discriminate.
Qed.

(** The whole method, in terms of the settled path. *)
Lemma load_image_from_volume_run (file_path : path_arg) (s : State) :
  exists r s' evs,
    load_image_from_volume env file_path s = (r, s')
    /\ log s' = log s ++ evs
    /\ (path_truthy file_path = false ->
        r = Return None /\ downloads evs = [])
    /\ (path_truthy file_path = true ->
        forall s0,
          match fst (normalized_path (PyStr.strip (path_str file_path)) s0) with
          | Return (Some p) =>
              downloads evs = [p]
              /\ (ordinary_files env -> r = Return (load_result env p))
          | _ => r = Return None /\ downloads evs = []
          end).
Proof.
  unfold load_image_from_volume.
  destruct (path_truthy file_path) eqn:Et; cbn [negb].
  - destruct (normalized_path_run (PyStr.strip (path_str file_path)) s)
      as (s1 & evs1 & E1 & Hl1 & Hd1).
    rewrite (try_except_bind_return _ _ _ _ _ _ _ E1).
    match type of E1 with
    | _ = (Return ?n, _) => destruct n as [p |] eqn:En
    end.
    + destruct (load_from_path p s1) as (r & s2 & evs2 & E2 & Hl2 & Hd2 & Ho).
      exists r, s2, (evs1 ++ Files_download p :: evs2).
      split; [exact E2 |].
      split; [rewrite Hl2, Hl1, <- app_assoc; reflexivity |].
      split; [discriminate |].
      intros _ s0.
      destruct (normalized_path_run (PyStr.strip (path_str file_path)) s0)
        as (s1' & evs1' & E1' & _).
      rewrite E1'. cbn [fst]. rewrite En.
      split; [| exact Ho].
      rewrite downloads_app, Hd1. simpl. now rewrite Hd2.
    + exists (Return None), s1, evs1.
      split; [reflexivity |]. split; [exact Hl1 |].
      split; [discriminate |].
      intros _ s0.
      destruct (normalized_path_run (PyStr.strip (path_str file_path)) s0)
        as (s1' & evs1' & E1' & _).
      rewrite E1'. cbn [fst]. rewrite En. auto.
  - unfold_m. simpl. eexists; eexists; eexists.
    split; [reflexivity |]. simpl.
    split; [reflexivity |]. split; [auto | discriminate].
Qed.

End ImageService.

(* ===================================================================== *)
(** ** C2: path normalization                                             *)
(* ===================================================================== *)

Lemma first_char_not_prefix (a b : ascii) (p s : string) :
  a <> b -> String.prefix (String a "") s = true ->
  String.prefix (String b p) s = false.
Proof.
  intros N H. destruct s as [| c s]; [discriminate H |].
  rewrite prefix_char in H. apply Ascii.eqb_eq in H. subst c.
  rewrite prefix_cons.
  destruct (Ascii.eqb_spec b a); [congruence | reflexivity].
Qed.

Lemma prefix_first_char (a : ascii) (p s : string) :
  String.prefix (String a p) s = true -> String.prefix (String a "") s = true.
Proof.
  destruct s as [| c s]; [discriminate |].
  rewrite prefix_cons, prefix_char. now destruct (Ascii.eqb a c).
Qed.

Lemma isdigit_first_char (s : string) (c : ascii) (p : string) :
  PyStr.isdigit s = true -> PyStr.isdigit_char c = false ->
  String.prefix (String c p) s = false.
Proof.
  intros H Hc. destruct s as [| d s]; [reflexivity |].
  simpl in H. apply andb_true_iff in H. destruct H as [Hd _].
  rewrite prefix_cons. destruct (Ascii.eqb_spec c d); [congruence | reflexivity].
Qed.

Lemma slash_first_facts (s : string) :
  PyStr.startswith s "/" = true ->
  PyStr.startswith s "dbfs:/Volumes/" = false
  /\ PyStr.isdigit s = false
  /\ PyStr.contains s "/" = true.
Proof.
  unfold PyStr.startswith. intros H.
  assert (Hs : s <> "") by (intros ->; discriminate H).
  assert (Hc : PyStr.contains s "/" = true)
    by (now apply startswith_contains).
  split; [| split; [| exact Hc]].
  - apply (first_char_not_prefix "/" "d"); [discriminate | exact H].
  - now apply (contains_not_isdigit s "/").
Qed.

(** C2, as the code has it: the argument is first turned into a string
    and stripped of surrounding white space; call the result [s].  If [s]
    is "dbfs:" followed by a path that starts with "/Volumes/" and holds
    no further "dbfs:", that path is downloaded.  If [s] starts with
    "/Volumes/", [s] is downloaded.  If [s] has no "/" and ends (case
    ignored) in one of the six image extensions, the base directory, "/"
    and [s] is downloaded.  If [s] starts with "/", not with "/Volumes/",
    and "/Volumes/" first occurs at index [i], [s[i:]] is downloaded.  If
    [s] is all digits, or has no "/" and no such extension, or starts with
    "/" and holds no "/Volumes/", the method returns [None] and nothing is
    downloaded. *)
Theorem path_normalization (env : Env) (file_path : path_arg) (st : State) :
  path_truthy file_path = true ->
  let s := PyStr.strip (path_str file_path) in
  exists r st' evs,
    load_image_from_volume env file_path st = (r, st')
    /\ log st' = log st ++ evs
    /\ (forall rest,
          s = ("dbfs:" ++ rest)%string ->
          PyStr.startswith rest "/Volumes/" = true ->
          PyStr.contains rest "dbfs:" = false ->
          downloads evs = [rest])
    /\ (PyStr.startswith s "/Volumes/" = true -> downloads evs = [s])
    /\ (PyStr.contains s "/" = false ->
        has_image_extension s = true ->
        downloads evs = [(VOLUME_BASE_PATH ++ "/" ++ s)%string])
    /\ (PyStr.startswith s "/" = true ->
        PyStr.startswith s "/Volumes/" = false ->
        forall i, String.index 0 "/Volumes/" s = Some i ->
                  downloads evs = [PyStr.slice_from s (Z.of_nat i)])
    /\ (PyStr.isdigit s = true -> r = Return None /\ downloads evs = [])
    /\ (PyStr.contains s "/" = false ->
        has_image_extension s = false ->
        r = Return None /\ downloads evs = [])
    /\ (PyStr.startswith s "/" = true ->
        PyStr.contains s "/Volumes/" = false ->
        r = Return None /\ downloads evs = []).
Proof.
  intros Ht s.
  destruct (load_image_from_volume_run env file_path st)
    as (r & st' & evs & E & Hl & _ & Hrun).
  specialize (Hrun Ht st).
  destruct (normalized_path_run s st) as (s1 & evs1 & E1 & _).
  fold s in Hrun. rewrite E1 in Hrun. cbn [fst] in Hrun.
  exists r, st', evs. split; [exact E |]. split; [exact Hl |].
  repeat split.
  - intros rest Hs Hv Hn.
    assert (Hp : PyStr.startswith s "dbfs:/Volumes/" = true).
    { rewrite Hs. unfold PyStr.startswith in *. simpl append.
      rewrite !prefix_cons. simpl. exact Hv. }
    rewrite Hp in Hrun. rewrite Hs, replace_dbfs_prefix in Hrun by exact Hn.
    apply Hrun.
  - intros Hv.
    assert (Hp : PyStr.startswith s "dbfs:/Volumes/" = false).
    { unfold PyStr.startswith in *.
      apply (first_char_not_prefix "/" "d"); [discriminate |].
      now apply prefix_first_char in Hv. }
    rewrite Hp, Hv in Hrun. apply Hrun.
  - intros Hn He.
    destruct (no_slash_not_volume s Hn) as [Hp1 Hp2].
    pose proof (image_extension_has_dot s He) as Hdot.
    pose proof (contains_not_isdigit s "." eq_refl Hdot) as Hdig.
    rewrite Hp1, Hp2, Hdig, Hn, Hdot, He in Hrun. apply Hrun.
  - intros Hsl Hv i Hi.
    destruct (slash_first_facts s Hsl) as (Hp1 & Hdig & Hc).
    assert (Hcv : PyStr.contains s "/Volumes/" = true)
      by (unfold PyStr.contains; now rewrite Hi).
    assert (Hf : PyStr.find s "/Volumes/" = Z.of_nat i)
      by (unfold PyStr.find; now rewrite Hi).
    rewrite Hp1, Hv, Hdig, Hc, Hsl, Hcv, Hf in Hrun. apply Hrun.
  - assert (Hp1 := isdigit_first_char s "d" "bfs:/Volumes/" H eq_refl).
    assert (Hp2 := isdigit_first_char s "/" "Volumes/" H eq_refl).
    unfold PyStr.startswith in Hrun. rewrite Hp1, Hp2, H in Hrun. apply Hrun.
  - assert (Hp1 := isdigit_first_char s "d" "bfs:/Volumes/" H eq_refl).
    assert (Hp2 := isdigit_first_char s "/" "Volumes/" H eq_refl).
    unfold PyStr.startswith in Hrun. rewrite Hp1, Hp2, H in Hrun. apply Hrun.
  - destruct (no_slash_not_volume s H) as [Hp1 Hp2].
    rewrite Hp1, Hp2, H, H0, andb_false_r in Hrun.
    destruct (PyStr.isdigit s); apply Hrun.
  - destruct (no_slash_not_volume s H) as [Hp1 Hp2].
    rewrite Hp1, Hp2, H, H0, andb_false_r in Hrun.
    destruct (PyStr.isdigit s); apply Hrun.
  - destruct (slash_first_facts s H) as (Hp1 & Hdig & Hc).
    assert (Hv : PyStr.startswith s "/Volumes/" = false).
    { destruct (PyStr.startswith s "/Volumes/") eqn:Ev; [| reflexivity].
      apply startswith_contains in Ev; [congruence |].
      intros Hs. rewrite Hs in H. discriminate H. }
    rewrite Hp1, Hv, Hdig, Hc, H, H0 in Hrun. apply Hrun.
  - destruct (slash_first_facts s H) as (Hp1 & Hdig & Hc).
    assert (Hv : PyStr.startswith s "/Volumes/" = false).
    { destruct (PyStr.startswith s "/Volumes/") eqn:Ev; [| reflexivity].
      apply startswith_contains in Ev; [congruence |].
      intros Hs. rewrite Hs in H. discriminate H. }
    rewrite Hp1, Hv, Hdig, Hc, H, H0 in Hrun. apply Hrun.
Qed.

Lemma path_normalization_witness :
  let file_path := PathStr " /foo/Volumes/a/b/c.png " in
  let s := PyStr.strip (path_str file_path) in
  exists r st' evs,
    load_image_from_volume ex_env file_path initial_state = (r, st')
    /\ log st' = log initial_state ++ evs
    /\ (forall rest,
          s = ("dbfs:" ++ rest)%string ->
          PyStr.startswith rest "/Volumes/" = true ->
          PyStr.contains rest "dbfs:" = false ->
          downloads evs = [rest])
    /\ (PyStr.startswith s "/Volumes/" = true -> downloads evs = [s])
    /\ (PyStr.contains s "/" = false ->
        has_image_extension s = true ->
        downloads evs = [(VOLUME_BASE_PATH ++ "/" ++ s)%string])
    /\ (PyStr.startswith s "/" = true ->
        PyStr.startswith s "/Volumes/" = false ->
        forall i, String.index 0 "/Volumes/" s = Some i ->
                  downloads evs = [PyStr.slice_from s (Z.of_nat i)])
    /\ (PyStr.isdigit s = true -> r = Return None /\ downloads evs = [])
    /\ (PyStr.contains s "/" = false ->
        has_image_extension s = false ->
        r = Return None /\ downloads evs = [])
    /\ (PyStr.startswith s "/" = true ->
        PyStr.contains s "/Volumes/" = false ->
        r = Return None /\ downloads evs = []).
Proof.
  intros file_path s.
  apply (path_normalization ex_env file_path initial_state).
  reflexivity.
Defined.

(** The six cases of the specification, run on the example world. *)
Example normalization_cases :
  let got p := downloads (log (snd (load_image_from_volume ex_env (PathStr p)
                                      initial_state))) in
  got "dbfs:/Volumes/a/b/c.png" = ["/Volumes/a/b/c.png"]
  /\ got "/Volumes/a/b/c.png" = ["/Volumes/a/b/c.png"]
  /\ got "c.png" = ["/Volumes/demos/image_app/images/c.png"]
  /\ got "12345" = []
  /\ got "/etc/passwd" = []
  /\ got "/foo/Volumes/a/b/c.png" = ["/Volumes/a/b/c.png"].
Proof. vm_compute. repeat split. Qed.

(** C2 as stated fails where it says that a path starting with
    "/Volumes/" is used unchanged: white space at the end is stripped
    first. *)
Lemma path_normalization_counterexample :
  ~ (forall file_path,
       PyStr.startswith file_path "/Volumes/" = true ->
       downloads (log (snd (load_image_from_volume ex_env (PathStr file_path)
                              initial_state)))
       = [file_path]).
Proof.
  intros H. specialize (H "/Volumes/a/b/c.png " eq_refl).
  vm_compute in H. discriminate H.
Qed.

(** [replace] removes every "dbfs:", not only the leading one. *)
Example dbfs_removed_everywhere :
  downloads (log (snd (load_image_from_volume ex_env
                         (PathStr "dbfs:/Volumes/a/dbfs:b.png") initial_state)))
  = ["/Volumes/a/b.png"].
Proof. vm_compute. reflexivity. Qed.

(* ===================================================================== *)
(** ** C10: the image loader never raises                                 *)
(* ===================================================================== *)

(** C10: when what the Files API and PIL raise are instances of
    [Exception], [load_image_from_volume] returns for every argument,
    [None] included, and returns an image or [None]: [None] on a false
    argument, [None] when no download is attempted (the path was
    refused), and after a download of [p] the image if downloading,
    reading and decoding all succeed and [None] if any of them raises. *)
Theorem load_image_total (env : Env) (file_path : path_arg) (s : State) :
  ordinary_files env ->
  exists r s' evs,
    load_image_from_volume env file_path s = (Return r, s')
    /\ log s' = log s ++ evs
    /\ (path_truthy file_path = false -> r = None)
    /\ (downloads evs = [] \/ exists p, downloads evs = [p])
    /\ (downloads evs = [] -> r = None)
    /\ (forall p, downloads evs = [p] -> r = load_result env p)
    /\ (forall p e, downloads evs = [p] ->
                    env_files_download env p = Raise e -> r = None)
    /\ (forall p response d e,
          downloads evs = [p] ->
          env_files_download env p = Return response ->
          fst (read_file_data response initial_state) = Return (Bytes d) ->
          env_Image_open env d = Raise e -> r = None).
Proof.
  intros Ho.
  destruct (load_image_from_volume_run env file_path s)
    as (r & s' & evs & E & Hl & Hf & Ht).
  assert (Hr : exists v, r = Return v
                /\ (path_truthy file_path = false -> v = None)
                /\ (downloads evs = [] \/ exists p, downloads evs = [p])
                /\ (downloads evs = [] -> v = None)
                /\ (forall p, downloads evs = [p] -> v = load_result env p)).
  { destruct (path_truthy file_path) eqn:Et.
    - specialize (Ht eq_refl s).
      destruct (fst (normalized_path _ s)) as [[p |] | e].
      + destruct Ht as [Hd Hv]. specialize (Hv Ho). subst r.
        exists (load_result env p).
        split; [reflexivity |]. split; [discriminate |].
        split; [right; eauto |].
        split; [rewrite Hd; discriminate |].
        intros p' Hp'. rewrite Hd in Hp'. now injection Hp' as ->.
      + destruct Ht as [-> Hd]. exists None.
        split; [reflexivity |]. split; [auto |]. split; [auto |].
        split; [auto |]. intros p Hp. rewrite Hd in Hp. discriminate.
      + destruct Ht as [-> Hd]. exists None.
        split; [reflexivity |]. split; [auto |]. split; [auto |].
        split; [auto |]. intros p Hp. rewrite Hd in Hp. discriminate.
    - destruct (Hf eq_refl) as [-> Hd]. exists None.
      split; [reflexivity |]. split; [auto |]. split; [auto |].
      split; [auto |]. intros p Hp. rewrite Hd in Hp. discriminate. }
  destruct Hr as (v & -> & H1 & H2 & H3 & H4).
  exists v, s', evs.
  repeat (split; [assumption |]).
  split.
  - intros p e Hp He. rewrite (H4 p Hp). unfold load_result. now rewrite He.
  - intros p response d e Hp Hd Hb He. rewrite (H4 p Hp).
    unfold load_result. now rewrite Hd, Hb, He.
Qed.

Lemma ex_env_faulty_ordinary : ordinary_files ex_env_faulty.
Proof.
  split; [| split].
  - intros p e. simpl.
    destruct (PyStr.contains p "missing"); [intros [= <-]; reflexivity |].
    destruct (PyStr.contains p "reset"); discriminate.
  - intros p r. simpl.
    destruct (PyStr.contains p "missing"); [discriminate |].
    destruct (PyStr.contains p "reset"); intros [= <-]; split; simpl;
      intros e H; try discriminate H.
    now injection H as <-.
  - intros d e. simpl.
    destruct (PyStr.contains d "corrupt"); [intros [= <-]; reflexivity |].
    discriminate.
Qed.

Lemma load_image_total_witness :
  (exists r s' evs,
     load_image_from_volume ex_env_faulty
       (PathStr "dbfs:/Volumes/m/missing.png") initial_state = (Return r, s')
     /\ log s' = log initial_state ++ evs
     /\ (path_truthy (PathStr "dbfs:/Volumes/m/missing.png") = false -> r = None)
     /\ (downloads evs = [] \/ exists p, downloads evs = [p])
     /\ (downloads evs = [] -> r = None)
     /\ (forall p, downloads evs = [p] -> r = load_result ex_env_faulty p)
     /\ (forall p e, downloads evs = [p] ->
                     env_files_download ex_env_faulty p = Raise e -> r = None)
     /\ (forall p response d e,
           downloads evs = [p] ->
           env_files_download ex_env_faulty p = Return response ->
           fst (read_file_data response initial_state) = Return (Bytes d) ->
           env_Image_open ex_env_faulty d = Raise e -> r = None))
  /\ (exists r s' evs,
     load_image_from_volume ex_env_faulty
       (PathStr " /Volumes/m/corrupt.png ") initial_state = (Return r, s')
     /\ log s' = log initial_state ++ evs
     /\ (path_truthy (PathStr " /Volumes/m/corrupt.png ") = false -> r = None)
     /\ (downloads evs = [] \/ exists p, downloads evs = [p])
     /\ (downloads evs = [] -> r = None)
     /\ (forall p, downloads evs = [p] -> r = load_result ex_env_faulty p)
     /\ (forall p e, downloads evs = [p] ->
                     env_files_download ex_env_faulty p = Raise e -> r = None)
     /\ (forall p response d e,
           downloads evs = [p] ->
           env_files_download ex_env_faulty p = Return response ->
           fst (read_file_data response initial_state) = Return (Bytes d) ->
           env_Image_open ex_env_faulty d = Raise e -> r = None))
  /\ (exists r s' evs,
     load_image_from_volume ex_env_faulty
       (PathStr "/Volumes/m/a.png") initial_state = (Return r, s')
     /\ log s' = log initial_state ++ evs
     /\ (path_truthy (PathStr "/Volumes/m/a.png") = false -> r = None)
     /\ (downloads evs = [] \/ exists p, downloads evs = [p])
     /\ (downloads evs = [] -> r = None)
     /\ (forall p, downloads evs = [p] -> r = load_result ex_env_faulty p)
     /\ (forall p e, downloads evs = [p] ->
                     env_files_download ex_env_faulty p = Raise e -> r = None)
     /\ (forall p response d e,
           downloads evs = [p] ->
           env_files_download ex_env_faulty p = Return response ->
           fst (read_file_data response initial_state) = Return (Bytes d) ->
           env_Image_open ex_env_faulty d = Raise e -> r = None)).
Proof.
  split; [| split].
  - apply (load_image_total ex_env_faulty
             (PathStr "dbfs:/Volumes/m/missing.png") initial_state
             ex_env_faulty_ordinary).
  - apply (load_image_total ex_env_faulty
             (PathStr " /Volumes/m/corrupt.png ") initial_state
             ex_env_faulty_ordinary).
  - apply (load_image_total ex_env_faulty
             (PathStr "/Volumes/m/a.png") initial_state
             ex_env_faulty_ordinary).
Defined.

(** In that world: a download that is refused, a stream that breaks and
    bytes that are no image each end in [None], with the message shown;
    a sound file ends in its image. *)
Example failing_loads :
  fst (load_image_from_volume ex_env_faulty
         (PathStr "dbfs:/Volumes/m/missing.png") initial_state) = Return None
  /\ log (snd (load_image_from_volume ex_env_faulty
                 (PathStr "dbfs:/Volumes/m/missing.png") initial_state))
     = [Files_download "/Volumes/m/missing.png";
        St_error "404 Not Found"; St_info "Error type"]
  /\ fst (load_image_from_volume ex_env_faulty
            (PathStr "/Volumes/m/reset.png") initial_state) = Return None
  /\ fst (load_image_from_volume ex_env_faulty
            (PathStr " /Volumes/m/corrupt.png ") initial_state) = Return None
  /\ log (snd (load_image_from_volume ex_env_faulty
                 (PathStr " /Volumes/m/corrupt.png ") initial_state))
     = [Files_download "/Volumes/m/corrupt.png";
        St_error "cannot identify image file"; St_info "Error type"]
  /\ fst (load_image_from_volume ex_env_faulty
            (PathStr "/Volumes/m/a.png") initial_state)
     = Return (Some {| image_data := "/Volumes/m/a.png" |}).
Proof. vm_compute. repeat split; reflexivity. Qed.

(* ===================================================================== *)
(** ** The first connection, and a refresh that fails                     *)
(* ===================================================================== *)

(** X1: A manager without token and without pool: [get_connection] asks the
    identity provider once, without reading the clock first, stamps the
    token with the next clock reading, builds one pool whose connection
    string carries the token, and checks a connection out of it. *)
Theorem first_acquisition (env : Env) (s : State) (token : string) :
  postgres_password s = None ->
  connection_pool s = None ->
  env_oauth_token env (token_requests s) = Return token ->
  exists s',
    let pool := {| conninfo := conn_string env (Some token);
                   min_size := CONNECTION_POOL_MIN_SIZE;
                   max_size := CONNECTION_POOL_MAX_SIZE |} in
    get_connection env s
    = (match env_pool_connection env (checkouts s) with
       | Return _ => Return {| conn_pool := pool |}
       | Raise e => Raise e
       end, s')
    /\ postgres_password s' = Some token
    /\ last_password_refresh s' = env_time env (clock_reads s)
    /\ connection_pool s' = Some pool
    /\ log s' = log s ++ [Print "Refreshing PostgreSQL OAuth token";
                          Oauth_token_request;
                          Pool_create pool;
                          Pool_checkout pool].
Proof.
  intros Hp Hc Htok.
  destruct s as [pw last cp ds cr tr co lg]. simpl in *. subst pw cp.
  unfold get_connection, token_stale, get_connection_pool,
    refresh_oauth_token, token_stale. unfold_m. simpl.
  rewrite Htok. simpl.
  eexists. split; [reflexivity |]. simpl.
  repeat split. rewrite <- !app_assoc. reflexivity.
Qed.

Lemma first_acquisition_witness :
  exists s',
    let pool := {| conninfo := conn_string ex_env (Some "token");
                   min_size := CONNECTION_POOL_MIN_SIZE;
                   max_size := CONNECTION_POOL_MAX_SIZE |} in
    get_connection ex_env initial_state
    = (match env_pool_connection ex_env (checkouts initial_state) with
       | Return _ => Return {| conn_pool := pool |}
       | Raise e => Raise e
       end, s')
    /\ postgres_password s' = Some "token"
    /\ last_password_refresh s' = env_time ex_env (clock_reads initial_state)
    /\ connection_pool s' = Some pool
    /\ log s' = log initial_state
                ++ [Print "Refreshing PostgreSQL OAuth token";
                    Oauth_token_request;
                    Pool_create pool;
                    Pool_checkout pool].
Proof.
  apply (first_acquisition ex_env initial_state "token"); reflexivity.
Defined.

(** X2: A manager without token and without pool, and an identity provider
    that fails: [get_connection] shows the error and stops the script
    ([st.stop()]); no pool is built, no connection is checked out, and the
    manager is left as it was. *)
Theorem refresh_failure_stops (env : Env) (s : State) (e : exn) :
  postgres_password s = None ->
  connection_pool s = None ->
  env_oauth_token env (token_requests s) = Raise e ->
  isinstance_Exception e = true ->
  exists s',
    get_connection env s = (Raise (mk_exn StopException ""), s')
    /\ postgres_password s' = None
    /\ connection_pool s' = None
    /\ last_password_refresh s' = last_password_refresh s
    /\ checkouts s' = checkouts s
    /\ log s' = log s ++ [Print "Refreshing PostgreSQL OAuth token";
                          Oauth_token_request;
                          St_error (exn_msg e)].
Proof.
  intros Hp Hc Htok He.
  destruct s as [pw last cp ds cr tr co lg]. simpl in *. subst pw cp.
  unfold get_connection, token_stale, get_connection_pool,
    refresh_oauth_token, token_stale. unfold_m. simpl.
  rewrite Htok, He. simpl.
  eexists. split; [reflexivity |]. simpl.
  repeat split. rewrite <- !app_assoc. reflexivity.
Qed.

Lemma refresh_failure_stops_witness :
  exists s',
    get_connection ex_env_no_token initial_state
    = (Raise (mk_exn StopException ""), s')
    /\ postgres_password s' = None
    /\ connection_pool s' = None
    /\ last_password_refresh s' = last_password_refresh initial_state
    /\ checkouts s' = checkouts initial_state
    /\ log s' = log initial_state
                ++ [Print "Refreshing PostgreSQL OAuth token";
                    Oauth_token_request;
                    St_error (exn_msg (mk_exn Exception "invalid client"))].
Proof.
  apply (refresh_failure_stops ex_env_no_token initial_state
           (mk_exn Exception "invalid client")); reflexivity.
Defined.

(** X3: A stale token and a provider that fails: by the time the refresh is
    tried the pool has been closed and dropped, so the manager is left
    without a pool, with the stale token and its old time stamp, and the
    script is stopped. *)
Theorem stale_refresh_failure_drops_pool (env : Env) (s : State)
  (token : string) (T : Q) (pool : ConnectionPool) (e : exn) :
  postgres_password s = Some token ->
  last_password_refresh s = T ->
  connection_pool s = Some pool ->
  (T + 900 < env_time env (clock_reads s))%Q ->
  monotone_clock env ->
  env_oauth_token env (token_requests s) = Raise e ->
  isinstance_Exception e = true ->
  exists s',
    get_connection env s = (Raise (mk_exn StopException ""), s')
    /\ postgres_password s' = Some token
    /\ last_password_refresh s' = T
    /\ connection_pool s' = None
    /\ checkouts s' = checkouts s
    /\ log s' = log s ++ [Pool_close pool;
                          Print "Refreshing PostgreSQL OAuth token";
                          Oauth_token_request;
                          St_error (exn_msg e)].
Proof.
  intros Hp Hl Hc Ht Hmono Htok He.
  destruct s as [pw last cp ds cr tr co lg]. simpl in *. subst pw last cp.
  assert (Ht2 : (T + 900 < env_time env (S cr))%Q).
  { eapply Qlt_le_trans; [exact Ht | apply Hmono]. }
  unfold get_connection, token_stale, get_connection_pool,
    refresh_oauth_token, token_stale. unfold_m. simpl.
  rewrite (stale _ _ Ht). simpl.
  rewrite (stale _ _ Ht2). simpl.
  rewrite Htok, He. simpl.
  eexists. split; [reflexivity |]. simpl.
  repeat split. rewrite <- !app_assoc. reflexivity.
Qed.

Lemma stale_refresh_failure_drops_pool_witness :
  let env := ex_env_expiring in
  let s := snd (get_connection env initial_state) in
  let pool := {| conninfo := conn_string env (Some "token");
                 min_size := CONNECTION_POOL_MIN_SIZE;
                 max_size := CONNECTION_POOL_MAX_SIZE |} in
  exists s',
    get_connection env s = (Raise (mk_exn StopException ""), s')
    /\ postgres_password s' = Some "token"
    /\ last_password_refresh s' = 0%Q
    /\ connection_pool s' = None
    /\ checkouts s' = checkouts s
    /\ log s' = log s ++ [Pool_close pool;
                          Print "Refreshing PostgreSQL OAuth token";
                          Oauth_token_request;
                          St_error (exn_msg (mk_exn Exception "invalid client"))].
Proof.
  intros env s pool.
  refine (stale_refresh_failure_drops_pool env s "token" 0%Q pool
            (mk_exn Exception "invalid client")
            eq_refl eq_refl eq_refl _ _ eq_refl eq_refl).
  - vm_compute. reflexivity.
  - intros [| n]; vm_compute; discriminate.
Defined.

(* ===================================================================== *)
(** ** The two methods that catch                                         *)
(* ===================================================================== *)

Lemma raises_only_try_except {A : Type} (c : M A) (h : exn -> M A) :
  (forall e, raises_only (h e) (fun _ => False)) ->
  raises_only (try_except c isinstance_Exception h)
              (fun e => isinstance_Exception e = false).
Proof.
  intros Hh s e s' H. unfold try_except in H.
  destruct (c s) as [[a | e0] s1]; [discriminate H |].
  destruct (isinstance_Exception e0) eqn:E.
  - destruct (Hh e0 _ _ _ H).
  - now injection H as <- _.
Qed.

Lemma raises_only_bind {A B : Type} (c : M A) (f : A -> M B)
  (P : exn -> Prop) :
  raises_only c P -> (forall a, raises_only (f a) P) ->
  raises_only (bind c f) P.
Proof.
  intros Hc Hf s e s' H. unfold bind in H.
  destruct (c s) as [[a | e0] s1] eqn:E.
  - exact (Hf a _ _ _ H).
  - injection H as <- _. exact (Hc _ _ _ E).
Qed.

Lemma check_table_exists_raises (env : Env) (schema : option string)
  (table : string) :
  raises_only (check_table_exists env schema table)
              (fun e => isinstance_Exception e = false).
Proof.
  unfold check_table_exists. apply raises_only_bind.
  - intros s0 e0 s0' H0. rewrite schema_or_default_run in H0.
    discriminate H0.
  - intros sc. apply raises_only_try_except.
    intros e0 s0 e1 s1 H0. discriminate H0.
Qed.

(** X4: Whatever the world does, the three methods with a catch-all handler,
    [check_table_exists], [find_table_schema] and
    [load_image_from_volume], let no instance of [Exception] out: what
    they raise, if anything, is outside that class, as the exception of
    [st.stop()] is. *)
Theorem catching_methods_contain_exceptions (env : Env)
  (schema : option string) (table : string) (file_path : path_arg)
  (s s' : State) (e : exn) :
  (check_table_exists env schema table s = (Raise e, s') ->
   isinstance_Exception e = false)
  /\ (find_table_schema env table s = (Raise e, s') ->
      isinstance_Exception e = false)
  /\ (load_image_from_volume env file_path s = (Raise e, s') ->
      isinstance_Exception e = false).
Proof.
  assert (Hh : forall A (h : exn -> M A),
             (forall e0, raises_only (h e0) (fun _ => False)) ->
             forall c, raises_only (try_except c isinstance_Exception h)
                         (fun e => isinstance_Exception e = false))
    by (intros A h Hh c; now apply raises_only_try_except).
  pose proof (check_table_exists_raises env schema table) as R1.
  assert (R2 : raises_only (find_table_schema env table)
                 (fun e => isinstance_Exception e = false)).
  { unfold find_table_schema. apply Hh.
    intros e0 s0 e1 s1 H0. discriminate H0. }
  assert (R3 : raises_only (load_image_from_volume env file_path)
                 (fun e => isinstance_Exception e = false)).
  { unfold load_image_from_volume. apply Hh.
    intros e0 s0 e1 s1 H0. discriminate H0. }
  split; [| split]; intros H;
    [exact (R1 _ _ _ H) | exact (R2 _ _ _ H) | exact (R3 _ _ _ H)].
Qed.

(** X5: When no connection can be had: an instance of [Exception] makes
    [check_table_exists] show its message and return false, and makes
    [find_table_schema] return [None] without a message; no statement is
    run and [config.DEFAULT_SCHEMA] stays.  An exception outside that
    class leaves both methods as it is. *)
Theorem connection_failure_outcome (env : Env) (schema : option string)
  (table : string) (s s' : State) (e : exn) :
  get_connection env s = (Raise e, s') ->
  (isinstance_Exception e = true ->
   exists s'',
     check_table_exists env schema table s = (Return false, s'')
     /\ log s'' = log s' ++ [St_error (exn_msg e)]
     /\ DEFAULT_SCHEMA s'' = DEFAULT_SCHEMA s
     /\ find_table_schema env table s = (Return None, s'))
  /\ (isinstance_Exception e = false ->
      check_table_exists env schema table s = (Raise e, s')
      /\ find_table_schema env table s = (Raise e, s')).
Proof.
  intros H.
  assert (Hc : forall body : Connection -> M bool,
             with_connection env body s = (Raise e, s'))
    by (intros body; now apply with_connection_raise).
  assert (Hf : forall body : Connection -> M (option sqlval),
             with_connection env body s = (Raise e, s'))
    by (intros body; now apply with_connection_raise).
  pose proof (keeps_schema_get_connection env s) as Hk.
  rewrite H in Hk. simpl in Hk.
  split; intros He.
  - exists (snd (st_error (exn_msg e) s')).
    unfold check_table_exists, find_table_schema.
    rewrite (bind_return _ _ _ _ _ (schema_or_default_run schema s)).
    unfold try_except. rewrite Hc, Hf, He.
    repeat split. exact Hk.
  - unfold check_table_exists, find_table_schema.
    rewrite (bind_return _ _ _ _ _ (schema_or_default_run schema s)).
    unfold try_except. rewrite Hc, Hf, He. split; reflexivity.
Qed.

Lemma connection_failure_outcome_witness :
  let e := mk_exn Exception "connection refused" in
  let s' := snd (get_connection ex_env_down initial_state) in
  exists s'',
    check_table_exists ex_env_down None TABLE_NAME initial_state
    = (Return false, s'')
    /\ log s'' = log s' ++ [St_error (exn_msg e)]
    /\ DEFAULT_SCHEMA s'' = DEFAULT_SCHEMA initial_state
    /\ find_table_schema ex_env_down TABLE_NAME initial_state
       = (Return None, s').
Proof.
  intros e s'.
  refine (proj1 (connection_failure_outcome ex_env_down None TABLE_NAME
                   initial_state s' e _) eq_refl).
  vm_compute. reflexivity.
Defined.

(* ===================================================================== *)
(** ** The filters, row by row                                            *)
(* ===================================================================== *)

Lemma forallb_append_condition (cp : list condition * list sqlval)
  (c : condition) (p : sqlval) (r : ImageRecord) :
  List.length (fst cp) = List.length (snd cp) ->
  forallb (eval_condition r)
          (combine (fst (append_condition cp c p))
                   (snd (append_condition cp c p)))
  = forallb (eval_condition r) (combine (fst cp) (snd cp))
    && eval_condition r (c, p).
Proof.
  intros H. unfold append_condition. cbn [fst snd].
  rewrite combine_snoc by assumption.
  rewrite forallb_app. simpl. now rewrite andb_true_r.
Qed.

Lemma forallb_when_str (cp : list condition * list sqlval) (o : option string)
  (c : string) (op : cmp_op) (r : ImageRecord) :
  well_formed cp ->
  forallb (eval_condition r)
    (combine (fst (when_str o cp (fun x => append_condition cp (Cmp c op) (Text x))))
             (snd (when_str o cp (fun x => append_condition cp (Cmp c op) (Text x)))))
  = forallb (eval_condition r) (combine (fst cp) (snd cp))
    && when_str o true (fun x => eval_condition r (Cmp c op, Text x)).
Proof.
  intros (Hl & _). unfold when_str.
  destruct o as [x |]; [destruct (String.eqb x "") |];
    rewrite ?andb_true_r; try reflexivity.
  now apply forallb_append_condition.
Qed.

Lemma forallb_when_not_None (cp : list condition * list sqlval) (o : option Q)
  (c : string) (op : cmp_op) (r : ImageRecord) :
  well_formed cp ->
  forallb (eval_condition r)
    (combine (fst (when_not_None o cp
                     (fun m => append_condition cp (Cmp c op) (Numeric m))))
             (snd (when_not_None o cp
                     (fun m => append_condition cp (Cmp c op) (Numeric m)))))
  = forallb (eval_condition r) (combine (fst cp) (snd cp))
    && when_not_None o true (fun m => eval_condition r (Cmp c op, Numeric m)).
Proof.
  intros (Hl & _). unfold when_not_None.
  destruct o as [m |]; rewrite ?andb_true_r; try reflexivity.
  now apply forallb_append_condition.
Qed.

Lemma well_formed_when_str (cp : list condition * list sqlval)
  (o : option string) (c : string) (op : cmp_op) :
  well_formed cp ->
  (forall x, well_typed (Cmp c op, Text x) = true) ->
  well_formed (when_str o cp (fun x => append_condition cp (Cmp c op) (Text x))).
Proof.
  intros H Hw. unfold when_str.
  destruct o as [x |]; [destruct (String.eqb x "") |]; try assumption.
  now apply well_formed_append.
Qed.

Lemma well_formed_when_not_None (cp : list condition * list sqlval)
  (o : option Q) (c : string) (op : cmp_op) :
  well_formed cp ->
  (forall m, well_typed (Cmp c op, Numeric m) = true) ->
  well_formed (when_not_None o cp
                 (fun m => append_condition cp (Cmp c op) (Numeric m))).
Proof.
  intros H Hw. unfold when_not_None.
  destruct o as [m |]; try assumption.
  now apply well_formed_append.
Qed.

Lemma forallb_search (search_term : option string) (r : ImageRecord) :
  forallb (eval_condition r)
          (combine (fst (search_condition ([], []) search_term))
                   (snd (search_condition ([], []) search_term)))
  = search_matches search_term r.
Proof.
  unfold search_condition, search_matches, when_str.
  destruct search_term as [x |]; [destruct (String.eqb x "") |];
    try reflexivity.
  cbn [append_condition fst snd app combine forallb].
  now rewrite andb_true_r.
Qed.

Ltac well_formed_conditions :=
  repeat first [ apply well_formed_when_not_None
               | apply well_formed_when_str
               | apply well_formed_search
               | apply well_formed_nil
               | intro; reflexivity ].

(** The conditions the code builds say what [matches] says. *)
Lemma row_passes_matches (search_term label label_detail : option string)
  (min_score max_score : option Q) (r : ImageRecord) :
  row_passes search_term label label_detail min_score max_score r
  = matches search_term label label_detail min_score max_score r.
Proof.
  unfold row_passes, matches, label_score_conditions.
  cbv zeta.
  rewrite forallb_when_not_None by well_formed_conditions.
  rewrite forallb_when_not_None by well_formed_conditions.
  rewrite forallb_when_str by well_formed_conditions.
  rewrite forallb_when_str by well_formed_conditions.
  rewrite forallb_search.
  f_equal; [f_equal; [f_equal; [f_equal |] |] |].
  - unfold text_matches, when_str.
    destruct label as [x |]; [destruct (String.eqb x "") |]; try reflexivity.
    unfold eval_condition, column_value. simpl.
    destruct (label r); reflexivity.
  - unfold text_matches, when_str.
    destruct label_detail as [x |]; [destruct (String.eqb x "") |];
      try reflexivity.
    unfold eval_condition, column_value. simpl.
    destruct (labelDetail r); reflexivity.
  - unfold min_matches, when_not_None.
    destruct min_score as [m |]; [| reflexivity].
    unfold eval_condition, column_value. simpl.
    destruct (score r); reflexivity.
  - unfold max_matches, when_not_None.
    destruct max_score as [m |]; [| reflexivity].
    unfold eval_condition, column_value. simpl.
    destruct (score r); reflexivity.
Qed.

Lemma filter_row_passes (search_term label label_detail : option string)
  (min_score max_score : option Q) (rows : list ImageRecord) :
  filter (fun r =>
            forallb (eval_condition r)
              (combine
                 (fst (label_score_conditions
                         (search_condition ([], []) search_term)
                         label label_detail min_score max_score))
                 (snd (label_score_conditions
                         (search_condition ([], []) search_term)
                         label label_detail min_score max_score)))) rows
  = filter (matches search_term label label_detail min_score max_score) rows.
Proof.
  apply filter_ext. intros r.
  exact (row_passes_matches search_term label label_detail
           min_score max_score r).
Qed.

Lemma execute_select_count (db : Database) (t : Table) (schema : string)
  (cp : list condition * list sqlval) :
  lookup_table db (schema, TABLE_NAME) = Some t ->
  well_formed cp ->
  casts_succeed (combine (fst cp) (snd cp)) (table_rows t) ->
  execute_select db
    {| sel_proj := CountStar;
       sel_from := (schema, TABLE_NAME);
       sel_where := fst cp;
       sel_order_by := false;
       sel_limit_offset := false |} (snd cp)
  = Return [[Integer (Z.of_nat (List.length
      (filter (fun r => forallb (eval_condition r) (combine (fst cp) (snd cp)))
              (table_rows t))))]].
Proof.
  intros Ht (Hl & Hc & Hw) Hcast. unfold execute_select. simpl. rewrite Ht.
  pose proof (bind_params_cmp (fst cp) (snd cp) [] Hl Hc) as Hb.
  rewrite app_nil_r in Hb. rewrite Hb, Hw. simpl.
  rewrite (scan_filter _ _ Hcast). reflexivity.
Qed.

(** LIMIT and OFFSET are checked before a row is read: a parameter that is
    not a [bigint] or is negative is refused whatever the table holds. *)
Lemma limit_offset_refused (l o : Z) (rows : result (list sqlval)) :
  (l < 0 \/ o < 0 \/ 2 ^ 63 <= l \/ 2 ^ 63 <= o)%Z ->
  limit_offset l o rows
  = Raise (sql_error
             (if negb (is_bigint l && is_bigint o) then "bigint out of range"
              else if (o <? 0)%Z then "OFFSET must not be negative"
                   else "LIMIT must not be negative")).
Proof.
  intros H. unfold limit_offset.
  destruct (negb (is_bigint l && is_bigint o)) eqn:E; [reflexivity |].
  apply negb_false_iff, andb_true_iff in E. destruct E as [El Eo].
  apply is_bigint_iff in El, Eo.
  destruct (Z.ltb_spec o 0); [reflexivity |].
  destruct (Z.ltb_spec l 0); [reflexivity | lia].
Qed.

Lemma execute_select_refused (db : Database) (t : Table) (schema : string)
  (cp : list condition * list sqlval) (l o : Z) :
  lookup_table db (schema, TABLE_NAME) = Some t ->
  well_formed cp ->
  (l < 0 \/ o < 0 \/ 2 ^ 63 <= l \/ 2 ^ 63 <= o)%Z ->
  execute_select db
    {| sel_proj := Column false PATH_COLUMN;
       sel_from := (schema, TABLE_NAME);
       sel_where := fst cp;
       sel_order_by := true;
       sel_limit_offset := true |} (snd cp ++ [Integer l; Integer o])
  = Raise (sql_error
             (if negb (is_bigint l && is_bigint o) then "bigint out of range"
              else if (o <? 0)%Z then "OFFSET must not be negative"
                   else "LIMIT must not be negative")).
Proof.
  intros Ht (Hl & Hc & Hw) Hneg. unfold execute_select. simpl. rewrite Ht.
  rewrite (bind_params_cmp (fst cp) (snd cp) _ Hl Hc), Hw. simpl.
  now rewrite limit_offset_refused.
Qed.

Section FilteredQueries.

Variable env : Env.
Hypothesis Hh : healthy env.
Variable sch : string.
Variable rows : list ImageRecord.
Hypothesis Htable : has_table (env_server env) sch TABLE_NAME rows.

Lemma get_image_paths_filtered (limit offset : Z)
  (search_term label label_detail : option string)
  (min_score max_score : option Q) (schema : option string) (s : State) :
  bounds_castable min_score max_score rows ->
  (0 <= limit < 2 ^ 63)%Z -> (0 <= offset < 2 ^ 63)%Z ->
  resolve schema s = sch ->
  exists s',
    get_image_paths env limit offset search_term label label_detail
                    min_score max_score schema s
    = (Return (map tuple1 (map Text
         (firstn (Z.to_nat limit) (skipn (Z.to_nat offset)
            (matching_paths search_term label label_detail
                            min_score max_score rows))))),
       s')
    /\ resolve schema s' = sch.
Proof.
  intros Hcast Hl Ho Hr. destruct Htable as (t & Ht & Hrows).
  unfold get_image_paths.
  rewrite (bind_return _ _ _ _ _ (schema_or_default_run schema s)).
  match goal with
  | |- context [with_connection env ?body s] =>
      destruct (with_connection_healthy env Hh body s)
        as (conn & s1 & evs & E & Hd & _)
  end.
  rewrite E. cbv beta zeta. rewrite Hr.
  match goal with
  | |- context [cur_execute env ?q ?ps] =>
      destruct (cur_execute_run env q ps s1) as (s2 & E2 & Hd2 & _)
  end.
  simpl execute in E2.
  rewrite (execute_select_page _ t) in E2;
    [| assumption
     | apply well_formed_label_score, well_formed_search, well_formed_nil
     | rewrite Hrows; now apply casts_succeed_conditions
     | assumption | assumption].
  rewrite (bind_return _ _ _ _ _ E2), Hrows, filter_row_passes.
  rewrite skipn_map, firstn_map.
  exists s2. split; [reflexivity |].
  rewrite <- Hr. apply resolve_same. congruence.
Qed.

Lemma get_image_paths_refused (limit offset : Z)
  (search_term label label_detail : option string)
  (min_score max_score : option Q) (schema : option string) (s : State) :
  (limit < 0 \/ offset < 0 \/ 2 ^ 63 <= limit \/ 2 ^ 63 <= offset)%Z ->
  resolve schema s = sch ->
  exists s',
    get_image_paths env limit offset search_term label label_detail
                    min_score max_score schema s
    = (Raise (sql_error
                (if negb (is_bigint limit && is_bigint offset)
                 then "bigint out of range"
                 else if (offset <? 0)%Z then "OFFSET must not be negative"
                      else "LIMIT must not be negative")), s').
Proof.
  intros Hneg Hr. destruct Htable as (t & Ht & Hrows).
  unfold get_image_paths.
  rewrite (bind_return _ _ _ _ _ (schema_or_default_run schema s)).
  match goal with
  | |- context [with_connection env ?body s] =>
      destruct (with_connection_healthy env Hh body s)
        as (conn & s1 & evs & E & Hd & _)
  end.
  rewrite E. cbv beta zeta. rewrite Hr.
  match goal with
  | |- context [cur_execute env ?q ?ps] =>
      destruct (cur_execute_run env q ps s1) as (s2 & E2 & Hd2 & _)
  end.
  simpl execute in E2.
  rewrite (execute_select_refused _ t) in E2;
    [| assumption
     | apply well_formed_label_score, well_formed_search, well_formed_nil
     | assumption].
  exists s2. now apply bind_raise.
Qed.

Lemma get_total_image_count_run
  (search_term label label_detail : option string)
  (min_score max_score : option Q) (schema : option string) (s : State) :
  bounds_castable min_score max_score rows ->
  resolve schema s = sch ->
  exists s',
    get_total_image_count env search_term label label_detail
                          min_score max_score schema s
    = (Return (Integer (Z.of_nat (List.length
         (filter (matches search_term label label_detail min_score max_score)
                 rows)))), s')
    /\ resolve schema s' = sch.
Proof.
  intros Hcast Hr. destruct Htable as (t & Ht & Hrows).
  unfold get_total_image_count.
  rewrite (bind_return _ _ _ _ _ (schema_or_default_run schema s)).
  match goal with
  | |- context [with_connection env ?body s] =>
      destruct (with_connection_healthy env Hh body s)
        as (conn & s1 & evs & E & Hd & _)
  end.
  rewrite E. cbv beta zeta. rewrite Hr.
  match goal with
  | |- context [cur_execute env ?q ?ps] =>
      destruct (cur_execute_run env q ps s1) as (s2 & E2 & Hd2 & _)
  end.
  simpl execute in E2.
  rewrite (execute_select_count _ t) in E2;
    [| assumption
     | apply well_formed_label_score, well_formed_search, well_formed_nil
     | rewrite Hrows; now apply casts_succeed_conditions].
  rewrite (bind_return _ _ _ _ _ E2), Hrows, filter_row_passes.
  exists s2. split; [reflexivity |].
  rewrite <- Hr. apply resolve_same. congruence.
Qed.

End FilteredQueries.

Lemma sort_str_length (l : list string) :
  List.length (sort_str l) = List.length l.
Proof. apply Permutation_length, Permutation_sym, sort_str_perm. Qed.

Lemma matching_paths_length (search_term label label_detail : option string)
  (min_score max_score : option Q) (rows : list ImageRecord) :
  List.length (matching_paths search_term label label_detail
                              min_score max_score rows)
  = List.length (filter (matches search_term label label_detail
                                 min_score max_score) rows).
Proof. unfold matching_paths. now rewrite sort_str_length, length_map. Qed.

(** X6: A page of [get_image_paths], for any filters, the search term
    included: the paths of the rows that pass are put in code-point order,
    [offset] of them are skipped and at most [limit] of the rest are
    returned, each as a 1-tuple.  [limit] and [offset] are [bigint]s that
    are not negative, and a score bound is given only where every score
    can be cast to [float8]; the bounds are compared with the scores as
    binary64 numbers. *)
Theorem page_is_window (env : Env) (sch : string) (rows : list ImageRecord)
  (limit offset : Z) (search_term label label_detail : option string)
  (min_score max_score : option Q) (schema : option string) (s : State) :
  healthy env ->
  has_table (env_server env) sch TABLE_NAME rows ->
  resolve schema s = sch ->
  bounds_castable min_score max_score rows ->
  (0 <= limit < 2 ^ 63)%Z -> (0 <= offset < 2 ^ 63)%Z ->
  exists all,
    StronglySorted str_le all
    /\ Permutation all
         (map path (filter (matches search_term label label_detail
                                    min_score max_score) rows))
    /\ fst (get_image_paths env limit offset search_term label label_detail
                            min_score max_score schema s)
       = Return (map (fun p => [Text p])
                     (firstn (Z.to_nat limit) (skipn (Z.to_nat offset) all))).
Proof.
  intros Hh Ht Hr Hcast Hl Ho.
  destruct (get_image_paths_filtered env Hh sch rows Ht limit offset
              search_term label label_detail min_score max_score schema s
              Hcast Hl Ho Hr) as (s' & E & _).
  exists (matching_paths search_term label label_detail
                         min_score max_score rows).
  split; [apply sort_str_sorted |].
  split; [apply Permutation_sym, sort_str_perm |].
  rewrite E. cbn [fst]. now rewrite map_map.
Qed.

Lemma page_is_window_witness :
  exists all,
    StronglySorted str_le all
    /\ Permutation all
         (map path (filter (matches (Some "PNG") (Some "cat") None
                                    None (Some (1 # 10)))
                           ex_rows_decimal))
    /\ fst (get_image_paths ex_env_decimal 1 1 (Some "PNG") (Some "cat") None
                            None (Some (1 # 10)) (Some "alt") initial_state)
       = Return (map (fun p => [Text p])
                     (firstn (Z.to_nat 1) (skipn (Z.to_nat 1) all))).
Proof.
  apply (page_is_window ex_env_decimal "alt" ex_rows_decimal 1 1
           (Some "PNG") (Some "cat") None None (Some (1 # 10)) (Some "alt")
           initial_state ex_decimal_healthy ex_decimal_has_table);
    [reflexivity | right; vm_compute; reflexivity | lia | lia].
Defined.

(** The bound 0.1 is the binary64 number next to 0.1, and so is what the
    scores 0.1 and 0.10000000000000001 are cast to: both rows pass
    [score <= 0.1], and the second page of one holds the second of them. *)
Example page_of_decimals :
  fst (get_image_paths ex_env_decimal 1 1 (Some "PNG") (Some "cat") None
                       None (Some (1 # 10)) (Some "alt") initial_state)
  = Return [[Text "/Volumes/m/e.png"]]
  /\ fst (get_total_image_count ex_env_decimal None None None
                                None (Some (1 # 10)) (Some "alt") initial_state)
     = Return (Integer 2).
Proof. vm_compute. split; reflexivity. Qed.

(** X7: [get_total_image_count] returns the number of rows that pass the
    filters, and that is what the pages add up to: the page at [offset]
    with [limit] (two [bigint]s that are not negative) holds
    [min limit (count - offset)] paths.  A score bound is given only where
    every score can be cast to [float8]. *)
Theorem count_matches_pages (env : Env) (sch : string)
  (rows : list ImageRecord) (search_term label label_detail : option string)
  (min_score max_score : option Q) (schema : option string) (s : State) :
  healthy env ->
  has_table (env_server env) sch TABLE_NAME rows ->
  resolve schema s = sch ->
  bounds_castable min_score max_score rows ->
  exists n s1,
    get_total_image_count env search_term label label_detail
                          min_score max_score schema s
    = (Return (Integer (Z.of_nat n)), s1)
    /\ n = List.length (filter (matches search_term label label_detail
                                        min_score max_score) rows)
    /\ forall limit offset,
         (0 <= limit < 2 ^ 63)%Z -> (0 <= offset < 2 ^ 63)%Z ->
         exists page s2,
           get_image_paths env limit offset search_term label label_detail
                           min_score max_score schema s1
           = (Return page, s2)
           /\ List.length page
              = Nat.min (Z.to_nat limit) (n - Z.to_nat offset).
Proof.
  intros Hh Ht Hr Hcast.
  destruct (get_total_image_count_run env Hh sch rows Ht search_term label
              label_detail min_score max_score schema s Hcast Hr)
    as (s1 & E1 & Hr1).
  eexists; exists s1. split; [exact E1 |]. split; [reflexivity |].
  intros limit offset Hl Ho.
  destruct (get_image_paths_filtered env Hh sch rows Ht limit offset
              search_term label label_detail min_score max_score schema s1
              Hcast Hl Ho Hr1) as (s2 & E2 & _).
  eexists; exists s2. split; [exact E2 |].
  rewrite !length_map, length_firstn, length_skipn, matching_paths_length.
  reflexivity.
Qed.

Lemma count_matches_pages_witness :
  exists n s1,
    get_total_image_count ex_env_decimal (Some "PNG") (Some "cat") None
                          (Some (1 # 10)) None (Some "alt") initial_state
    = (Return (Integer (Z.of_nat n)), s1)
    /\ n = List.length (filter (matches (Some "PNG") (Some "cat") None
                                        (Some (1 # 10)) None)
                               ex_rows_decimal)
    /\ forall limit offset,
         (0 <= limit < 2 ^ 63)%Z -> (0 <= offset < 2 ^ 63)%Z ->
         exists page s2,
           get_image_paths ex_env_decimal limit offset (Some "PNG")
                           (Some "cat") None (Some (1 # 10)) None
                           (Some "alt") s1
           = (Return page, s2)
           /\ List.length page
              = Nat.min (Z.to_nat limit) (n - Z.to_nat offset).
Proof.
  apply (count_matches_pages ex_env_decimal "alt" ex_rows_decimal
           (Some "PNG") (Some "cat") None (Some (1 # 10)) None (Some "alt")
           initial_state ex_decimal_healthy ex_decimal_has_table);
    [reflexivity | right; vm_compute; reflexivity].
Defined.

(** X8: [get_image_paths] hands [limit] and [offset] to the server as they
    are: a negative one is refused there, and the server's error leaves
    the method as an exception. *)
Theorem negative_limit_or_offset_raises (env : Env) (sch : string)
  (rows : list ImageRecord) (limit offset : Z)
  (search_term label label_detail : option string)
  (min_score max_score : option Q) (schema : option string) (s : State) :
  healthy env ->
  has_table (env_server env) sch TABLE_NAME rows ->
  resolve schema s = sch ->
  (limit < 0 \/ offset < 0)%Z ->
  exists e,
    fst (get_image_paths env limit offset search_term label label_detail
                         min_score max_score schema s) = Raise e
    /\ isinstance_Exception e = true.
Proof.
  intros Hh Ht Hr Hneg.
  destruct (get_image_paths_refused env Hh sch rows Ht limit offset
              search_term label label_detail min_score max_score schema s)
    as (s' & E); [lia | exact Hr |].
  eexists. rewrite E. split; reflexivity.
Qed.

Lemma negative_limit_or_offset_raises_witness :
  exists e,
    fst (get_image_paths ex_env 24 (-24) None None None None None
                         (Some "alt") initial_state) = Raise e
    /\ isinstance_Exception e = true.
Proof.
  apply (negative_limit_or_offset_raises ex_env "alt" ex_rows 24 (-24)
           None None None None None (Some "alt") initial_state
           ex_env_healthy ex_has_table); [reflexivity | lia].
Defined.

(* ===================================================================== *)
(** ** The search term as a LIKE pattern                                  *)
(* ===================================================================== *)

Lemma append_nil_r (s : string) : (s ++ "")%string = s.
Proof. induction s as [| c s IH]; simpl; congruence. Qed.

Lemma append_assoc (a b c : string) :
  ((a ++ b) ++ c)%string = (a ++ b ++ c)%string.
Proof. induction a as [| x a IH]; simpl; congruence. Qed.

Lemma lower_append (a b : string) :
  PyStr.lower (a ++ b) = (PyStr.lower a ++ PyStr.lower b)%string.
Proof. induction a as [| x a IH]; simpl; congruence. Qed.

Lemma like_nil (s : string) : like "" s = true <-> s = "".
Proof. destruct s; simpl; split; congruence. Qed.

Lemma like_percent_cons (q : string) (s : string) :
  like (String "%" q) s
  = like q s || match s with
                | EmptyString => false
                | String _ s' => like (String "%" q) s'
                end.
Proof. destruct s; reflexivity. Qed.

Lemma like_underscore_cons (q : string) (s : string) :
  like (String "_" q) s
  = match s with
    | EmptyString => false
    | String _ s' => like q s'
    end.
Proof. destruct s; reflexivity. Qed.

Lemma like_plain_cons (c : ascii) (q : string) (s : string) :
  plain_char c = true ->
  like (String c q) s
  = match s with
    | EmptyString => false
    | String d s' => Ascii.eqb d c && like q s'
    end.
Proof.
  unfold plain_char. intros H.
  apply andb_true_iff in H. destruct H as [H H3].
  apply andb_true_iff in H. destruct H as [H1 H2].
  apply negb_true_iff in H1, H2, H3.
  cbn [like]. rewrite H1, H2, H3. destruct s; reflexivity.
Qed.

Lemma like_percent (q s : string) :
  like (String "%" q) s = true
  <-> exists pre post, s = (pre ++ post)%string /\ like q post = true.
Proof.
  induction s as [| c s IH]; rewrite like_percent_cons, orb_true_iff.
  - split.
    + intros [H | H]; [| discriminate]. exists "", "". auto.
    + intros (pre & post & E & H). left.
      destruct pre; [| discriminate]. simpl in E. now subst post.
  - rewrite IH. split.
    + intros [H | (pre & post & E & H)].
      * exists "", (String c s). auto.
      * exists (String c pre), post. simpl. now rewrite E.
    + intros (pre & post & E & H).
      destruct pre as [| d pre]; simpl in E.
      * left. now subst post.
      * right. injection E as _ E. eauto.
Qed.

Lemma like_plain (p q s : string) :
  plain p = true ->
  like (p ++ q) s = true
  <-> exists s', s = (p ++ s')%string /\ like q s' = true.
Proof.
  revert s. induction p as [| c p IH]; intros s Hp.
  - simpl. split; [eauto | now intros (s' & -> & H)].
  - simpl in Hp. apply andb_true_iff in Hp. destruct Hp as [Hc Hp].
    cbn [append]. rewrite (like_plain_cons c _ _ Hc).
    destruct s as [| d s].
    + split; [discriminate | intros (s' & E & _); discriminate].
    + rewrite andb_true_iff, (IH s Hp), Ascii.eqb_eq. split.
      * intros (-> & s' & -> & H). eauto.
      * intros (s' & E & H). injection E as -> ->. eauto.
Qed.

Lemma like_percent_end (s : string) : like "%" s = true.
Proof. apply like_percent. exists s, "". now rewrite append_nil_r. Qed.

(** [%t%] with a plain [t]: [t] occurs in the string. *)
Lemma like_contains (t s : string) :
  plain t = true ->
  like ("%" ++ t ++ "%") s = true
  <-> exists pre post, s = (pre ++ t ++ post)%string.
Proof.
  intros Hp. cbn [append]. rewrite like_percent. split.
  - intros (pre & rest & -> & H).
    apply (like_plain t "%" rest Hp) in H. destruct H as (post & -> & _).
    eauto.
  - intros (pre & post & ->). exists pre, (t ++ post)%string.
    split; [reflexivity |].
    apply (like_plain t "%" _ Hp). exists post.
    split; [reflexivity | apply like_percent_end].
Qed.

Lemma lower_char_plain (c : ascii) :
  plain_char c = true -> plain_char (PyStr.lower_char c) = true.
Proof.
  destruct c as [[] [] [] [] [] [] [] []]; vm_compute; intros H;
    first [reflexivity | discriminate H].
Qed.

Lemma lower_plain (t : string) : plain t = true -> plain (PyStr.lower t) = true.
Proof.
  unfold plain. induction t as [| c t IH]; [reflexivity |].
  simpl. rewrite !andb_true_iff. intros [Hc Ht].
  split; [now apply lower_char_plain | now apply IH].
Qed.

Lemma ilike_contains (s t : string) :
  plain t = true ->
  ilike s ("%" ++ t ++ "%") = true <-> icontains s t.
Proof.
  intros Hp. unfold ilike, icontains.
  rewrite !lower_append.
  change (PyStr.lower "%") with "%".
  apply like_contains. now apply lower_plain.
Qed.

(** X9: A search term without [%], [_] and backslash selects the rows whose
    path holds the term, case ignored; the other filters apply as they do
    without a search term. *)
Theorem search_is_case_insensitive_substring (t : string)
  (label label_detail : option string) (min_score max_score : option Q)
  (r : ImageRecord) :
  plain t = true ->
  row_passes (Some t) label label_detail min_score max_score r = true
  <-> icontains (path r) t
      /\ row_passes None label label_detail min_score max_score r = true.
Proof.
  intros Hp. rewrite !row_passes_matches. unfold matches.
  rewrite !andb_true_iff.
  assert (Hs : search_matches (Some t) r = true <-> icontains (path r) t).
  { unfold search_matches, when_str.
    destruct (String.eqb_spec t "") as [-> | _];
      [| now apply ilike_contains].
    split; [| reflexivity]. intros _.
    exists (PyStr.lower (path r)), "". now rewrite !append_nil_r. }
  rewrite Hs. cbn [search_matches when_str]. tauto.
Qed.

Lemma search_is_case_insensitive_substring_witness :
  let r := {| path := "/Volumes/m/B.PNG"; label := Some "cat";
              labelDetail := None; score := None |} in
  row_passes (Some "b.png") (Some "cat") None None None r = true
  <-> icontains (path r) "b.png"
      /\ row_passes None (Some "cat") None None None r = true.
Proof.
  intros r.
  apply (search_is_case_insensitive_substring "b.png" (Some "cat") None
           None None r); reflexivity.
Defined.


(** X10: The search term is not escaped: [_] in it stands for any one
    character and [%] for any run of characters. *)
Theorem search_wildcards_not_escaped (a b : string) (r : ImageRecord) :
  plain a = true ->
  plain b = true ->
  (forall pre c post,
      PyStr.lower (path r)
      = (pre ++ PyStr.lower a ++ String c (PyStr.lower b ++ post))%string ->
      row_passes (Some (a ++ "_" ++ b)%string) None None None None r = true)
  /\ (forall pre mid post,
        PyStr.lower (path r)
        = (pre ++ PyStr.lower a ++ mid ++ PyStr.lower b ++ post)%string ->
        row_passes (Some (a ++ "%" ++ b)%string) None None None None r = true).
Proof.
  intros Ha Hb.
  assert (Hne : forall w, String.eqb (a ++ String w b)%string "" = false).
  { intros w. destruct a; reflexivity. }
  split.
  - intros pre c post E.
    rewrite row_passes_matches. unfold matches.
    cbn [text_matches min_matches max_matches when_str].
    rewrite !andb_true_r.
    unfold search_matches, when_str. cbn [append]. rewrite Hne.
    unfold ilike. rewrite E.
    cbn [PyStr.lower]. rewrite !lower_append. cbn [PyStr.lower].
    change (PyStr.lower_char "_") with "_"%char.
    change (PyStr.lower_char "%") with "%"%char.
    apply like_percent. exists pre. eexists. split; [reflexivity |].
    rewrite append_assoc.
    apply (like_plain (PyStr.lower a) _ _ (lower_plain a Ha)).
    eexists. split; [reflexivity |].
    cbn [append]. rewrite like_underscore_cons.
    apply (like_plain (PyStr.lower b) _ _ (lower_plain b Hb)).
    exists post. split; [reflexivity | apply like_percent_end].
  - intros pre mid post E.
    rewrite row_passes_matches. unfold matches.
    cbn [text_matches min_matches max_matches when_str].
    rewrite !andb_true_r.
    unfold search_matches, when_str. cbn [append]. rewrite Hne.
    unfold ilike. rewrite E.
    cbn [PyStr.lower]. rewrite !lower_append. cbn [PyStr.lower].
    change (PyStr.lower_char "%") with "%"%char.
    apply like_percent. exists pre. eexists. split; [reflexivity |].
    rewrite append_assoc.
    apply (like_plain (PyStr.lower a) _ _ (lower_plain a Ha)).
    eexists. split; [reflexivity |].
    cbn [append].
    apply like_percent. exists mid. eexists. split; [reflexivity |].
    apply (like_plain (PyStr.lower b) _ _ (lower_plain b Hb)).
    exists post. split; [reflexivity | apply like_percent_end].
Qed.

Lemma search_wildcards_not_escaped_witness :
  let r := {| path := "/Volumes/m/b.png"; label := None;
              labelDetail := None; score := None |} in
  (forall pre c post,
      PyStr.lower (path r)
      = (pre ++ PyStr.lower "m/" ++ String c (PyStr.lower ".png" ++ post))%string ->
      row_passes (Some ("m/" ++ "_" ++ ".png")%string) None None None None r
      = true)
  /\ (forall pre mid post,
        PyStr.lower (path r)
        = (pre ++ PyStr.lower "m/" ++ mid ++ PyStr.lower ".png" ++ post)%string ->
        row_passes (Some ("m/" ++ "%" ++ ".png")%string) None None None None r
        = true).
Proof.
  intros r. apply (search_wildcards_not_escaped "m/" ".png" r); reflexivity.
Defined.

(* ===================================================================== *)
(** ** What the query operations leave alone                              *)
(* ===================================================================== *)

Lemma keeps_schema_for_each {A B : Type} (f : A -> M B) (l : list A) :
  (forall a, keeps_schema (f a)) -> keeps_schema (for_each f l).
Proof.
  intros H. induction l as [| a l IH]; simpl.
  - apply keeps_schema_ret.
  - apply keeps_schema_bind; [apply H |]. intros y.
    apply keeps_schema_bind; [exact IH |]. intros ys. apply keeps_schema_ret.
Qed.

Lemma keeps_schema_schema_or_default (schema : option string) :
  keeps_schema (schema_or_default schema).
Proof. intros s. now rewrite schema_or_default_run. Qed.

Lemma keeps_schema_fetchone_item (rows : list (list sqlval)) (i : nat) :
  keeps_schema (fetchone_item rows i).
Proof.
  unfold fetchone_item. destruct (fetchone rows);
    [apply keeps_schema_getitem | apply keeps_schema_raise].
Qed.

Lemma keeps_schema_float (v : sqlval) : keeps_schema (float v).
Proof.
  destruct v; simpl; try destruct (float8_overflow _);
    first [apply keeps_schema_ret | apply keeps_schema_raise].
Qed.

Ltac keeps_schema_query :=
  repeat first
    [ apply keeps_schema_schema_or_default
    | apply keeps_schema_with_connection
    | apply keeps_schema_cur_execute
    | apply keeps_schema_for_each
    | apply keeps_schema_getitem
    | apply keeps_schema_fetchone_item
    | apply keeps_schema_float
    | keeps_schema_step ].

(** X11: Only [check_table_exists] writes [config.DEFAULT_SCHEMA]: the six
    query operations and [find_table_schema] leave it as it was, in any
    world and whether they return or raise. *)
Theorem queries_keep_default_schema (env : Env) (op : query_op)
  (schema : option string) (table : string) (s : State) :
  DEFAULT_SCHEMA (snd (run_op env op schema s)) = DEFAULT_SCHEMA s
  /\ DEFAULT_SCHEMA (snd (find_table_schema env table s)) = DEFAULT_SCHEMA s.
Proof.
  split; [| apply keeps_schema_find_table_schema].
  revert s. change (keeps_schema (run_op env op schema)).
  destruct op as [l o t lb d mn mx | lb d mn mx | | lb | | t lb d mn mx];
    unfold run_op, get_image_paths, get_all_image_paths, get_distinct_labels,
      get_distinct_label_details, get_score_range, get_total_image_count;
    cbv zeta; unfold when_str; keeps_schema_query.
Qed.

Lemma resolve_kept {A : Type} (c : M A) (schema : option string) (s : State) :
  keeps_schema c -> resolve schema (snd (c s)) = resolve schema s.
Proof. intros H. apply resolve_same, H. Qed.

Lemma queries_keep_schema_details (env : Env) (lab schema : option string)
  (s : State) :
  DEFAULT_SCHEMA (snd (get_distinct_label_details env lab schema s))
  = DEFAULT_SCHEMA s.
Proof.
  revert s. change (keeps_schema (get_distinct_label_details env lab schema)).
  unfold get_distinct_label_details. cbv zeta. unfold when_str.
  keeps_schema_query.
Qed.

(* ===================================================================== *)
(** ** The filter options and what they select                            *)
(* ===================================================================== *)

Lemma labels_of_In (rows : list ImageRecord) (l : string) :
  In l (labels_of rows) <-> exists r, In r rows /\ label r = Some l.
Proof.
  induction rows as [| r rows IH]; simpl.
  - split; [tauto | intros (r & [] & _)].
  - destruct (label r) as [l' |] eqn:El; simpl; rewrite IH; split.
    + intros [-> | (r' & H1 & H2)]; [exists r; auto | exists r'; tauto].
    + intros (r' & [-> | H1] & H2); [left; congruence | right; eauto].
    + intros (r' & H1 & H2); exists r'; tauto.
    + intros (r' & [-> | H1] & H2); [congruence | eauto].
Qed.

Lemma label_rows (rows : list ImageRecord) :
  map (column_value "label")
      (filter (fun r => forallb (eval_condition r) [(IsNotNull "label", Null)])
              rows)
  = map Text (labels_of rows).
Proof.
  induction rows as [| r rows IH]; [reflexivity |].
  cbn [filter labels_of].
  replace (forallb (eval_condition r) [(IsNotNull "label", Null)])
    with (match label r with Some _ => true | None => false end)
    by (unfold eval_condition, column_value; simpl;
        destruct (label r); reflexivity).
  destruct (label r) as [l |] eqn:E; [| exact IH].
  cbn [map]. rewrite IH. f_equal.
  unfold column_value. simpl. now rewrite E.
Qed.

Lemma execute_labels (db : Database) (t : Table) (schema : string) :
  lookup_table db (schema, TABLE_NAME) = Some t ->
  execute_select db
    {| sel_proj := Column true "label";
       sel_from := (schema, TABLE_NAME);
       sel_where := [IsNotNull "label"];
       sel_order_by := true;
       sel_limit_offset := false |} []
  = Return (map tuple1 (map Text (sort_str (distinct_str
      (labels_of (table_rows t)))))).
Proof.
  intros Ht. unfold execute_select.
  cbn [sel_from sel_where sel_proj sel_order_by sel_limit_offset bind_params].
  rewrite Ht. cbn [forallb well_typed fst snd column_type negb andb].
  simpl column_type. cbv iota. simpl negb. cbv iota.
  rewrite scan_filter by (now apply casts_succeed_params). cbn [result_map].
  rewrite label_rows, distinct_text, order_by_text. reflexivity.
Qed.

Lemma filter_row_matches (lb d : option string) (mn mx : option Q)
  (rows : list ImageRecord) :
  filter (row_matches lb d mn mx) rows = filter (matches None lb d mn mx) rows.
Proof.
  apply filter_ext. intros r.
  exact (row_passes_matches None lb d mn mx r).
Qed.

Section FilterOptions.

Variable env : Env.
Hypothesis Hh : healthy env.
Variable sch : string.
Variable rows : list ImageRecord.
Hypothesis Htable : has_table (env_server env) sch TABLE_NAME rows.

Lemma get_distinct_labels_run (schema : option string) (s : State) :
  resolve schema s = sch ->
  exists s',
    get_distinct_labels env schema s
    = (Return (map Text (sort_str (distinct_str (labels_of rows)))), s')
    /\ resolve schema s' = sch.
Proof.
  intros Hr. destruct Htable as (t & Ht & Hrows).
  unfold get_distinct_labels.
  rewrite (bind_return _ _ _ _ _ (schema_or_default_run schema s)).
  match goal with
  | |- context [with_connection env ?body s] =>
      destruct (with_connection_healthy env Hh body s)
        as (conn & s1 & evs & E & Hd & _)
  end.
  rewrite E. cbv beta zeta. rewrite Hr.
  match goal with
  | |- context [cur_execute env ?q ?ps] =>
      destruct (cur_execute_run env q ps s1) as (s2 & E2 & Hd2 & _)
  end.
  simpl execute in E2. rewrite (execute_labels _ t _ Ht) in E2.
  rewrite (bind_return _ _ _ _ _ E2), for_each_getitem0, Hrows.
  exists s2. split; [reflexivity |].
  rewrite <- Hr. apply resolve_same. congruence.
Qed.

Lemma get_score_range_run (schema : option string) (s : State) :
  resolve schema s = sch ->
  exists lo hi s',
    get_score_range env schema s = (Return (lo, hi), s')
    /\ resolve schema s' = sch
    /\ (scores rows = [] -> lo = Finite 0 /\ hi = Finite 1)
    /\ (scores rows <> [] ->
        exists m M,
          In m (scores rows) /\ In M (scores rows)
          /\ (forall q, In q (scores rows) -> (m <= q)%Q /\ (q <= M)%Q)
          /\ lo = float_of_Decimal m /\ hi = float_of_Decimal M).
Proof.
  intros Hr. destruct Htable as (t & Ht & Hrows).
  unfold get_score_range.
  rewrite (bind_return _ _ _ _ _ (schema_or_default_run schema s)).
  match goal with
  | |- context [with_connection env ?body s] =>
      destruct (with_connection_healthy env Hh body s)
        as (conn & s1 & evs & E & Hd & _)
  end.
  rewrite E. cbv beta zeta. rewrite Hr.
  match goal with
  | |- context [cur_execute env ?q ?ps] =>
      destruct (cur_execute_run env q ps s1) as (s2 & E2 & Hd2 & _)
  end.
  assert (Hr2 : resolve schema s2 = sch)
    by (rewrite <- Hr; apply resolve_same; congruence).
  simpl execute in E2. rewrite (execute_min_max _ t _ Ht), Hrows in E2.
  rewrite (bind_return _ _ _ _ _ E2).
  cbn [fetchone tuple_truthy].
  destruct (scores rows) as [| a l] eqn:Es.
  - exists (Finite 0), (Finite 1), s2.
    split; [reflexivity |]. split; [exact Hr2 |].
    split; [auto | intros H; contradiction].
  - unfold sql_min, sql_max. cbn [map fold_left].
    destruct (sql_min_from l a) as (m & Elo & Hlo & Hlo').
    destruct (sql_max_from l a) as (M & Ehi & Hhi & Hhi').
    rewrite Elo, Ehi.
    exists (float_of_Decimal m), (float_of_Decimal M), s2.
    split; [reflexivity |]. split; [exact Hr2 |].
    split; [discriminate |]. intros _. exists m, M. auto 6.
Qed.

End FilterOptions.

(** X12: [get_distinct_labels] returns the labels that occur in the table, each
    once, in strict code-point order, no NULL among them. *)
Theorem distinct_labels_listing (env : Env) (sch : string)
  (rows : list ImageRecord) (schema : option string) (s : State) :
  healthy env ->
  has_table (env_server env) sch TABLE_NAME rows ->
  resolve schema s = sch ->
  exists labels s',
    get_distinct_labels env schema s = (Return (map Text labels), s')
    /\ StronglySorted str_lt labels
    /\ forall l, In l labels <-> exists r, In r rows /\ label r = Some l.
Proof.
  intros Hh Ht Hr.
  destruct (get_distinct_labels_run env Hh sch rows Ht schema s Hr)
    as (s' & E & _).
  eexists; exists s'. split; [exact E |]. split.
  - apply sorted_strict.
    + apply sort_str_sorted.
    + apply (Permutation_NoDup (sort_str_perm _)), distinct_str_NoDup.
  - intros l. split.
    + intros H.
      apply (Permutation_in _ (Permutation_sym (sort_str_perm _))) in H.
      now apply distinct_str_In, labels_of_In in H.
    + intros H. apply (Permutation_in _ (sort_str_perm _)).
      now apply distinct_str_In, labels_of_In.
Qed.

Lemma distinct_labels_listing_witness :
  exists labels s',
    get_distinct_labels ex_env (Some "alt") initial_state
    = (Return (map Text labels), s')
    /\ StronglySorted str_lt labels
    /\ forall l, In l labels <-> exists r, In r ex_rows /\ label r = Some l.
Proof.
  apply (distinct_labels_listing ex_env "alt" ex_rows (Some "alt")
           initial_state ex_env_healthy ex_has_table).
  reflexivity.
Defined.

Lemma float8_in_range_no_overflow (q : Q) :
  float8_in_range q = true -> float8_overflow q = false.
Proof.
  unfold float8_in_range. rewrite andb_true_iff, negb_true_iff. tauto.
Qed.

Lemma filter_nil {A : Type} (p : A -> bool) (l : list A) :
  (forall a, In a l -> p a = false) -> filter p l = [].
Proof.
  induction l as [| a l IH]; intros H; [reflexivity |].
  simpl. rewrite (H a (or_introl eq_refl)). apply IH.
  intros b Hb. apply H. now right.
Qed.

(** X13: The options the database layer offers, used as filters with no
    score bound, select something: a label returned by
    [get_distinct_labels], given as the label filter of
    [get_all_image_paths] with [min_score] and [max_score] left [None],
    gives a listing that is not empty, and so does a label-detail returned
    by [get_distinct_label_details] for a label, given together with that
    label.  With a score bound this is no longer so: a label whose rows
    all lack a score selects nothing as soon as [min_score] is given. *)
Theorem filter_options_select_something (env : Env) (sch : string)
  (rows : list ImageRecord) (schema : option string) (s : State) :
  healthy env ->
  has_table (env_server env) sch TABLE_NAME rows ->
  resolve schema s = sch ->
  (exists labels s1,
     get_distinct_labels env schema s = (Return labels, s1)
     /\ forall l, In (Text l) labels ->
          exists paths s2,
            get_all_image_paths env (Some l) None None None schema s1
            = (Return paths, s2)
            /\ paths <> [])
  /\ (forall X,
       exists details s1,
         get_distinct_label_details env X schema s = (Return details, s1)
         /\ forall d, In (Text d) details ->
              exists paths s2,
                get_all_image_paths env X (Some d) None None schema s1
                = (Return paths, s2)
                /\ paths <> [])
  /\ (forall l mn mx,
       l <> "" ->
       float8_scores rows ->
       (forall r, In r rows -> label r = Some l -> score r = None) ->
       exists s2,
         get_all_image_paths env (Some l) None (Some mn) mx schema s
         = (Return [], s2)).
Proof.
  intros Hh Ht Hr.
  assert (Hpaths : forall lb d s1 r,
             resolve schema s1 = sch ->
             In r rows -> matches None lb d None None r = true ->
             exists paths s2,
               get_all_image_paths env lb d None None schema s1
               = (Return paths, s2) /\ paths <> []).
  { intros lb d s1 r Hr1 Hin Hm.
    destruct (get_all_image_paths_run env Hh sch rows Ht lb d None None
                schema s1 (or_introl (conj eq_refl eq_refl)) Hr1)
      as (s2 & E & _).
    eexists; exists s2. split; [exact E |].
    rewrite filter_row_matches. intros Hnil.
    apply map_eq_nil, sort_str_nil, map_eq_nil in Hnil.
    assert (H : In r (filter (matches None lb d None None) rows))
      by (apply filter_In; auto).
    rewrite Hnil in H. destruct H. }
  split; [| split].
  - destruct (get_distinct_labels_run env Hh sch rows Ht schema s Hr)
      as (s1 & E & Hr1).
    eexists; exists s1. split; [exact E |].
    intros l Hl. apply in_map_iff in Hl. destruct Hl as (l' & [= ->] & Hl).
    apply (Permutation_in _ (Permutation_sym (sort_str_perm _))) in Hl.
    apply distinct_str_In, labels_of_In in Hl. destruct Hl as (r & Hin & Hlab).
    apply (Hpaths (Some l) None s1 r Hr1 Hin).
    unfold matches, search_matches, text_matches, min_matches, max_matches,
      when_str.
    rewrite Hlab, String.eqb_refl. now destruct (String.eqb l "").
  - intros X.
    destruct (get_distinct_label_details_run env Hh sch rows Ht X schema s Hr)
      as (s1 & E).
    assert (Hr1 : resolve schema s1 = sch).
    { pose proof (queries_keep_schema_details env X schema s) as Hk.
      rewrite E in Hk. rewrite <- Hr. apply resolve_same. exact Hk. }
    eexists; exists s1. split; [exact E |].
    intros d Hd. apply in_map_iff in Hd. destruct Hd as (d' & [= ->] & Hd).
    apply (Permutation_in _ (Permutation_sym (sort_str_perm _))) in Hd.
    apply distinct_str_In, label_details_In in Hd.
    destruct Hd as (r & Hin & Hkeep & Hdet).
    apply (Hpaths X (Some d) s1 r Hr1 Hin).
    unfold matches, search_matches, text_matches, min_matches, max_matches,
      when_str in *.
    rewrite Hdet, String.eqb_refl.
    destruct X as [x |]; [destruct (String.eqb x "") eqn:Ex |];
      try (now destruct (String.eqb d "")).
    apply has_label_iff in Hkeep. rewrite Hkeep, String.eqb_refl.
    now destruct (String.eqb d "").
  - intros l mn mx Hl Hcast Hnull.
    destruct (get_all_image_paths_run env Hh sch rows Ht (Some l) None
                (Some mn) mx schema s (or_intror Hcast) Hr) as (s2 & E & _).
    exists s2. rewrite E. do 2 f_equal.
    rewrite filter_row_matches, filter_nil; [reflexivity |].
    intros r Hin.
    unfold matches, search_matches, text_matches, min_matches, when_str.
    cbn [andb].
    destruct (String.eqb_spec l "") as [-> | _]; [contradiction |].
    destruct (label r) as [x |] eqn:Ex; [| reflexivity].
    destruct (String.eqb_spec x l) as [-> | Hx]; [| reflexivity].
    rewrite (Hnull r Hin Ex). cbn [andb]. reflexivity.
Qed.

Lemma filter_options_select_something_witness :
  (exists labels s1,
     get_distinct_labels ex_env (Some "alt") initial_state
     = (Return labels, s1)
     /\ forall l, In (Text l) labels ->
          exists paths s2,
            get_all_image_paths ex_env (Some l) None None None (Some "alt") s1
            = (Return paths, s2)
            /\ paths <> [])
  /\ (forall X,
       exists details s1,
         get_distinct_label_details ex_env X (Some "alt") initial_state
         = (Return details, s1)
         /\ forall d, In (Text d) details ->
              exists paths s2,
                get_all_image_paths ex_env X (Some d) None None (Some "alt") s1
                = (Return paths, s2)
                /\ paths <> [])
  /\ (forall l mn mx,
       l <> "" ->
       float8_scores ex_rows ->
       (forall r, In r ex_rows -> label r = Some l -> score r = None) ->
       exists s2,
         get_all_image_paths ex_env (Some l) None (Some mn) mx (Some "alt")
                             initial_state
         = (Return [], s2)).
Proof.
  apply (filter_options_select_something ex_env "alt" ex_rows (Some "alt")
           initial_state ex_env_healthy ex_has_table).
  reflexivity.
Defined.

(** A label the first dropdown offers and the slider bounds together: in
    a table whose only row with label [bird] has no score, [bird] is
    offered, and with the bounds [get_score_range] gives (the least and
    the greatest score, here -0.25 and 0.5) it selects nothing. *)
Example offered_label_selects_nothing_with_bounds :
  let env := ex_env_unscored in
  fst (get_distinct_labels env (Some "alt") initial_state)
  = Return [Text "bird"; Text "cat"; Text "dog"]
  /\ fst (get_score_range env (Some "alt") initial_state)
     = Return (Finite (- (1 # 4)), Finite (1 # 2))
  /\ fst (get_all_image_paths env (Some "bird") None
                              (Some (- (1 # 4))) (Some (1 # 2))
                              (Some "alt") initial_state)
     = Return []
  /\ fst (get_all_image_paths env (Some "bird") None None None
                              (Some "alt") initial_state)
     = Return [Text "/Volumes/m/h.png"].
Proof. vm_compute. repeat split; reflexivity. Qed.

(** X14: The range [get_score_range] returns, used as the two score bounds of
    [get_all_image_paths], selects the rows that have a score, all of
    them, and no row without one; the lower end is not above the upper.
    The scores are numerics that can be cast to [float8]; the range holds
    the binary64 numbers nearest to the least and the greatest of them,
    and PostgreSQL compares each score, cast to [float8], with these. *)
Theorem full_score_range_selects_scored_rows (env : Env) (sch : string)
  (rows : list ImageRecord) (schema : option string) (s : State) :
  healthy env ->
  has_table (env_server env) sch TABLE_NAME rows ->
  resolve schema s = sch ->
  float8_scores rows ->
  exists lo hi s1 paths s2,
    get_score_range env schema s = (Return (Finite lo, Finite hi), s1)
    /\ (lo <= hi)%Q
    /\ get_all_image_paths env None None (Some lo) (Some hi) schema s1
       = (Return (map Text paths), s2)
    /\ StronglySorted str_le paths
    /\ Permutation paths (map path (filter has_score rows)).
Proof.
  intros Hh Ht Hr Hcast.
  destruct (get_score_range_run env Hh sch rows Ht schema s Hr)
    as (lo & hi & s1 & E1 & Hr1 & Hdef & Hbound).
  assert (Hrange : exists a b,
             lo = Finite a /\ hi = Finite b /\ (a <= b)%Q
             /\ forall q, In q (scores rows) ->
                  Qle_bool (float8_round a) (float8_round q) = true
                  /\ Qle_bool (float8_round q) (float8_round b) = true).
  { destruct (scores rows) as [| q0 l] eqn:Es.
    - destruct (Hdef eq_refl) as [-> ->]. exists 0%Q, 1%Q.
      repeat split; try discriminate; destruct H.
    - destruct Hbound as (m & M & Hm & HM & Hle & -> & ->); [discriminate |].
      unfold float8_scores in Hcast. rewrite Es, forallb_forall in Hcast.
      rewrite !float_of_Decimal_finite
        by (apply float8_in_range_no_overflow, Hcast; assumption).
      exists (float8_round m), (float8_round M).
      split; [reflexivity |]. split; [reflexivity |].
      split; [apply float8_round_le; now apply (Hle M) |].
      intros q Hq. rewrite !float8_round_idempotent.
      split; apply Qle_bool_iff, float8_round_le; now apply Hle. }
  destruct Hrange as (a & b & -> & -> & Hab & Hin).
  destruct (get_all_image_paths_run env Hh sch rows Ht None None
              (Some a) (Some b) schema s1 (or_intror Hcast) Hr1)
    as (s2 & E2 & _).
  exists a, b, s1. eexists; exists s2.
  split; [exact E1 |]. split; [exact Hab |].
  split; [exact E2 |].
  split; [apply sort_str_sorted |].
  rewrite filter_row_matches.
  rewrite (filter_ext_in (matches None None None (Some a) (Some b)) has_score).
  - apply Permutation_sym, sort_str_perm.
  - intros r Hr'.
    unfold matches, search_matches, text_matches, min_matches, max_matches,
      has_score, when_str. simpl.
    destruct (score r) as [q |] eqn:Eq; [| reflexivity].
    destruct (Hin q) as [H1 H2]; [apply scores_In; eauto |].
    now rewrite H1, H2.
Qed.

Lemma full_score_range_selects_scored_rows_witness :
  exists lo hi s1 paths s2,
    get_score_range ex_env_decimal (Some "alt") initial_state
    = (Return (Finite lo, Finite hi), s1)
    /\ (lo <= hi)%Q
    /\ get_all_image_paths ex_env_decimal None None (Some lo) (Some hi)
                           (Some "alt") s1
       = (Return (map Text paths), s2)
    /\ StronglySorted str_le paths
    /\ Permutation paths (map path (filter has_score ex_rows_decimal)).
Proof.
  apply (full_score_range_selects_scored_rows ex_env_decimal "alt"
           ex_rows_decimal (Some "alt") initial_state ex_decimal_healthy
           ex_decimal_has_table);
    [reflexivity | vm_compute; reflexivity].
Defined.

(* ===================================================================== *)
(** ** The catalog search on its own, and with an explicit schema         *)
(* ===================================================================== *)

(** X15: [find_table_schema] in a world where connections succeed: it runs the
    catalog search once and returns the first schema, in code-point order,
    that holds a table of that name, or [None] when no schema does;
    [config.DEFAULT_SCHEMA] is not touched. *)
Theorem find_table_schema_least (env : Env) (table : string) (s : State) :
  healthy env ->
  exists r s' evs,
    find_table_schema env table s = (Return r, s')
    /\ log s' = log s ++ evs
    /\ count_events is_schema_scan evs = 1%nat
    /\ DEFAULT_SCHEMA s' = DEFAULT_SCHEMA s
    /\ (r = None <-> forall sc, ~ table_in_schema (env_server env) sc table)
    /\ (forall v, r = Some v ->
        exists a, v = Text a
                  /\ table_in_schema (env_server env) a table
                  /\ forall sc, table_in_schema (env_server env) sc table ->
                                str_le a sc).
Proof.
  intros Hh.
  destruct (find_table_schema_run env Hh table s) as (s' & evs & E & Hd & Hl & Hc).
  eexists; exists s', evs.
  split; [exact E |]. split; [exact Hl |]. split; [exact Hc |].
  split; [exact Hd |].
  destruct (sort_str _) as [| a rest] eqn:Es.
  - split.
    + split; [| reflexivity]. intros _ sc Hsc.
      apply sort_str_nil in Es. apply schema_names_In in Hsc.
      rewrite Es in Hsc. destruct Hsc.
    + intros v Hv. discriminate Hv.
  - destruct (sort_str_head _ _ _ Es) as (Hin & Hmin).
    apply schema_names_In in Hin. split.
    + split; [discriminate |]. intros Hno. destruct (Hno _ Hin).
    + intros v [= <-]. exists a. split; [reflexivity |].
      split; [exact Hin |].
      intros sc Hsc. apply Hmin. now apply schema_names_In.
Qed.

Lemma find_table_schema_least_witness :
  exists r s' evs,
    find_table_schema ex_env TABLE_NAME initial_state = (Return r, s')
    /\ log s' = log initial_state ++ evs
    /\ count_events is_schema_scan evs = 1%nat
    /\ DEFAULT_SCHEMA s' = DEFAULT_SCHEMA initial_state
    /\ (r = None
        <-> forall sc, ~ table_in_schema (env_server ex_env) sc TABLE_NAME)
    /\ (forall v, r = Some v ->
        exists a, v = Text a
                  /\ table_in_schema (env_server ex_env) a TABLE_NAME
                  /\ forall sc,
                       table_in_schema (env_server ex_env) sc TABLE_NAME ->
                       str_le a sc).
Proof.
  apply (find_table_schema_least ex_env TABLE_NAME initial_state ex_env_healthy).
Defined.

(** X16: With an explicit schema argument that does not hold the table,
    [check_table_exists] still rewrites the module global
    [config.DEFAULT_SCHEMA] to the schema it finds and returns true; and
    since the argument, not the global, is what the next call checks, the
    same call again runs the catalog search again. *)
Theorem explicit_schema_search_repeats (env : Env) (sc table : string)
  (s : State) :
  healthy env ->
  schema_names_nonempty (env_server env) ->
  ~ table_in_schema (env_server env) sc table ->
  (exists sc', table_in_schema (env_server env) sc' table) ->
  exists alt s1 evs1 s2 evs2,
    check_table_exists env (Some sc) table s = (Return true, s1)
    /\ DEFAULT_SCHEMA s1 = alt
    /\ table_in_schema (env_server env) alt table
    /\ (forall sc', table_in_schema (env_server env) sc' table ->
                    str_le alt sc')
    /\ log s1 = log s ++ evs1
    /\ count_events is_schema_scan evs1 = 1%nat
    /\ check_table_exists env (Some sc) table s1 = (Return true, s2)
    /\ DEFAULT_SCHEMA s2 = alt
    /\ log s2 = log s1 ++ evs2
    /\ count_events is_schema_scan evs2 = 1%nat.
Proof.
  intros Hh Hne Hnot (sc0 & Hsc0).
  destruct (check_table_exists_scan env Hh (Some sc) table s Hnot)
    as (s1 & pre1 & post1 & E1 & Hd1 & Hl1 & Hpre1 & Hpost1).
  destruct (check_table_exists_scan env Hh (Some sc) table s1 Hnot)
    as (s2 & pre2 & post2 & E2 & Hd2 & Hl2 & Hpre2 & Hpost2).
  destruct (sort_str _) as [| alt rest] eqn:Es.
  - apply sort_str_nil in Es.
    apply schema_names_In in Hsc0. rewrite Es in Hsc0. destruct Hsc0.
  - destruct (sort_str_head _ _ _ Es) as (Hin & Hmin).
    apply schema_names_In in Hin.
    assert (Ha : String.eqb alt "" = false).
    { apply String.eqb_neq. destruct Hin as (t & Ht & <- & _). now apply Hne. }
    rewrite Ha in E1, Hd1, E2, Hd2. simpl in E1, E2.
    exists alt, s1, (pre1 ++ Execute TableExists [Text sc; Text table] :: post1),
      s2, (pre2 ++ Execute TableExists [Text sc; Text table] :: post2).
    split; [exact E1 |]. split; [exact Hd1 |]. split; [exact Hin |].
    split; [intros sc' Hsc'; apply Hmin; now apply schema_names_In |].
    split; [exact Hl1 |].
    split; [rewrite count_events_app; unfold count_events in *; simpl;
            rewrite Hpre1; simpl; exact Hpost1 |].
    split; [exact E2 |]. split; [exact Hd2 |].
    split; [exact Hl2 |].
    rewrite count_events_app. unfold count_events in *. simpl.
    rewrite Hpre2. simpl. exact Hpost2.
Qed.

Lemma explicit_schema_search_repeats_witness :
  exists alt s1 evs1 s2 evs2,
    check_table_exists ex_env (Some "public") TABLE_NAME initial_state
    = (Return true, s1)
    /\ DEFAULT_SCHEMA s1 = alt
    /\ table_in_schema (env_server ex_env) alt TABLE_NAME
    /\ (forall sc', table_in_schema (env_server ex_env) sc' TABLE_NAME ->
                    str_le alt sc')
    /\ log s1 = log initial_state ++ evs1
    /\ count_events is_schema_scan evs1 = 1%nat
    /\ check_table_exists ex_env (Some "public") TABLE_NAME s1
       = (Return true, s2)
    /\ DEFAULT_SCHEMA s2 = alt
    /\ log s2 = log s1 ++ evs2
    /\ count_events is_schema_scan evs2 = 1%nat.
Proof.
  apply (explicit_schema_search_repeats ex_env "public" TABLE_NAME
           initial_state ex_env_healthy).
  - intros t [<- | [<- | []]]; simpl; discriminate.
  - intros (t & [<- | [<- | []]] & H & _); simpl in H; discriminate H.
  - exists "alt". eexists. split; [right; left; reflexivity |].
    split; reflexivity.
Defined.

(* ===================================================================== *)
(** ** The environment checks of [config.py]                              *)
(* ===================================================================== *)

Lemma fold_left_missing (p : string -> bool) (l acc : list string) :
  fold_left (fun missing_vars var =>
               if p var then missing_vars ++ [var] else missing_vars) l acc
  = acc ++ filter p l.
Proof.
  revert acc. induction l as [| v l IH]; intros acc; simpl.
  - now rewrite app_nil_r.
  - rewrite IH. destruct (p v); [| reflexivity].
    now rewrite <- app_assoc.
Qed.

Lemma validate_required_env_vars_filter (env : Env) :
  validate_required_env_vars env
  = filter (fun v => negb (str_truthy (env_getenv env v)))
           ["DATABRICKS_HOST"; "PGDATABASE"; "PGUSER"; "PGHOST"; "PGPORT"].
Proof.
  unfold validate_required_env_vars. cbv zeta. now rewrite fold_left_missing.
Qed.

Lemma not_truthy_iff (o : option string) :
  negb (str_truthy o) = true <-> o = None \/ o = Some "".
Proof.
  unfold str_truthy. destruct o as [x |]; [| simpl; tauto].
  rewrite negb_involutive, String.eqb_eq. split.
  - intros ->. auto.
  - intros [H | [= ->]]; [discriminate | reflexivity].
Qed.

Lemma truthy_iff (o : option string) :
  str_truthy o = true <-> exists x, o = Some x /\ x <> "".
Proof.
  unfold str_truthy. destruct o as [x |].
  - rewrite negb_true_iff, String.eqb_neq. split.
    + intros H. eauto.
    + intros (y & [= <-] & H). exact H.
  - split; [discriminate | intros (x & H & _); discriminate].
Qed.

Lemma validate_required_env_vars_nil (env : Env) :
  validate_required_env_vars env = []
  <-> forall v,
        In v ["DATABRICKS_HOST"; "PGDATABASE"; "PGUSER"; "PGHOST"; "PGPORT"] ->
        exists x, env_getenv env v = Some x /\ x <> "".
Proof.
  rewrite validate_required_env_vars_filter. split.
  - intros Hnil v Hin. apply truthy_iff.
    destruct (str_truthy (env_getenv env v)) eqn:Et; [reflexivity |].
    assert (H : In v (filter (fun v => negb (str_truthy (env_getenv env v)))
                        ["DATABRICKS_HOST"; "PGDATABASE"; "PGUSER"; "PGHOST";
                         "PGPORT"]))
      by (apply filter_In; split; [exact Hin | now rewrite Et]).
    rewrite Hnil in H. destruct H.
  - intros Hall.
    match goal with |- ?l = [] => destruct l as [| v l'] eqn:Ef end;
      [reflexivity |].
    assert (H : In v (filter (fun v => negb (str_truthy (env_getenv env v)))
                        ["DATABRICKS_HOST"; "PGDATABASE"; "PGUSER"; "PGHOST";
                         "PGPORT"]))
      by (rewrite Ef; left; reflexivity).
    apply filter_In in H. destruct H as [Hin Hn].
    pose proof (proj2 (truthy_iff _) (Hall v Hin)) as Ht.
    rewrite Ht in Hn. discriminate Hn.
Qed.

(** X17: [validate_required_env_vars] lists, in the order of the five required
    names, exactly those that are unset or set to the empty string; so it
    returns the empty list if and only if all five are set to something. *)
Theorem missing_vars_are_unset_or_empty (env : Env) :
  let required :=
    ["DATABRICKS_HOST"; "PGDATABASE"; "PGUSER"; "PGHOST"; "PGPORT"] in
  validate_required_env_vars env
  = filter (fun v => match env_getenv env v with
                     | None => true
                     | Some x => String.eqb x ""
                     end) required
  /\ (forall v, In v (validate_required_env_vars env)
                <-> In v required
                    /\ (env_getenv env v = None \/ env_getenv env v = Some ""))
  /\ (validate_required_env_vars env = []
      <-> forall v, In v required ->
                    exists x, env_getenv env v = Some x /\ x <> "").
Proof.
  intros required. split; [| split].
  - rewrite validate_required_env_vars_filter. apply filter_ext.
    intros v. unfold str_truthy.
    destruct (env_getenv env v); [apply negb_involutive | reflexivity].
  - intros v.
    rewrite validate_required_env_vars_filter, filter_In, not_truthy_iff.
    tauto.
  - apply validate_required_env_vars_nil.
Qed.

(** X18: Once [validate_required_env_vars] returns the empty list, the host is
    not empty and the connection string is built from the values of the
    four [PG...] variables, none of them printed as [None] or left empty;
    [sslmode] falls back to [require], and an unset [PGAPPNAME] is printed
    as [None]. *)
Theorem validated_environment_connects (env : Env) (password : option string) :
  validate_required_env_vars env = [] ->
  get_databricks_host env <> ""
  /\ exists dbname user host port,
       env_getenv env "PGDATABASE" = Some dbname /\ dbname <> ""
       /\ env_getenv env "PGUSER" = Some user /\ user <> ""
       /\ env_getenv env "PGHOST" = Some host /\ host <> ""
       /\ env_getenv env "PGPORT" = Some port /\ port <> ""
       /\ conn_string env password
          = ("dbname=" ++ dbname ++ " user=" ++ user
             ++ " password=" ++ str_opt password
             ++ " host=" ++ host ++ " port=" ++ port
             ++ " sslmode=" ++ match env_getenv env "PGSSLMODE" with
                               | Some v => v
                               | None => "require"
                               end
             ++ " application_name="
             ++ str_opt (env_getenv env "PGAPPNAME"))%string.
Proof.
  intros H. rewrite validate_required_env_vars_nil in H.
  destruct (H "DATABRICKS_HOST") as (dh & Edh & Hdh); [simpl; auto |].
  destruct (H "PGDATABASE") as (db & Edb & Hdb); [simpl; auto |].
  destruct (H "PGUSER") as (u & Eu & Hu); [simpl; auto |].
  destruct (H "PGHOST") as (h & Eh & Hh'); [simpl; auto 6 |].
  destruct (H "PGPORT") as (p & Ep & Hp); [simpl; auto 6 |].
  split.
  - unfold get_databricks_host. now rewrite Edh.
  - exists db, u, h, p.
    repeat (split; [assumption |]).
    unfold conn_string, get_pg_connection_params. simpl.
    rewrite Edb, Eu, Eh, Ep. simpl.
    reflexivity.
Qed.

Lemma validated_environment_connects_witness :
  let env := ex_env_with ex_vars in
  get_databricks_host env <> ""
  /\ exists dbname user host port,
       env_getenv env "PGDATABASE" = Some dbname /\ dbname <> ""
       /\ env_getenv env "PGUSER" = Some user /\ user <> ""
       /\ env_getenv env "PGHOST" = Some host /\ host <> ""
       /\ env_getenv env "PGPORT" = Some port /\ port <> ""
       /\ conn_string env (Some "token")
          = ("dbname=" ++ dbname ++ " user=" ++ user
             ++ " password=" ++ str_opt (Some "token")
             ++ " host=" ++ host ++ " port=" ++ port
             ++ " sslmode=" ++ match env_getenv env "PGSSLMODE" with
                               | Some v => v
                               | None => "require"
                               end
             ++ " application_name="
             ++ str_opt (env_getenv env "PGAPPNAME"))%string.
Proof.
  intros env.
  apply (validated_environment_connects env (Some "token")).
  vm_compute. reflexivity.
Defined.

(* ===================================================================== *)
(** ** Valid paths, display paths and the path that is downloaded         *)
(* ===================================================================== *)

Lemma prefix_append (p s : string) :
  String.prefix p s = true -> exists rest, s = (p ++ rest)%string.
Proof.
  revert s. induction p as [| a p IH]; intros s H.
  - exists s. reflexivity.
  - destruct s as [| b s]; [discriminate H |].
    rewrite prefix_cons in H.
    destruct (Ascii.eqb_spec a b) as [-> | _]; [| discriminate H].
    destruct (IH s H) as (rest & ->). exists rest. reflexivity.
Qed.

Lemma replace_dbfs_volumes (rest : string) :
  PyStr.replace ("dbfs:/Volumes/" ++ rest) "dbfs:" ""
  = ("/Volumes/" ++ PyStr.replace rest "dbfs:" "")%string.
Proof. reflexivity. Qed.

Lemma slash_not_dbfs (s : string) :
  PyStr.startswith s "/Volumes/" = true ->
  PyStr.startswith s "dbfs:/Volumes/" = false.
Proof.
  unfold PyStr.startswith. intros H.
  apply (first_char_not_prefix "/" "d"); [discriminate |].
  now apply prefix_first_char in H.
Qed.

Lemma clean_starts_with_volumes (p : string) :
  PyStr.startswith p "dbfs:/Volumes/" = true ->
  PyStr.startswith (clean_file_path_for_display p) "/Volumes/" = true.
Proof.
  intros H. unfold clean_file_path_for_display. rewrite H.
  apply prefix_append in H. destruct H as (rest & ->).
  rewrite replace_dbfs_volumes. unfold PyStr.startswith. cbn [append].
  rewrite !prefix_cons. cbn [Ascii.eqb Bool.eqb]. apply prefix_nil.
Qed.

(** X19: [clean_file_path_for_display] gives a path that does not start with
    "dbfs:/Volumes/" (for an input that does, one that starts with
    "/Volumes/"), so cleaning twice is cleaning once; a path that does not
    start with "dbfs:/Volumes/" is returned as it is, whatever "dbfs:" it
    holds further on. *)
Theorem clean_file_path_idempotent (p : string) :
  PyStr.startswith (clean_file_path_for_display p) "dbfs:/Volumes/" = false
  /\ clean_file_path_for_display (clean_file_path_for_display p)
     = clean_file_path_for_display p
  /\ (PyStr.startswith p "dbfs:/Volumes/" = true ->
      PyStr.startswith (clean_file_path_for_display p) "/Volumes/" = true)
  /\ (PyStr.startswith p "dbfs:/Volumes/" = false ->
      clean_file_path_for_display p = p).
Proof.
  assert (H1 : PyStr.startswith (clean_file_path_for_display p)
                 "dbfs:/Volumes/" = false).
  { destruct (PyStr.startswith p "dbfs:/Volumes/") eqn:E.
    - apply slash_not_dbfs. now apply clean_starts_with_volumes.
    - unfold clean_file_path_for_display. now rewrite E. }
  split; [exact H1 |]. split; [| split].
  - unfold clean_file_path_for_display at 1. now rewrite H1.
  - apply clean_starts_with_volumes.
  - intros E. unfold clean_file_path_for_display. now rewrite E.
Qed.

Lemma normalized_valid (v : string) (s : State) :
  PyStr.startswith v "/Volumes/" || PyStr.startswith v "dbfs:/Volumes/" = true ->
  fst (normalized_path v s) = Return (Some (clean_file_path_for_display v)).
Proof.
  intros H. destruct (normalized_path_run v s) as (s' & evs & E & _).
  rewrite E. cbn [fst]. unfold clean_file_path_for_display.
  destruct (PyStr.startswith v "dbfs:/Volumes/") eqn:Ed; [reflexivity |].
  rewrite orb_false_r in H. now rewrite H.
Qed.

(** X20: A path that [validate_image_path] accepts is never refused by
    [load_image_from_volume]: the loader asks the Files API once, for the
    stripped path as [clean_file_path_for_display] shows it, and that path
    starts with "/Volumes/".  What is not a string, and what is empty, is
    not valid. *)
Theorem valid_path_is_downloaded (env : Env) (file_path : path_arg)
  (s : State) :
  validate_image_path file_path = true ->
  exists p r s' evs,
    file_path = PathStr p
    /\ p <> ""
    /\ load_image_from_volume env file_path s = (r, s')
    /\ log s' = log s ++ evs
    /\ downloads evs = [clean_file_path_for_display (PyStr.strip p)]
    /\ PyStr.startswith (clean_file_path_for_display (PyStr.strip p))
                        "/Volumes/" = true.
Proof.
  unfold validate_image_path. intros H.
  destruct (path_truthy file_path) eqn:Et; [| discriminate H].
  destruct file_path as [| p | z]; try discriminate H.
  cbn [negb isinstance_str orb path_str] in H.
  destruct (load_image_from_volume_run env (PathStr p) s)
    as (r & s' & evs & E & Hl & _ & Hrun).
  specialize (Hrun Et s). cbn [path_str] in Hrun.
  rewrite (normalized_valid _ s H) in Hrun. destruct Hrun as [Hd _].
  exists p, r, s', evs.
  split; [reflexivity |].
  split; [intros ->; discriminate Et |].
  split; [exact E |]. split; [exact Hl |]. split; [exact Hd |].
  destruct (PyStr.startswith (PyStr.strip p) "dbfs:/Volumes/") eqn:Ed.
  - now apply clean_starts_with_volumes.
  - rewrite orb_false_r in H.
    unfold clean_file_path_for_display. now rewrite Ed.
Qed.

Lemma valid_path_is_downloaded_witness :
  exists p r s' evs,
    PathStr " dbfs:/Volumes/m/a.png " = PathStr p
    /\ p <> ""
    /\ load_image_from_volume ex_env (PathStr " dbfs:/Volumes/m/a.png ")
                              initial_state = (r, s')
    /\ log s' = log initial_state ++ evs
    /\ downloads evs = [clean_file_path_for_display (PyStr.strip p)]
    /\ PyStr.startswith (clean_file_path_for_display (PyStr.strip p))
                        "/Volumes/" = true.
Proof.
  apply (valid_path_is_downloaded ex_env (PathStr " dbfs:/Volumes/m/a.png ")
           initial_state).
  reflexivity.
Defined.

(** X21: The loader is more lenient than the validation: a bare file name with
    an image extension is downloaded from the base directory, although
    [validate_image_path] rejects it. *)
Theorem loader_accepts_what_validation_rejects (env : Env) (name : string)
  (s : State) :
  name <> "" ->
  PyStr.contains (PyStr.strip name) "/" = false ->
  has_image_extension (PyStr.strip name) = true ->
  validate_image_path (PathStr name) = false
  /\ exists r s' evs,
       load_image_from_volume env (PathStr name) s = (r, s')
       /\ log s' = log s ++ evs
       /\ downloads evs = [(VOLUME_BASE_PATH ++ "/" ++ PyStr.strip name)%string].
Proof.
  intros Hne Hn He.
  destruct (no_slash_not_volume _ Hn) as [Hp1 Hp2].
  assert (Ht : path_truthy (PathStr name) = true).
  { simpl. now destruct (String.eqb_spec name ""). }
  split.
  - unfold validate_image_path. rewrite Ht. cbn [negb isinstance_str orb path_str].
    now rewrite Hp1, Hp2.
  - destruct (load_image_from_volume_run env (PathStr name) s)
      as (r & s' & evs & E & Hl & _ & Hrun).
    specialize (Hrun Ht s). cbn [path_str] in Hrun.
    destruct (normalized_path_run (PyStr.strip name) s) as (s1 & evs1 & E1 & _).
    rewrite E1 in Hrun. cbn [fst] in Hrun.
    pose proof (image_extension_has_dot _ He) as Hdot.
    pose proof (contains_not_isdigit _ "." eq_refl Hdot) as Hdig.
    rewrite Hp1, Hp2, Hdig, Hn, Hdot, He in Hrun.
    exists r, s', evs. split; [exact E |]. split; [exact Hl |]. apply Hrun.
Qed.

Lemma loader_accepts_what_validation_rejects_witness :
  validate_image_path (PathStr "Cat.PNG") = false
  /\ exists r s' evs,
       load_image_from_volume ex_env (PathStr "Cat.PNG") initial_state = (r, s')
       /\ log s' = log initial_state ++ evs
       /\ downloads evs
          = [(VOLUME_BASE_PATH ++ "/" ++ PyStr.strip "Cat.PNG")%string].
Proof.
  apply (loader_accepts_what_validation_rejects ex_env "Cat.PNG" initial_state);
    [discriminate | reflexivity | reflexivity].
Defined.

(* ===================================================================== *)
(** ** Digging the bytes out of the download response                     *)
(* ===================================================================== *)

(** X22: [read_file_data] tries [contents.read()], then [content], then
    [read()], then [contents] itself, then the response itself, in that
    order, and moves on only when the attribute is missing (for [read()]
    also on a [TypeError]).  So any other exception of [contents.read()]
    or [read()] leaves the block, and the last two steps never fail: they
    give the value of [contents] or something that is not bytes. *)
Theorem read_file_data_fallbacks (response : DownloadResponse) (s : State) :
  (forall v, contents response = Some (ContentsStream (Return v)) ->
             read_file_data response s = (Return v, s))
  /\ (forall e, contents response = Some (ContentsStream (Raise e)) ->
                isinstance_AttributeError e = false ->
                read_file_data response s = (Raise e, s))
  /\ (contents_read_unavailable response = true ->
      (forall v, content response = Some v ->
                 read_file_data response s = (Return v, s))
      /\ (content response = None ->
          (forall v, read response = Some (Return v) ->
                     read_file_data response s = (Return v, s))
          /\ (forall e, read response = Some (Raise e) ->
                        isinstance_AttributeError_TypeError e = false ->
                        read_file_data response s = (Raise e, s))
          /\ (read_unavailable response = true ->
              read_file_data response s
              = (Return match contents response with
                        | Some (ContentsValue v) => v
                        | _ => NotBytes
                        end, s)))).
Proof.
  unfold contents_read_unavailable, read_unavailable, read_file_data,
    no_attribute. unfold_m.
  destruct response as [c ct rd]. cbn [contents content read].
  split; [| split].
  - intros v ->. reflexivity.
  - intros e -> He. simpl. now rewrite He.
  - intros Hc. split.
    + intros v ->.
      destruct c as [[[v0 | e0] | v0] |]; simpl in *;
        [discriminate | now rewrite Hc | reflexivity | reflexivity].
    + intros ->. split; [| split].
      * intros v ->.
        destruct c as [[[v0 | e0] | v0] |]; simpl in *;
          [discriminate | now rewrite Hc | reflexivity | reflexivity].
      * intros e -> He.
        destruct c as [[[v0 | e0] | v0] |]; simpl in *;
          [discriminate | rewrite Hc | |]; simpl; now rewrite He.
      * intros Hr.
        destruct c as [[[v0 | e0] | v0] |]; simpl in *;
          [discriminate | rewrite Hc | |]; simpl;
          (destruct rd as [[v1 | e1] |]; simpl in *;
           [discriminate | now rewrite Hr | reflexivity]).
Qed.

(* ===================================================================== *)
(** ** NULL in a filtered column                                          *)
(* ===================================================================== *)

(** X23: A filter that is set needs a value in its column: a row without score
    fails any score bound, a row without label any label filter, a row
    without label-detail any label-detail filter.  A filter that is [None]
    or the empty string, a score bound that is [None], lets the row
    through whatever the column holds. *)
Theorem null_fails_set_filter (search_term lb d : option string)
  (min_score max_score : option Q) (r : ImageRecord) :
  (score r = None -> min_score <> None \/ max_score <> None ->
   row_passes search_term lb d min_score max_score r = false)
  /\ (label r = None -> str_truthy lb = true ->
      row_passes search_term lb d min_score max_score r = false)
  /\ (labelDetail r = None -> str_truthy d = true ->
      row_passes search_term lb d min_score max_score r = false)
  /\ (str_truthy search_term = false -> str_truthy lb = false ->
      str_truthy d = false -> min_score = None -> max_score = None ->
      row_passes search_term lb d min_score max_score r = true).
Proof.
  rewrite row_passes_matches. unfold matches.
  split; [| split; [| split]].
  - intros Hs Hb. unfold min_matches, max_matches. rewrite Hs.
    destruct min_score, max_score; rewrite ?andb_false_r; try reflexivity.
    destruct Hb as [Hb | Hb]; now destruct Hb.
  - intros Hl Ht. unfold text_matches at 1, when_str. rewrite Hl.
    unfold str_truthy in Ht. destruct lb as [x |]; [| discriminate Ht].
    apply negb_true_iff in Ht. rewrite Ht.
    now rewrite andb_false_r.
  - intros Hl Ht. unfold text_matches at 2, when_str. rewrite Hl.
    unfold str_truthy in Ht. destruct d as [x |]; [| discriminate Ht].
    apply negb_true_iff in Ht. rewrite Ht.
    now rewrite !andb_false_r.
  - intros Ht Hl Hd -> ->.
    unfold search_matches, text_matches, min_matches, max_matches, when_str,
      str_truthy in *.
    destruct search_term as [x |]; [apply negb_false_iff in Ht; rewrite Ht |];
      (destruct lb as [y |]; [apply negb_false_iff in Hl; rewrite Hl |]);
      (destruct d as [z |]; [apply negb_false_iff in Hd; rewrite Hd |]);
      reflexivity.
Qed.

(* ===================================================================== *)
(** ** Integer ids handed to the loader                                   *)
(* ===================================================================== *)

Lemma string_of_uint_digits (d : Decimal.uint) :
  PyStr.all_chars PyStr.isdigit_char (NilEmpty.string_of_uint d) = true.
Proof. induction d; simpl; auto. Qed.

Lemma nilzero_digits (d : Decimal.uint) :
  PyStr.all_chars PyStr.isdigit_char (NilZero.string_of_uint d) = true
  /\ PyStr.isdigit (NilZero.string_of_uint d) = true.
Proof.
  destruct d; simpl; try (split; reflexivity);
    split; apply string_of_uint_digits.
Qed.

Lemma all_chars_impl (p q : ascii -> bool) (s : string) :
  (forall c, p c = true -> q c = true) ->
  PyStr.all_chars p s = true -> PyStr.all_chars q s = true.
Proof.
  intros H. induction s as [| c s IH]; [reflexivity |].
  simpl. rewrite !andb_true_iff. intros [Hc Hs]. auto.
Qed.

Lemma digit_not_space (c : ascii) :
  PyStr.isdigit_char c = true -> negb (PyStr.isspace_char c) = true.
Proof.
  destruct c as [[] [] [] [] [] [] [] []]; vm_compute; intros H;
    first [reflexivity | discriminate H].
Qed.

Lemma rstrip_no_space (s : string) :
  PyStr.all_chars (fun c => negb (PyStr.isspace_char c)) s = true ->
  PyStr.rstrip s = s.
Proof.
  induction s as [| c s IH]; [reflexivity |].
  simpl. rewrite andb_true_iff. intros [Hc Hs].
  rewrite (IH Hs). apply negb_true_iff in Hc. rewrite Hc.
  destruct s; reflexivity.
Qed.

Lemma strip_no_space (s : string) :
  PyStr.all_chars (fun c => negb (PyStr.isspace_char c)) s = true ->
  PyStr.strip s = s.
Proof.
  intros H. unfold PyStr.strip.
  assert (Hl : PyStr.lstrip s = s).
  { destruct s as [| c s]; [reflexivity |].
    simpl in H |- *. apply andb_true_iff in H. destruct H as [Hc _].
    apply negb_true_iff in Hc. now rewrite Hc. }
  rewrite Hl. now apply rstrip_no_space.
Qed.

(** X24: An integer handed to [load_image_from_volume] (an id read from the
    table instead of a path) is never downloaded: zero is taken for an
    empty path, a positive number is recognized by its digits, and a
    negative one is a name without extension; the method returns [None]
    each time. *)
Theorem integer_id_is_refused (env : Env) (z : Z) (s : State) :
  exists s' evs,
    load_image_from_volume env (PathInt z) s = (Return None, s')
    /\ log s' = log s ++ evs
    /\ downloads evs = [].
Proof.
  destruct (load_image_from_volume_run env (PathInt z) s)
    as (r & s' & evs & E & Hl & Hf & Hrun).
  exists s', evs.
  assert (Hr : r = Return None /\ downloads evs = []).
  { destruct (path_truthy (PathInt z)) eqn:Et; [| now apply Hf].
    specialize (Hrun eq_refl s).
    destruct (normalized_path_run (PyStr.strip (path_str (PathInt z))) s)
      as (s1 & evs1 & E1 & _).
    rewrite E1 in Hrun. cbn [fst] in Hrun.
    destruct z as [| p | p]; [discriminate Et | |]; cbn [path_str] in Hrun.
    - unfold Z.to_int, NilZero.string_of_int in Hrun.
      destruct (nilzero_digits (Pos.to_uint p)) as [Hall Hdig].
      rewrite strip_no_space in Hrun
        by (exact (all_chars_impl _ _ _ digit_not_space Hall)).
      assert (Hp1 := isdigit_first_char _ "d" "bfs:/Volumes/" Hdig eq_refl).
      assert (Hp2 := isdigit_first_char _ "/" "Volumes/" Hdig eq_refl).
      unfold PyStr.startswith in Hrun. rewrite Hp1, Hp2, Hdig in Hrun.
      exact Hrun.
    - unfold Z.to_int, NilZero.string_of_int in Hrun.
      destruct (nilzero_digits (Pos.to_uint p)) as [Hall Hdig].
      set (ds := NilZero.string_of_uint (Pos.to_uint p)) in *.
      rewrite strip_no_space in Hrun.
      2: { simpl. exact (all_chars_impl _ _ _ digit_not_space Hall). }
      unfold PyStr.startswith, PyStr.contains in Hrun.
      rewrite !prefix_cons in Hrun. cbn [Ascii.eqb Bool.eqb] in Hrun.
      cbn [PyStr.isdigit PyStr.all_chars] in Hrun.
      change (PyStr.isdigit_char "-") with false in Hrun.
      cbn [andb] in Hrun.
      rewrite !index_cons, !prefix_char in Hrun.
      cbn [Ascii.eqb Bool.eqb] in Hrun.
      rewrite (all_digits_no_char ds "/" eq_refl Hall) in Hrun.
      rewrite (all_digits_no_char ds "." eq_refl Hall) in Hrun.
      exact Hrun. }
  destruct Hr as [-> Hd]. auto.
Qed.

(* ===================================================================== *)
(** ** Invariants of the manager over sequences of calls                  *)
(* ===================================================================== *)

Section Maintains.

Variable J : State -> Prop.
Variable Q : event -> bool.

(** [J] speaks of the token, its time stamp and the pool only. *)
Hypothesis J_fields : forall s s',
  postgres_password s' = postgres_password s ->
  last_password_refresh s' = last_password_refresh s ->
  connection_pool s' = connection_pool s ->
  J s -> J s'.

Hypothesis Q_other : forall e, no_refresh_event e = true -> Q e = true.

Lemma maintains_ret {A : Type} (a : A) : maintains J Q (ret a).
Proof.
  intros s H. split; [exact H |]. exists []. now rewrite app_nil_r.
Qed.

Lemma maintains_raise {A : Type} (e : exn) : maintains J Q (@raise A e).
Proof.
  intros s H. split; [exact H |]. exists []. now rewrite app_nil_r.
Qed.

Lemma maintains_lift {A : Type} (r : result A) : maintains J Q (lift r).
Proof.
  intros s H. split; [exact H |]. exists []. now rewrite app_nil_r.
Qed.

Lemma maintains_get : maintains J Q get.
Proof.
  intros s H. split; [exact H |]. exists []. now rewrite app_nil_r.
Qed.

Lemma maintains_bind {A B : Type} (c : M A) (f : A -> M B) :
  maintains J Q c -> (forall a, maintains J Q (f a)) ->
  maintains J Q (bind c f).
Proof.
  intros Hc Hf s H. unfold bind.
  destruct (Hc s H) as (H1 & evs1 & Hl1 & Hq1).
  destruct (c s) as [[a | e] s1]; cbn [snd] in *.
  - destruct (Hf a s1 H1) as (H2 & evs2 & Hl2 & Hq2).
    split; [exact H2 |]. exists (evs1 ++ evs2).
    rewrite Hl2, Hl1, app_assoc, forallb_app, Hq1, Hq2. auto.
  - split; [exact H1 |]. exists evs1. auto.
Qed.

Lemma maintains_try_except {A : Type} (c : M A) (classes : exn -> bool)
  (h : exn -> M A) :
  maintains J Q c -> (forall e, maintains J Q (h e)) ->
  maintains J Q (try_except c classes h).
Proof.
  intros Hc Hh s H. unfold try_except.
  destruct (Hc s H) as (H1 & evs1 & Hl1 & Hq1).
  destruct (c s) as [[a | e] s1]; cbn [snd] in *.
  - split; [exact H1 |]. exists evs1. auto.
  - destruct (classes e).
    + destruct (Hh e s1 H1) as (H2 & evs2 & Hl2 & Hq2).
      split; [exact H2 |]. exists (evs1 ++ evs2).
      rewrite Hl2, Hl1, app_assoc, forallb_app, Hq1, Hq2. auto.
    + split; [exact H1 |]. exists evs1. auto.
Qed.

Lemma maintains_emit (e : event) :
  no_refresh_event e = true -> maintains J Q (emit e).
Proof.
  intros He s H. split.
  - apply (J_fields s); auto.
  - exists [e]. split; [reflexivity |]. simpl. now rewrite (Q_other e He).
Qed.

Lemma maintains_set_DEFAULT_SCHEMA (v : string) :
  maintains J Q (set_DEFAULT_SCHEMA v).
Proof.
  intros s H. split.
  - apply (J_fields s); auto.
  - exists []. now rewrite app_nil_r.
Qed.

Lemma maintains_cur_execute (env : Env) (q : query) (ps : list sqlval) :
  maintains J Q (cur_execute env q ps).
Proof.
  unfold cur_execute. apply maintains_bind.
  - now apply maintains_emit.
  - intros _. apply maintains_lift.
Qed.

Lemma maintains_for_each {A B : Type} (f : A -> M B) (l : list A) :
  (forall a, maintains J Q (f a)) -> maintains J Q (for_each f l).
Proof.
  intros H. induction l as [| a l IH]; simpl.
  - apply maintains_ret.
  - apply maintains_bind; [apply H |]. intros y.
    apply maintains_bind; [exact IH |]. intros ys. apply maintains_ret.
Qed.

Lemma maintains_getitem (t : list sqlval) (i : nat) :
  maintains J Q (getitem t i).
Proof.
  unfold getitem. destruct (nth_error t i);
    [apply maintains_ret | apply maintains_raise].
Qed.

Lemma maintains_fetchone_item (rows : list (list sqlval)) (i : nat) :
  maintains J Q (fetchone_item rows i).
Proof.
  unfold fetchone_item. destruct (fetchone rows);
    [apply maintains_getitem | apply maintains_raise].
Qed.

Lemma maintains_float (v : sqlval) : maintains J Q (float v).
Proof.
  destruct v; simpl; try destruct (float8_overflow _);
    first [apply maintains_ret | apply maintains_raise].
Qed.

Lemma maintains_schema_or_default (schema : option string) :
  maintains J Q (schema_or_default schema).
Proof.
  unfold schema_or_default. destruct schema; [apply maintains_ret |].
  apply maintains_bind; [apply maintains_get |].
  intros s. apply maintains_ret.
Qed.

Variable env : Env.
Hypothesis get_connection_maintains : maintains J Q (get_connection env).

Ltac maintains_step :=
  repeat first
    [ apply maintains_schema_or_default
    | apply maintains_cur_execute
    | apply maintains_for_each
    | apply maintains_getitem
    | apply maintains_fetchone_item
    | apply maintains_float
    | apply maintains_set_DEFAULT_SCHEMA
    | apply get_connection_maintains
    | apply maintains_ret
    | apply maintains_raise
    | apply maintains_emit; reflexivity
    | apply maintains_bind
    | apply maintains_try_except
    | match goal with
      | |- maintains _ _ (match ?x with _ => _ end) => destruct x
      | |- forall _, _ => intro
      end ].

Lemma find_table_schema_maintains (table : string) :
  maintains J Q (find_table_schema env table).
Proof. unfold find_table_schema, with_connection. maintains_step. Qed.

Lemma check_table_exists_maintains (schema : option string) (table : string) :
  maintains J Q (check_table_exists env schema table).
Proof.
  unfold check_table_exists, with_connection, st_error.
  apply maintains_bind; [apply maintains_schema_or_default |]. intros sc.
  apply maintains_try_except; [| maintains_step].
  apply maintains_bind; [apply get_connection_maintains |]. intros conn.
  do 3 (apply maintains_bind; [apply maintains_cur_execute |]; intros ?).
  apply maintains_bind; [apply maintains_fetchone_item |]. intros result.
  destruct (sqlval_truthy result); [apply maintains_ret |].
  apply maintains_bind; [apply find_table_schema_maintains |].
  intros [v |]; [| apply maintains_ret].
  destruct (sqlval_truthy v); maintains_step.
Qed.

Lemma run_op_maintains (op : query_op) (schema : option string) :
  maintains J Q (run_op env op schema).
Proof.
  destruct op as [l o t lb d mn mx | lb d mn mx | | lb | | t lb d mn mx];
    unfold run_op, get_image_paths, get_all_image_paths, get_distinct_labels,
      get_distinct_label_details, get_score_range, get_total_image_count,
      with_connection;
    cbv zeta; unfold when_str; maintains_step.
Qed.

Lemma run_calls_maintains (calls : list call) :
  maintains J Q (run_calls env calls).
Proof.
  unfold run_calls. apply maintains_for_each. intros [op schema | schema table | table];
    unfold run_call.
  - apply run_op_maintains.
  - apply maintains_bind; [apply check_table_exists_maintains |].
    intros b. apply maintains_ret.
  - apply maintains_bind; [apply find_table_schema_maintains |].
    intros r. apply maintains_ret.
Qed.

End Maintains.

Lemma forallb_any_event (l : list event) : forallb any_event l = true.
Proof. induction l; simpl; auto. Qed.

Lemma no_refresh_counts (evs : list event) :
  forallb no_refresh_event evs = true ->
  count_events is_token_request evs = 0%nat
  /\ count_events is_pool_create evs = 0%nat
  /\ count_events is_pool_close evs = 0%nat.
Proof.
  unfold count_events.
  induction evs as [| e evs IH]; [auto |].
  simpl. rewrite andb_true_iff. intros [He Hevs].
  destruct (IH Hevs) as (H1 & H2 & H3).
  unfold no_refresh_event in He. apply negb_true_iff in He.
  apply orb_false_iff in He. destruct He as [He E3].
  apply orb_false_iff in He. destruct He as [E1 E2].
  rewrite E1, E2, E3. auto.
Qed.

Lemma get_connection_pool_current (env : Env) :
  maintains (pool_current env) any_event (get_connection env).
Proof.
  intros s H. split.
  - revert H. unfold pool_current.
    destruct s as [pw last cp ds cr tr co lg].
    unfold get_connection, token_stale, get_connection_pool,
      refresh_oauth_token, token_stale. unfold_m. cbn -[conn_string].
    destruct pw as [tok |]; destruct cp as [pool |]; cbn -[conn_string];
      repeat match goal with
             | |- context [Qle_bool ?a ?b] =>
                 destruct (Qle_bool a b); cbn -[conn_string]
             | |- context [env_oauth_token env ?n] =>
                 destruct (env_oauth_token env n) as [tok' | e];
                 cbn -[conn_string]
             | |- context [isinstance_Exception ?e] =>
                 destruct (isinstance_Exception e); cbn -[conn_string]
             end;
      intros H; auto.
  - destruct s as [pw last cp ds cr tr co lg].
    unfold get_connection, token_stale, get_connection_pool,
      refresh_oauth_token, token_stale. unfold_m. cbn -[conn_string].
    destruct pw as [tok |]; destruct cp as [pool |]; cbn -[conn_string];
      repeat match goal with
             | |- context [Qle_bool ?a ?b] =>
                 destruct (Qle_bool a b); cbn -[conn_string]
             | |- context [env_oauth_token env ?n] =>
                 destruct (env_oauth_token env n) as [tok' | e];
                 cbn -[conn_string]
             | |- context [isinstance_Exception ?e] =>
                 destruct (isinstance_Exception e); cbn -[conn_string]
             end;
      eexists; (split; [rewrite <- ?app_assoc; reflexivity
                       | apply forallb_any_event]).
Qed.

Lemma get_connection_holds_token (env : Env) (token : string) (T : Q)
  (pool : ConnectionPool) :
  (forall n, (env_time env n <= T + 900)%Q) ->
  maintains (holds_token token T pool) no_refresh_event (get_connection env).
Proof.
  intros Hclock s (Hp & Hl & Hc).
  destruct s as [pw last cp ds cr tr co lg]. simpl in *. subst pw last cp.
  unfold get_connection, token_stale, get_connection_pool. unfold_m. simpl.
  rewrite (not_stale _ _ (Hclock cr)). simpl.
  split; [repeat split |].
  exists [Pool_checkout pool]. split; reflexivity.
Qed.

(** X25: Whatever the world does and whatever the calls are, the pool the
    manager holds was built with the token the manager holds: the
    connection string of the pool carries the current token.  This holds
    for the fresh manager and is kept by every public operation of the
    database layer, whether it returns or raises. *)
Theorem pool_carries_current_token (env : Env) (calls : list call)
  (s : State) :
  pool_current env s ->
  pool_current env (snd (run_calls env calls s)).
Proof.
  intros H.
  apply (run_calls_maintains (pool_current env) any_event); try assumption.
  - intros s1 s2 Hp _ Hc. unfold pool_current. now rewrite Hp, Hc.
  - reflexivity.
  - apply get_connection_pool_current.
Qed.

Lemma pool_carries_current_token_witness :
  let calls := [Call_check_table_exists None TABLE_NAME;
                Call_query Op_get_distinct_labels (Some "alt")] in
  pool_current ex_env_rotating ex_rotating_connected
  /\ pool_current ex_env_rotating
       (snd (run_calls ex_env_rotating calls ex_rotating_connected)).
Proof.
  intros calls.
  assert (H : pool_current ex_env_rotating ex_rotating_connected)
    by (vm_compute; reflexivity).
  split; [exact H |].
  exact (pool_carries_current_token ex_env_rotating calls
           ex_rotating_connected H).
Defined.

(** In that run the manager starts with the first token and a pool built
    with it; the token has expired when the first call comes, so the pool
    is closed and another is built with the second token, which is the
    one the manager holds in the end. *)
Example pool_rebuilt_with_new_token :
  let calls := [Call_check_table_exists None TABLE_NAME;
                Call_query Op_get_distinct_labels (Some "alt")] in
  let s := snd (run_calls ex_env_rotating calls ex_rotating_connected) in
  postgres_password ex_rotating_connected = Some "token"
  /\ option_map conninfo (connection_pool ex_rotating_connected)
     = Some (conn_string ex_env_rotating (Some "token"))
  /\ fst (run_calls ex_env_rotating calls ex_rotating_connected)
     = Return [tt; tt]
  /\ postgres_password s = Some "token2"
  /\ option_map conninfo (connection_pool s)
     = Some (conn_string ex_env_rotating (Some "token2"))
  /\ count_events is_pool_create (log s) = 2%nat
  /\ count_events is_pool_close (log s) = 1%nat.
Proof. vm_compute. repeat split; reflexivity. Qed.

(** X26: While the clock has not passed [T + 900], a manager that holds a
    token fetched at [T] and its pool serves any sequence of public
    operations with them: afterwards it holds the same token, time stamp
    and pool, and no token was requested, no pool built and none closed,
    whether the operations returned or raised. *)
Theorem fresh_token_serves_every_call (env : Env) (token : string) (T : Q)
  (pool : ConnectionPool) (calls : list call) (s : State) :
  (forall n, (env_time env n <= T + 900)%Q) ->
  holds_token token T pool s ->
  holds_token token T pool (snd (run_calls env calls s))
  /\ exists evs,
       log (snd (run_calls env calls s)) = log s ++ evs
       /\ count_events is_token_request evs = 0%nat
       /\ count_events is_pool_create evs = 0%nat
       /\ count_events is_pool_close evs = 0%nat.
Proof.
  intros Hclock H.
  destruct (run_calls_maintains (holds_token token T pool) no_refresh_event)
    with (env := env) (calls := calls) (s := s) as (HJ & evs & Hl & Hq).
  - intros s1 s2 Hp Hl Hc (H1 & H2 & H3). unfold holds_token.
    rewrite Hp, Hl, Hc. auto.
  - auto.
  - now apply get_connection_holds_token.
  - exact H.
  - split; [exact HJ |]. exists evs. split; [exact Hl |].
    now apply no_refresh_counts.
Qed.

Lemma fresh_token_serves_every_call_witness :
  let env := ex_env_at 900 in
  let s := ex_connected 900 in
  let pool := {| conninfo := conn_string env (Some "token");
                 min_size := CONNECTION_POOL_MIN_SIZE;
                 max_size := CONNECTION_POOL_MAX_SIZE |} in
  let calls := [Call_check_table_exists None TABLE_NAME;
                Call_query (Op_get_total_image_count None None None None None)
                           None;
                Call_query Op_get_score_range (Some "no_such_schema");
                Call_find_table_schema TABLE_NAME] in
  holds_token "token" 0 pool (snd (run_calls env calls s))
  /\ exists evs,
       log (snd (run_calls env calls s)) = log s ++ evs
       /\ count_events is_token_request evs = 0%nat
       /\ count_events is_pool_create evs = 0%nat
       /\ count_events is_pool_close evs = 0%nat.
Proof.
  intros env s pool calls.
  apply (fresh_token_serves_every_call env "token" 0 pool calls s).
  - intros [| n]; vm_compute; discriminate.
  - repeat split.
Defined.

(* ===================================================================== *)
(** ** Filter values stay out of the query text                           *)
(* ===================================================================== *)

Lemma fst_when_str (cp : list condition * list sqlval) (o : option string)
  (c : condition) (g : string -> sqlval) :
  fst (when_str o cp (fun x => append_condition cp c (g x)))
  = if str_truthy o then fst cp ++ [c] else fst cp.
Proof.
  unfold when_str, str_truthy.
  destruct o as [x |]; [destruct (String.eqb x "") |]; reflexivity.
Qed.

Lemma fst_when_not_None (cp : list condition * list sqlval) (o : option Q)
  (c : condition) (g : Q -> sqlval) :
  fst (when_not_None o cp (fun x => append_condition cp c (g x)))
  = if is_set o then fst cp ++ [c] else fst cp.
Proof. destruct o; reflexivity. Qed.

Lemma where_clause_shape (t lb d : option string) (mn mx : option Q) :
  where_clause t lb d mn mx
  = (if str_truthy t then [Cmp PATH_COLUMN ILIKE] else [])
    ++ (if str_truthy lb then [Cmp "label" EQ] else [])
    ++ (if str_truthy d then [Cmp "labelDetail" EQ] else [])
    ++ (if is_set mn then [Cmp "score" GE] else [])
    ++ (if is_set mx then [Cmp "score" LE] else []).
Proof.
  unfold where_clause, label_score_conditions, search_condition. cbv zeta.
  rewrite !fst_when_not_None, !fst_when_str. cbn [fst].
  destruct (str_truthy t), (str_truthy lb), (str_truthy d), (is_set mn),
    (is_set mx); reflexivity.
Qed.

(** X27: The values of the filters never reach the text of the query: the
    WHERE clause is made of fixed conditions with a placeholder each, one
    for every filter that is set, in the order search term, label,
    label-detail, lower bound, upper bound; two filter sets with the same
    filters set give the same clause, and the values travel as bound
    parameters, one for each placeholder. *)
Theorem filter_values_are_parameters (t lb d : option string)
  (mn mx : option Q) :
  where_clause t lb d mn mx
  = (if str_truthy t then [Cmp PATH_COLUMN ILIKE] else [])
    ++ (if str_truthy lb then [Cmp "label" EQ] else [])
    ++ (if str_truthy d then [Cmp "labelDetail" EQ] else [])
    ++ (if is_set mn then [Cmp "score" GE] else [])
    ++ (if is_set mx then [Cmp "score" LE] else [])
  /\ List.length (where_params t lb d mn mx)
     = List.length (where_clause t lb d mn mx)
  /\ (forall t' lb' d' mn' mx',
        str_truthy t' = str_truthy t -> str_truthy lb' = str_truthy lb ->
        str_truthy d' = str_truthy d -> is_set mn' = is_set mn ->
        is_set mx' = is_set mx ->
        where_clause t' lb' d' mn' mx' = where_clause t lb d mn mx)
  /\ (forall env limit offset schema,
        get_image_paths env limit offset t lb d mn mx schema
        = (schema <- schema_or_default schema ;;
           with_connection env (fun conn =>
             rows <- cur_execute env
                       (Select {| sel_proj := Column false PATH_COLUMN;
                                  sel_from := (schema, TABLE_NAME);
                                  sel_where := where_clause t lb d mn mx;
                                  sel_order_by := true;
                                  sel_limit_offset := true |})
                       (where_params t lb d mn mx
                        ++ [Integer limit; Integer offset]) ;;
             ret rows))).
Proof.
  split; [apply where_clause_shape |]. split; [| split].
  - unfold where_params, where_clause. symmetry.
    apply (well_formed_label_score _ lb d mn mx
             (well_formed_search _ t well_formed_nil)).
  - intros t' lb' d' mn' mx' H1 H2 H3 H4 H5.
    rewrite !where_clause_shape, H1, H2, H3, H4, H5. reflexivity.
  - reflexivity.
Qed.

(* ===================================================================== *)
(** ** C5: what becomes of a failure in a query operation                 *)
(* ===================================================================== *)

Lemma keeps_state_ret {A : Type} (a : A) : keeps_state (ret a).
Proof. intros s. reflexivity. Qed.

Lemma keeps_state_raise {A : Type} (e : exn) : keeps_state (@raise A e).
Proof. intros s. reflexivity. Qed.

Lemma keeps_state_bind {A B : Type} (c : M A) (f : A -> M B) :
  keeps_state c -> (forall a, keeps_state (f a)) -> keeps_state (bind c f).
Proof.
  intros Hc Hf s. unfold bind. specialize (Hc s).
  destruct (c s) as [[a | e] s1]; cbn [snd] in *; subst s1;
    [apply Hf | reflexivity].
Qed.

Lemma keeps_state_getitem (t : list sqlval) (i : nat) :
  keeps_state (getitem t i).
Proof.
  unfold getitem. destruct (nth_error t i);
    [apply keeps_state_ret | apply keeps_state_raise].
Qed.

Lemma keeps_state_for_each {A B : Type} (f : A -> M B) (l : list A) :
  (forall a, keeps_state (f a)) -> keeps_state (for_each f l).
Proof.
  intros H. induction l as [| a l IH]; simpl.
  - apply keeps_state_ret.
  - apply keeps_state_bind; [apply H |]. intros y.
    apply keeps_state_bind; [exact IH |]. intros ys. apply keeps_state_ret.
Qed.

Lemma keeps_state_fetchone_item (rows : list (list sqlval)) (i : nat) :
  keeps_state (fetchone_item rows i).
Proof.
  unfold fetchone_item. destruct (fetchone rows);
    [apply keeps_state_getitem | apply keeps_state_raise].
Qed.

Lemma keeps_state_float (v : sqlval) : keeps_state (float v).
Proof.
  destruct v; simpl; try destruct (float8_overflow _);
    first [apply keeps_state_ret | apply keeps_state_raise].
Qed.

Ltac keeps_state_step :=
  repeat first
    [ apply keeps_state_ret
    | apply keeps_state_raise
    | apply keeps_state_getitem
    | apply keeps_state_fetchone_item
    | apply keeps_state_float
    | apply keeps_state_for_each
    | apply keeps_state_bind
    | match goal with
      | |- keeps_state (match ?x with _ => _ end) => destruct x
      | |- keeps_state (if ?x then _ else _) => destruct x
      | |- forall _, _ => intro
      end ].

(** A statement is executed and the rows are worked on without touching
    the state: the statement is the last thing in the log, and an error
    of the server is the outcome. *)
Lemma execute_then {A : Type} (env : Env) (q : query) (ps : list sqlval)
  (k : list (list sqlval) -> M A) (s1 : State) :
  (forall rows, keeps_state (k rows)) ->
  log (snd ((rows <- cur_execute env q ps ;; k rows) s1))
  = log s1 ++ [Execute q ps]
  /\ forall e, execute (env_server env) q ps = Raise e ->
               fst ((rows <- cur_execute env q ps ;; k rows) s1) = Raise e.
Proof.
  intros Hk.
  destruct (cur_execute_run env q ps s1) as (s2 & E & _ & Hl).
  unfold bind. rewrite E.
  destruct (execute (env_server env) q ps) as [rows | e0].
  - rewrite Hk. split; [exact Hl | discriminate].
  - split; [exact Hl |]. now intros e [= ->].
Qed.

Lemma drop_value {A : Type} (c : M A) (s : State) :
  snd ((c ;; ret tt) s) = snd (c s)
  /\ forall e, fst (c s) = Raise e -> fst ((c ;; ret tt) s) = Raise e.
Proof.
  unfold bind, ret. destruct (c s) as [[a | e0] s1]; split;
    try reflexivity; intros e He;
    [discriminate He | cbn [fst] in *; congruence].
Qed.

(** Once the connection is there, each query operation executes its
    statement, and nothing else, and an error of the server leaves the
    operation as it is. *)
Lemma run_op_executes (env : Env) (op : query_op) (schema : option string)
  (s s1 : State) (conn : Connection) :
  get_connection env s = (Return conn, s1) ->
  log (snd (run_op env op schema s))
  = log s1 ++ [Execute (fst (op_statement op (resolve schema s)))
                       (snd (op_statement op (resolve schema s)))]
  /\ forall e,
       execute (env_server env) (fst (op_statement op (resolve schema s)))
               (snd (op_statement op (resolve schema s))) = Raise e ->
       fst (run_op env op schema s) = Raise e.
Proof.
  intros H.
  assert (G : forall A (c : M A) q ps (k : list (list sqlval) -> M A),
             c = (sc <- schema_or_default schema ;;
                  with_connection env (fun _ =>
                    rows <- cur_execute env (q sc) (ps sc) ;; k rows)) ->
             (forall rows, keeps_state (k rows)) ->
             log (snd ((c ;; ret tt) s))
             = log s1 ++ [Execute (q (resolve schema s)) (ps (resolve schema s))]
             /\ forall e,
                  execute (env_server env) (q (resolve schema s))
                          (ps (resolve schema s)) = Raise e ->
                  fst ((c ;; ret tt) s) = Raise e).
  { intros A c q ps k -> Hk.
    destruct (drop_value
                (sc <- schema_or_default schema ;;
                 with_connection env (fun _ =>
                   rows <- cur_execute env (q sc) (ps sc) ;; k rows)) s)
      as [D1 D2].
    rewrite D1.
    rewrite (bind_return _ _ _ _ _ (schema_or_default_run schema s)) in *.
    rewrite (with_connection_return _ _ _ _ _ H) in *.
    destruct (execute_then env (q (resolve schema s)) (ps (resolve schema s))
                k s1 Hk) as [L1 L2].
    split; [exact L1 |]. intros e He. apply D2, L2, He. }
  destruct op as [l o t lb d mn mx | lb d mn mx | | lb | | t lb d mn mx];
    unfold run_op.
  - apply (G _ _ (fun sc => fst (op_statement (Op_get_image_paths l o t lb d mn mx) sc))
             (fun sc => snd (op_statement (Op_get_image_paths l o t lb d mn mx) sc))
             (fun rows => ret rows)); [reflexivity | keeps_state_step].
  - apply (G _ _ (fun sc => fst (op_statement (Op_get_all_image_paths lb d mn mx) sc))
             (fun sc => snd (op_statement (Op_get_all_image_paths lb d mn mx) sc))
             (fun rows => for_each (fun record => getitem record 0) rows));
      [reflexivity | keeps_state_step].
  - apply (G _ _ (fun sc => fst (op_statement Op_get_distinct_labels sc))
             (fun sc => snd (op_statement Op_get_distinct_labels sc))
             (fun rows => for_each (fun record => getitem record 0) rows));
      [reflexivity | keeps_state_step].
  - apply (G _ _ (fun sc => fst (op_statement (Op_get_distinct_label_details lb) sc))
             (fun sc => snd (op_statement (Op_get_distinct_label_details lb) sc))
             (fun rows => for_each (fun record => getitem record 0) rows));
      [| keeps_state_step].
    unfold get_distinct_label_details, op_statement, when_str.
    destruct lb as [x |]; [destruct (String.eqb x "") |]; reflexivity.
  - unfold get_score_range.
    refine (G _ _ (fun sc => fst (op_statement Op_get_score_range sc))
              (fun sc => snd (op_statement Op_get_score_range sc))
              _ eq_refl _).
    keeps_state_step.
  - apply (G _ _ (fun sc => fst (op_statement (Op_get_total_image_count t lb d mn mx) sc))
             (fun sc => snd (op_statement (Op_get_total_image_count t lb d mn mx) sc))
             (fun rows => fetchone_item rows 0)); [reflexivity | keeps_state_step].
Qed.




(** A score beyond the range of [float8]: a score bound makes the server
    cast it and fail, and the error leaves the operation; without a bound
    nothing is cast; and Python's [float()] turns the maximum into an
    infinity. *)
Example score_out_of_range :
  fst (get_all_image_paths ex_env_huge None None (Some 0%Q) None
                           (Some "alt") initial_state)
  = Raise (sql_error "value out of range for type double precision")
  /\ fst (get_all_image_paths ex_env_huge None None None None
                              (Some "alt") initial_state)
     = Return [Text "/Volumes/m/x.png"; Text "/Volumes/m/y.png"]
  /\ fst (get_score_range ex_env_huge (Some "alt") initial_state)
     = Return (Finite (1 # 2), Infinity false).
Proof. vm_compute. repeat split; reflexivity. Qed.


(** Errors of the server in the example world, each of which leaves
    [get_image_paths] as an exception: a schema without the table, a
    limit that is no [bigint], a negative offset (which PostgreSQL
    reports before a negative limit), a negative limit. *)
Example query_errors_propagate :
  fst (get_image_paths ex_env 24 0 None None None None None
                       (Some "public") initial_state)
  = Raise (sql_error "relation does not exist")
  /\ fst (get_image_paths ex_env (2 ^ 63) 0 None None None None None
                          (Some "alt") initial_state)
     = Raise (sql_error "bigint out of range")
  /\ fst (get_image_paths ex_env (-1) (-1) None None None None None
                          (Some "alt") initial_state)
     = Raise (sql_error "OFFSET must not be negative")
  /\ fst (get_image_paths ex_env (-1) 0 None None None None None
                          (Some "alt") initial_state)
     = Raise (sql_error "LIMIT must not be negative").
Proof. vm_compute. repeat split; reflexivity. Qed.

(* ===================================================================== *)
(** ** C9: empty strings and zero scores as filter values                 *)
(* ===================================================================== *)

Lemma healthy_executes (env : Env) (op : query_op) (schema : option string)
  (s : State) :
  healthy env ->
  exists evs,
    forallb is_connection_event evs = true
    /\ log (snd (run_op env op schema s))
       = log s ++ evs
         ++ [Execute (fst (op_statement op (resolve schema s)))
                     (snd (op_statement op (resolve schema s)))].
Proof.
  intros Hh.
  destruct (get_connection_healthy env Hh s) as (conn & s1 & evs & E & _ & Hl & Hev).
  destruct (run_op_executes env op schema s s1 conn E) as [Hlog _].
  exists evs. split; [exact Hev |].
  now rewrite Hlog, Hl, <- app_assoc.
Qed.

Lemma run_op_log {A : Type} (c : M A) (s : State) :
  log (snd ((c ;; ret tt) s)) = log (snd (c s)).
Proof. now rewrite (proj1 (drop_value c s)). Qed.

Lemma In_if_singleton {A : Type} (b : bool) (x y : A) :
  In x (if b then [y] else []) <-> b = true /\ x = y.
Proof. destruct b; simpl; intuition congruence. Qed.

Lemma matches_min_0 (t lb d : option string) (mx : option Q) (r : ImageRecord) :
  matches t lb d (Some 0%Q) mx r
  = matches t lb d None mx r && score_at_least_0 r.
Proof.
  unfold matches, min_matches, score_at_least_0.
  change (float8_round 0) with 0%Q.
  destruct (score r); cbn [andb]; rewrite ?andb_true_r;
    [| rewrite !andb_false_r; reflexivity].
  rewrite <- !andb_assoc. do 3 f_equal. apply andb_comm.
Qed.

Lemma matches_max_0 (t lb d : option string) (mn : option Q) (r : ImageRecord) :
  matches t lb d mn (Some 0%Q) r
  = matches t lb d mn None r && score_at_most_0 r.
Proof.
  unfold matches, max_matches, score_at_most_0.
  change (float8_round 0) with 0%Q.
  destruct (score r); cbn [andb]; rewrite ?andb_true_r; reflexivity.
Qed.

Lemma matches_empty_strings (t lb d : option string) (mn mx : option Q)
  (r : ImageRecord) :
  (str_truthy t = false -> matches t lb d mn mx r = matches None lb d mn mx r)
  /\ (str_truthy lb = false ->
      matches t lb d mn mx r = matches t None d mn mx r)
  /\ (str_truthy d = false ->
      matches t lb d mn mx r = matches t lb None mn mx r).
Proof.
  unfold matches, search_matches, text_matches, when_str, str_truthy.
  repeat split; intros H.
  - destruct t as [x |]; [| reflexivity].
    destruct (String.eqb x ""); [reflexivity | discriminate].
  - destruct lb as [x |]; [| reflexivity].
    destruct (String.eqb x ""); [reflexivity | discriminate].
  - destruct d as [x |]; [| reflexivity].
    destruct (String.eqb x ""); [reflexivity | discriminate].
Qed.

(** C9: in each of the four operations an empty string for [search_term],
    [label] or [label_detail] gives the very computation that [None]
    gives.  In a world where connections succeed each operation sends one
    statement; its WHERE clause holds the condition of a string filter
    exactly when the filter is a non-empty string, and that of a score
    bound exactly when the bound is not [None]: a bound of 0 puts
    [score >= %s] (or [score <= %s]) in the clause and 0 among the
    parameters.  Where the table exists the results are those of the rows
    that pass, and a lower bound of 0 lets pass the rows that pass without
    it and whose score is not NULL and not below 0. *)
Theorem empty_string_is_no_filter :
  (forall env l o t lb d mn mx sch,
      str_truthy t = false ->
      get_image_paths env l o t lb d mn mx sch
      = get_image_paths env l o None lb d mn mx sch)
  /\ (forall env l o t d mn mx sch,
      get_image_paths env l o t (Some "") d mn mx sch
      = get_image_paths env l o t None d mn mx sch)
  /\ (forall env l o t lb mn mx sch,
      get_image_paths env l o t lb (Some "") mn mx sch
      = get_image_paths env l o t lb None mn mx sch)
  /\ (forall env d mn mx sch,
      get_all_image_paths env (Some "") d mn mx sch
      = get_all_image_paths env None d mn mx sch)
  /\ (forall env lb mn mx sch,
      get_all_image_paths env lb (Some "") mn mx sch
      = get_all_image_paths env lb None mn mx sch)
  /\ (forall env sch,
      get_distinct_label_details env (Some "") sch
      = get_distinct_label_details env None sch)
  /\ (forall env t lb d mn mx sch,
      str_truthy t = false ->
      get_total_image_count env t lb d mn mx sch
      = get_total_image_count env None lb d mn mx sch)
  /\ (forall env t d mn mx sch,
      get_total_image_count env t (Some "") d mn mx sch
      = get_total_image_count env t None d mn mx sch)
  /\ (forall env t lb mn mx sch,
      get_total_image_count env t lb (Some "") mn mx sch
      = get_total_image_count env t lb None mn mx sch)
  (* the statement each operation sends *)
  /\ (forall env l o t lb d mn mx schema s,
      healthy env ->
      exists evs,
        forallb is_connection_event evs = true
        /\ log (snd (get_image_paths env l o t lb d mn mx schema s))
           = log s ++ evs
             ++ [Execute
                   (Select {| sel_proj := Column false PATH_COLUMN;
                              sel_from := (resolve schema s, TABLE_NAME);
                              sel_where := where_clause t lb d mn mx;
                              sel_order_by := true;
                              sel_limit_offset := true |})
                   (where_params t lb d mn mx ++ [Integer l; Integer o])])
  /\ (forall env lb d mn mx schema s,
      healthy env ->
      exists evs,
        forallb is_connection_event evs = true
        /\ log (snd (get_all_image_paths env lb d mn mx schema s))
           = log s ++ evs
             ++ [Execute
                   (Select {| sel_proj := Column false PATH_COLUMN;
                              sel_from := (resolve schema s, TABLE_NAME);
                              sel_where := where_clause None lb d mn mx;
                              sel_order_by := true;
                              sel_limit_offset := false |})
                   (where_params None lb d mn mx)])
  /\ (forall env t lb d mn mx schema s,
      healthy env ->
      exists evs,
        forallb is_connection_event evs = true
        /\ log (snd (get_total_image_count env t lb d mn mx schema s))
           = log s ++ evs
             ++ [Execute
                   (Select {| sel_proj := CountStar;
                              sel_from := (resolve schema s, TABLE_NAME);
                              sel_where := where_clause t lb d mn mx;
                              sel_order_by := false;
                              sel_limit_offset := false |})
                   (where_params t lb d mn mx)])
  /\ (forall env lb schema s,
      healthy env ->
      exists evs,
        forallb is_connection_event evs = true
        /\ log (snd (get_distinct_label_details env lb schema s))
           = log s ++ evs
             ++ [Execute
                   (Select {| sel_proj := Column true "labelDetail";
                              sel_from := (resolve schema s, TABLE_NAME);
                              sel_where :=
                                IsNotNull "labelDetail"
                                :: (if str_truthy lb then [Cmp "label" EQ]
                                    else []);
                              sel_order_by := true;
                              sel_limit_offset := false |})
                   (when_str lb [] (fun x => [Text x]))])
  (* what is in the clause and among the parameters *)
  /\ (forall t lb d mn mx,
      (In (Cmp PATH_COLUMN ILIKE) (where_clause t lb d mn mx)
       <-> str_truthy t = true)
      /\ (In (Cmp "label" EQ) (where_clause t lb d mn mx)
          <-> str_truthy lb = true)
      /\ (In (Cmp "labelDetail" EQ) (where_clause t lb d mn mx)
          <-> str_truthy d = true)
      /\ (In (Cmp "score" GE) (where_clause t lb d mn mx) <-> mn <> None)
      /\ (In (Cmp "score" LE) (where_clause t lb d mn mx) <-> mx <> None))
  /\ (forall t lb d mx, In (Numeric 0) (where_params t lb d (Some 0%Q) mx))
  /\ (forall t lb d mn, In (Numeric 0) (where_params t lb d mn (Some 0%Q)))
  (* the results *)
  /\ (forall env sch rows schema s t lb d mn mx,
      healthy env ->
      has_table (env_server env) sch TABLE_NAME rows ->
      resolve schema s = sch ->
      bounds_castable mn mx rows ->
      fst (get_total_image_count env t lb d mn mx schema s)
      = Return (Integer (Z.of_nat (List.length
                  (filter (matches t lb d mn mx) rows))))
      /\ fst (get_all_image_paths env lb d mn mx schema s)
         = Return (map Text (matching_paths None lb d mn mx rows))
      /\ forall l o,
           (0 <= l < 2 ^ 63)%Z -> (0 <= o < 2 ^ 63)%Z ->
           fst (get_image_paths env l o t lb d mn mx schema s)
           = Return (map tuple1 (map Text
               (firstn (Z.to_nat l) (skipn (Z.to_nat o)
                  (matching_paths t lb d mn mx rows))))))
  /\ (forall t lb d mn mx r,
      matches t lb d (Some 0%Q) mx r
      = matches t lb d None mx r && score_at_least_0 r
      /\ matches t lb d mn (Some 0%Q) r
         = matches t lb d mn None r && score_at_most_0 r
      /\ (str_truthy t = false ->
          matches t lb d mn mx r = matches None lb d mn mx r)
      /\ (str_truthy lb = false ->
          matches t lb d mn mx r = matches t None d mn mx r)
      /\ (str_truthy d = false ->
          matches t lb d mn mx r = matches t lb None mn mx r)).
Proof.
  repeat match goal with |- _ /\ _ => split end;
    try reflexivity.
  - intros env l o [t |] lb d mn mx sch H; [| reflexivity].
    unfold get_image_paths.
    rewrite (search_condition_absent _ _ H). reflexivity.
  - intros env [t |] lb d mn mx sch H; [| reflexivity].
    unfold get_total_image_count.
    rewrite (search_condition_absent _ _ H). reflexivity.
  - intros env l o t lb d mn mx schema s Hh.
    destruct (healthy_executes env (Op_get_image_paths l o t lb d mn mx)
                schema s Hh) as (evs & Hev & Hl).
    exists evs. split; [exact Hev |].
    unfold run_op in Hl. rewrite run_op_log in Hl. exact Hl.
  - intros env lb d mn mx schema s Hh.
    destruct (healthy_executes env (Op_get_all_image_paths lb d mn mx)
                schema s Hh) as (evs & Hev & Hl).
    exists evs. split; [exact Hev |].
    unfold run_op in Hl. rewrite run_op_log in Hl. exact Hl.
  - intros env t lb d mn mx schema s Hh.
    destruct (healthy_executes env (Op_get_total_image_count t lb d mn mx)
                schema s Hh) as (evs & Hev & Hl).
    exists evs. split; [exact Hev |].
    unfold run_op in Hl. rewrite run_op_log in Hl. exact Hl.
  - intros env lb schema s Hh.
    destruct (healthy_executes env (Op_get_distinct_label_details lb)
                schema s Hh) as (evs & Hev & Hl).
    exists evs. split; [exact Hev |].
    unfold run_op in Hl. rewrite run_op_log in Hl. rewrite Hl.
    unfold op_statement, when_str, str_truthy.
    destruct lb as [x |]; [destruct (String.eqb x "") |]; reflexivity.
  - intros t lb d mn mx.
    rewrite where_clause_shape, !in_app_iff, !In_if_singleton.
    repeat match goal with |- _ /\ _ => split end.
    + split; [| tauto].
      intros [H | [H | [H | [H | H]]]]; destruct H as [H1 H2];
        first [exact H1 | discriminate H2].
    + split; [| tauto].
      intros [H | [H | [H | [H | H]]]]; destruct H as [H1 H2];
        first [exact H1 | discriminate H2].
    + split; [| tauto].
      intros [H | [H | [H | [H | H]]]]; destruct H as [H1 H2];
        first [exact H1 | discriminate H2].
    + split.
      * intros [H | [H | [H | [H | H]]]]; destruct H as [H1 H2];
          try discriminate H2. destruct mn; [discriminate | discriminate H1].
      * intros H. do 3 right. left. split; [| reflexivity].
        destruct mn; [reflexivity | contradiction].
    + split.
      * intros [H | [H | [H | [H | H]]]]; destruct H as [H1 H2];
          try discriminate H2. destruct mx; [discriminate | discriminate H1].
      * intros H. do 4 right. split; [| reflexivity].
        destruct mx; [reflexivity | contradiction].
  - intros t lb d mx. unfold where_params, label_score_conditions.
    cbv zeta. unfold when_not_None at 2. cbv beta iota.
    destruct mx; unfold when_not_None, append_condition; cbn [snd];
      rewrite ?in_app_iff; simpl; auto.
  - intros t lb d mn. unfold where_params, label_score_conditions.
    cbv zeta. unfold when_not_None at 1. unfold append_condition. cbn [snd].
    rewrite in_app_iff. right. left. reflexivity.
  - intros env sch rows schema s t lb d mn mx Hh Ht Hr Hcast.
    destruct (get_total_image_count_run env Hh sch rows Ht t lb d mn mx
                schema s Hcast Hr) as (s1 & E1 & _).
    destruct (get_all_image_paths_run env Hh sch rows Ht lb d mn mx
                schema s Hcast Hr) as (s2 & E2 & _).
    split; [now rewrite E1 |]. split.
    + rewrite E2. cbn [fst]. unfold matching_paths.
      now rewrite filter_row_matches.
    + intros l o Hl Ho.
      destruct (get_image_paths_filtered env Hh sch rows Ht l o t lb d mn mx
                  schema s Hcast Hl Ho Hr) as (s3 & E3 & _).
      now rewrite E3.
  - intros t lb d mn mx r.
    split; [apply matches_min_0 |]. split; [apply matches_max_0 |].
    apply matches_empty_strings.
Qed.

(** On the example table, whose scores are 0.5, -0.25 and NULL: without a
    bound all three rows count; a lower bound of 0 leaves the first and an
    upper bound of 0 the second, and the listing changes with it. *)
Example zero_is_a_bound :
  fst (get_total_image_count ex_env None None None None None
         (Some "alt") initial_state) = Return (Integer 3)
  /\ fst (get_total_image_count ex_env None None None (Some 0%Q) None
            (Some "alt") initial_state) = Return (Integer 1)
  /\ fst (get_total_image_count ex_env None None None None (Some 0%Q)
            (Some "alt") initial_state) = Return (Integer 1)
  /\ fst (get_all_image_paths ex_env None None (Some 0%Q) None
            (Some "alt") initial_state) = Return [Text "/Volumes/m/b.png"]
  /\ fst (get_all_image_paths ex_env None None None (Some 0%Q)
            (Some "alt") initial_state) = Return [Text "/Volumes/m/a.png"]
  /\ fst (get_image_paths ex_env 24 0 None None None (Some 0%Q) None
            (Some "alt") initial_state) = Return [[Text "/Volumes/m/b.png"]]
  /\ fst (get_image_paths ex_env 24 0 (Some "") (Some "") (Some "") None None
            (Some "alt") initial_state)
     = Return [[Text "/Volumes/m/a.png"]; [Text "/Volumes/m/b.png"];
               [Text "/Volumes/m/c.png"]].
Proof. vm_compute. repeat split; reflexivity. Qed.

(* ===================================================================== *)
(** ** When [check_table_exists] says yes                                 *)
(* ===================================================================== *)

(** A search that returns a schema returns the first one, in code-point
    order, that holds the table; this in any world. *)
Lemma find_table_schema_found (env : Env) (table : string) :
  returns_only (find_table_schema env table)
    (fun r => forall v, r = Some v ->
       exists a, v = Text a
                 /\ table_in_schema (env_server env) a table
                 /\ forall sc, table_in_schema (env_server env) sc table ->
                               str_le a sc).
Proof.
  unfold find_table_schema.
  apply returns_only_try_except;
    [| intros e; apply returns_only_ret; intros v Hv; discriminate Hv].
  unfold with_connection.
  apply (returns_only_bind _ _ (fun _ => True)); [easy |].
  intros conn _.
  apply (returns_only_bind _ _ _ _ (returns_only_cur_execute env _ _)).
  intros rows Hrows. simpl execute in Hrows.
  rewrite schemas_of_table_text, order_by_text in Hrows.
  destruct (sort_str _) as [| a rest] eqn:Es.
  - injection Hrows as <-. apply returns_only_ret.
    intros v Hv. discriminate Hv.
  - injection Hrows as <-. cbn [firstn map fetchone tuple1 tuple_truthy].
    apply (returns_only_bind _ _ (fun v => v = Text a)).
    { intros s x s' H. now injection H as <- _. }
    intros v ->. apply returns_only_ret. intros v [= <-].
    destruct (sort_str_head _ _ _ Es) as (Hin & Hmin).
    exists a. split; [reflexivity |].
    split; [now apply schema_names_In |].
    intros sc Hsc. apply Hmin. now apply schema_names_In.
Qed.

Lemma check_table_exists_true (env : Env) (schema : option string)
  (table : string) (s s' : State) :
  check_table_exists env schema table s = (Return true, s') ->
  (table_in_schema (env_server env) (resolve schema s) table
   /\ DEFAULT_SCHEMA s' = DEFAULT_SCHEMA s)
  \/ (~ table_in_schema (env_server env) (resolve schema s) table
      /\ table_in_schema (env_server env) (DEFAULT_SCHEMA s') table
      /\ forall sc, table_in_schema (env_server env) sc table ->
                    str_le (DEFAULT_SCHEMA s') sc).
Proof.
  unfold check_table_exists.
  rewrite (bind_return _ _ _ _ _ (schema_or_default_run schema s)).
  unfold try_except, with_connection.
  pose proof (keeps_schema_get_connection env s) as Hk0.
  unfold bind at 1.
  destruct (get_connection env s) as [[conn | e] s0]; cbn [snd] in Hk0.
  2: { destruct (isinstance_Exception e); [| discriminate].
       unfold st_error. unfold_m. simpl. discriminate. }
  destruct (cur_execute_run env CurrentDatabaseSchema [] s0)
    as (s2 & E2 & Hd2 & _).
  destruct (cur_execute_run env ListSchemata [] s2) as (s3 & E3 & Hd3 & _).
  destruct (cur_execute_run env TableExists
              [Text (resolve schema s); Text table] s3)
    as (s4 & E4 & Hd4 & _).
  simpl execute in E2, E3, E4.
  rewrite (bind_return _ _ _ _ _ E2), (bind_return _ _ _ _ _ E3),
    (bind_return _ _ _ _ _ E4).
  cbn [fetchone_item fetchone getitem nth_error].
  match goal with
  | |- context [Boolean ?b] => destruct b eqn:Ex
  end.
  - rewrite (bind_return _ _ _ _ _ (eq_refl : ret (Boolean true) s4 = _)).
    cbn [sqlval_truthy]. intros [= <-]. left.
    split; [now apply table_exists_iff | congruence].
  - rewrite (bind_return _ _ _ _ _ (eq_refl : ret (Boolean false) s4 = _)).
    cbn [sqlval_truthy].
    assert (Hnot : ~ table_in_schema (env_server env) (resolve schema s) table).
    { intros H. apply table_exists_iff in H. congruence. }
    pose proof (find_table_schema_found env table s4) as Hf.
    unfold bind at 1.
    destruct (find_table_schema env table s4) as [[[v |] | e] s5];
      [| discriminate | destruct (isinstance_Exception e);
                        [unfold st_error; unfold_m; simpl |]; discriminate].
    destruct (Hf _ _ eq_refl v eq_refl) as (a & -> & Hin & Hmin).
    cbn [sqlval_truthy sqlval_str].
    destruct (String.eqb a ""); cbn [negb]; [discriminate |].
    unfold_m. simpl. intros [= <-]. right. simpl. auto.
Qed.


(** X28: [check_table_exists] returns true only for a table that is there, in
    any world: either the schema that was asked for holds it, and
    [config.DEFAULT_SCHEMA] is what it was; or it does not, and
    [config.DEFAULT_SCHEMA] is now the first schema, in code-point order,
    that holds it.  And in a world where connections succeed and schema
    names are not empty it returns true for every table that is there. *)
Theorem check_table_exists_sound (env : Env) (schema : option string)
  (table : string) (s : State) :
  (forall s',
     check_table_exists env schema table s = (Return true, s') ->
     (table_in_schema (env_server env) (resolve schema s) table
      /\ DEFAULT_SCHEMA s' = DEFAULT_SCHEMA s)
     \/ (~ table_in_schema (env_server env) (resolve schema s) table
         /\ table_in_schema (env_server env) (DEFAULT_SCHEMA s') table
         /\ forall sc, table_in_schema (env_server env) sc table ->
                       str_le (DEFAULT_SCHEMA s') sc))
  /\ (healthy env ->
      schema_names_nonempty (env_server env) ->
      (exists sc, table_in_schema (env_server env) sc table) ->
      exists s', check_table_exists env schema table s = (Return true, s')).
Proof.
  split.
  - intros s'. apply check_table_exists_true.
  - intros Hh Hne (sc0 & Hsc0).
    destruct (existsb (fun t => String.eqb (table_schema t) (resolve schema s)
                                && String.eqb (table_name t) table)
                      (tables (env_server env))) eqn:Ex.
    + apply table_exists_iff in Ex.
      destruct (check_table_exists_found env Hh schema table s Ex)
        as (s' & evs & E & _).
      exists s'. exact E.
    + assert (Hnot : ~ table_in_schema (env_server env) (resolve schema s)
                       table).
      { intros H. apply table_exists_iff in H. congruence. }
      destruct (check_table_exists_scan env Hh schema table s Hnot)
        as (s' & pre & post & E & _).
      destruct (sort_str _) as [| alt rest] eqn:Es.
      * apply sort_str_nil in Es.
        apply schema_names_In in Hsc0. rewrite Es in Hsc0. destruct Hsc0.
      * destruct (sort_str_head _ _ _ Es) as (Hin & _).
        apply schema_names_In in Hin.
        assert (Ha : String.eqb alt "" = false).
        { apply String.eqb_neq. destruct Hin as (t & Ht & <- & _).
          now apply Hne. }
        rewrite Ha in E. exists s'. exact E.
Qed.

Lemma check_table_exists_sound_witness :
  let s' := snd (check_table_exists ex_env None TABLE_NAME initial_state) in
  (table_in_schema (env_server ex_env) (resolve None initial_state) TABLE_NAME
   /\ DEFAULT_SCHEMA s' = DEFAULT_SCHEMA initial_state)
  \/ (~ table_in_schema (env_server ex_env) (resolve None initial_state)
        TABLE_NAME
      /\ table_in_schema (env_server ex_env) (DEFAULT_SCHEMA s') TABLE_NAME
      /\ forall sc, table_in_schema (env_server ex_env) sc TABLE_NAME ->
                    str_le (DEFAULT_SCHEMA s') sc).
Proof.
  intros s'.
  apply (proj1 (check_table_exists_sound ex_env None TABLE_NAME initial_state)
           s').
  vm_compute. reflexivity.
Defined.

(* ===================================================================== *)
(** ** The two gates of [main]                                            *)
(* ===================================================================== *)

(** X29: With a required environment variable unset or empty, [main] names the
    missing variables, in the order of the list, and stops the script:
    the identity provider and the database are not touched, the manager
    and [config.DEFAULT_SCHEMA] stay as they were, and the gallery is not
    run, whatever it is. *)
Theorem main_stops_on_missing_environment (env : Env) (p : Page) :
  validate_required_env_vars env <> [] ->
  exists p',
    (forall gallery, main env gallery p = (Raise (mk_exn StopException ""), p'))
    /\ page_elements p'
       = page_elements p
         ++ [St_set_page_config "Unity Catalog Image Gallery" "wide";
             St_title "Unity Catalog Image Gallery";
             St_markdown "*AI Image Predictions Browser powered by Lakebase*";
             St_markdown "---"]
    /\ log (page_state p')
       = log (page_state p)
         ++ [St_error (String.concat ", " (validate_required_env_vars env));
             St_info "Required Environment Variables"]
    /\ postgres_password (page_state p') = postgres_password (page_state p)
    /\ connection_pool (page_state p') = connection_pool (page_state p)
    /\ DEFAULT_SCHEMA (page_state p') = DEFAULT_SCHEMA (page_state p)
    /\ token_requests (page_state p') = token_requests (page_state p)
    /\ checkouts (page_state p') = checkouts (page_state p).
Proof.
  intros H. unfold main. cbv zeta.
  destruct (validate_required_env_vars env) as [| v l] eqn:Ev;
    [contradiction |].
  unfold u_bind, render, lift_M, list_truthy, st_stop, st_error, st_info.
  unfold_m. simpl.
  eexists. split; [intros gallery; reflexivity |]. simpl.
  rewrite <- !app_assoc. repeat split.
Qed.

Lemma main_stops_on_missing_environment_witness :
  let p := {| page_state := initial_state; page_elements := [] |} in
  exists p',
    (forall gallery, main ex_env gallery p = (Raise (mk_exn StopException ""), p'))
    /\ page_elements p'
       = page_elements p
         ++ [St_set_page_config "Unity Catalog Image Gallery" "wide";
             St_title "Unity Catalog Image Gallery";
             St_markdown "*AI Image Predictions Browser powered by Lakebase*";
             St_markdown "---"]
    /\ log (page_state p')
       = log (page_state p)
         ++ [St_error (String.concat ", " (validate_required_env_vars ex_env));
             St_info "Required Environment Variables"]
    /\ postgres_password (page_state p') = postgres_password (page_state p)
    /\ connection_pool (page_state p') = connection_pool (page_state p)
    /\ DEFAULT_SCHEMA (page_state p') = DEFAULT_SCHEMA (page_state p)
    /\ token_requests (page_state p') = token_requests (page_state p)
    /\ checkouts (page_state p') = checkouts (page_state p).
Proof.
  intros p. apply (main_stops_on_missing_environment ex_env p).
  vm_compute. discriminate.
Defined.

(** X30: With the environment complete, [main] runs [check_table_exists] on
    the configured schema and goes by its answer.  On true the gallery is
    run, in the state the check left, and in that state
    [config.DEFAULT_SCHEMA] names a schema that holds the table, whatever
    the world is.  On false the setup instructions are shown and the
    script is stopped.  An exception of the check, which is never an
    instance of [Exception], ends [main] as it is.  In the last two cases
    the gallery is not run. *)
Theorem gallery_runs_only_with_table (env : Env) (p : Page) :
  validate_required_env_vars env = [] ->
  let header := [St_set_page_config "Unity Catalog Image Gallery" "wide";
                 St_title "Unity Catalog Image Gallery";
                 St_markdown "*AI Image Predictions Browser powered by Lakebase*";
                 St_markdown "---"] in
  let checked := check_table_exists env None TABLE_NAME (page_state p) in
  let page s := {| page_state := s;
                   page_elements := page_elements p ++ header |} in
  (fst checked = Return true
   /\ table_in_schema (env_server env) (DEFAULT_SCHEMA (snd checked))
                      TABLE_NAME
   /\ forall gallery, main env gallery p = gallery (page (snd checked)))
  \/ (fst checked = Return false
      /\ forall gallery,
           main env gallery p
           = (Raise (mk_exn StopException ""),
              page (snd (display_setup_instructions (snd checked)))))
  \/ (exists e,
        fst checked = Raise e
        /\ isinstance_Exception e = false
        /\ forall gallery, main env gallery p = (Raise e, page (snd checked))).
Proof.
  intros H header checked page.
  assert (Hmain : forall gallery,
             main env gallery p
             = match fst checked with
               | Return true => gallery (page (snd checked))
               | Return false =>
                   (Raise (mk_exn StopException ""),
                    page (snd (display_setup_instructions (snd checked))))
               | Raise e => (Raise e, page (snd checked))
               end).
  { intros gallery. unfold main. cbv zeta. rewrite H.
    unfold u_bind, render, lift_M, list_truthy, u_ret,
      check_database_connection. cbn [page_state page_elements fst snd].
    rewrite <- !app_assoc. cbn [app].
    fold header. fold checked.
    destruct checked as [[[] | e] s1]; reflexivity. }
  destruct checked as [[[] | e] s1] eqn:Ec; cbn [fst snd] in *.
  - left. split; [reflexivity |]. split; [| exact Hmain].
    destruct (check_table_exists_true env None TABLE_NAME _ _ Ec)
      as [[Hin Hd] | (_ & Hin & _)]; [| exact Hin].
    rewrite Hd. exact Hin.
  - right. left. split; [reflexivity | exact Hmain].
  - right. right. exists e. split; [reflexivity |].
    split; [| exact Hmain].
    exact (check_table_exists_raises env None TABLE_NAME _ _ _ Ec).
Qed.

Lemma gallery_runs_only_with_table_witness :
  let env := ex_env_with ex_vars in
  let p := {| page_state := initial_state; page_elements := [] |} in
  let header := [St_set_page_config "Unity Catalog Image Gallery" "wide";
                 St_title "Unity Catalog Image Gallery";
                 St_markdown "*AI Image Predictions Browser powered by Lakebase*";
                 St_markdown "---"] in
  let checked := check_table_exists env None TABLE_NAME (page_state p) in
  let page s := {| page_state := s;
                   page_elements := page_elements p ++ header |} in
  (fst checked = Return true
   /\ table_in_schema (env_server env) (DEFAULT_SCHEMA (snd checked))
                      TABLE_NAME
   /\ forall gallery, main env gallery p = gallery (page (snd checked)))
  \/ (fst checked = Return false
      /\ forall gallery,
           main env gallery p
           = (Raise (mk_exn StopException ""),
              page (snd (display_setup_instructions (snd checked)))))
  \/ (exists e,
        fst checked = Raise e
        /\ isinstance_Exception e = false
        /\ forall gallery, main env gallery p = (Raise e, page (snd checked))).
Proof.
  intros env p.
  apply (gallery_runs_only_with_table env p).
  vm_compute. reflexivity.
Defined.
